(** * Cobertura de pontos com intervalos: guloso e backtracking

    Shallow embedding of [src/coberturaGuloso.c] and
    [src/coberturaBacktracking.c].

    Conventions of the embedding.
    - A C [int] is a [Z]; the arithmetic the programs perform on it
      ([++], [--], [+ 1], [fim - inicio]) is written with the 32-bit
      wrap-around [wrap_int].
    - A pointer together with its element count ([pontos]/[n_pontos],
      [intervalos]/[n_intervalos]) is a list; the count is the length of
      the list.  A buffer with a fill count ([solucao]/[n_solucao],
      [solucao_atual]/[n_solucao_atual]) is a list (the whole buffer) and
      a separate [Z] counter, so that stale entries above the counter are
      visible.
    - An [int] used as a truth value (the masks of covered points, the
      results of the predicates) is a [bool].
    - [malloc]/[calloc] are taken to succeed; a [malloc]ed buffer is
      filled with [intervalo_nulo].
    - A store or load through an index that is not a loop counter is
      checked against the bounds of the array: outside them the C
      behaviour is undefined and the model yields [Falha].
    - Recursion and the [while] loop run on fuel; [SemCombustivel] is the
      outcome of too little of it.  The two [resolver_*] functions supply
      the fuel themselves.
    - A C [double] is a binary64 float of the kernel ([PrimFloat.float]),
      whose operations round to nearest as those of the C program do.
      The quality ratio is kept in the metrics a solver returns; the
      field of the problem that holds the same number is left out.
    - Time and memory sampling ([clock_gettime], [getrusage]) are outside
      the model; so are the random scenarios and the console and CSV
      output. *)

From Stdlib Require Import ZArith Lia Bool QArith Qabs.
From Stdlib Require Floats Uint63.
From Stdlib Require DecimalString.
From stdpp Require Import base tactics option list strings.

Local Open Scope Z_scope.

(** ** C integers *)

Definition INT_MAX : Z := 2147483647.
Definition INT_MIN : Z := -2147483648.

Definition wrap_int (z : Z) : Z := (z + 2147483648) mod 4294967296 - 2147483648.

Definition int_add (a b : Z) : Z := wrap_int (a + b).
Definition int_sub (a b : Z) : Z := wrap_int (a - b).

(** ** C doubles *)

(** The conversion [(double)n] of an [int]. *)
Definition double_of_int (z : Z) : PrimFloat.float :=
  if z <? 0 then PrimFloat.opp (PrimFloat.of_uint63 (Uint63.of_Z (- z)))
  else PrimFloat.of_uint63 (Uint63.of_Z z).

(** The last [if] of [resolver_guloso] and of [resolver_backtracking]:
    [1.0 - ((double)n_solucao / n_intervalos)] when there are intervals,
    [0.0] otherwise. *)
Definition qualidade (n_solucao n_intervalos : Z) : PrimFloat.float :=
  if n_intervalos >? 0
  then PrimFloat.sub PrimFloat.one
         (PrimFloat.div (double_of_int n_solucao) (double_of_int n_intervalos))
  else PrimFloat.zero.

(** The rational number a finite [double] stands for. *)
Definition valor (x : PrimFloat.float) : option Q :=
  match FloatOps.Prim2SF x with
  | SpecFloat.S754_zero _ => Some 0%Q
  | SpecFloat.S754_finite s m e =>
      Some (inject_Z (if s then Z.neg m else Z.pos m) * Qpower 2 e)%Q
  | _ => None
  end.

(** [1 - n_solucao / n_intervalos] in exact arithmetic. *)
Definition razao (n_solucao n_intervalos : Z) : Q :=
  (1 - inject_Z n_solucao / inject_Z n_intervalos)%Q.

(** The [double] [x] is the ratio itself. *)
Definition razao_exata (x : PrimFloat.float) (n_solucao n_intervalos : Z) : Prop :=
  ∃ v, valor x = Some v ∧ (v == razao n_solucao n_intervalos)%Q.

(** The [double] [x] is within [2^-53] of the ratio. *)
Definition razao_proxima (x : PrimFloat.float) (n_solucao n_intervalos : Z) : Prop :=
  ∃ v, valor x = Some v
       ∧ (Qabs (v - razao n_solucao n_intervalos) <= 1 # 9007199254740992)%Q.

(** ** Outcomes of the effectful code *)

Inductive resultado (A : Type) : Type :=
| Feito (a : A)
| SemCombustivel
| Falha.
Arguments Feito {A} a.
Arguments SemCombustivel {A}.
Arguments Falha {A}.

Definition ligar {A B} (r : resultado A) (k : A → resultado B) : resultado B :=
  match r with
  | Feito a => k a
  | SemCombustivel => SemCombustivel
  | Falha => Falha
  end.

Notation "'seja' x '<-' r 'em' k" := (ligar r (fun x => k))
  (at level 10, x pattern, r at level 100, k at level 200, only parsing).

(** ** Data shared by the two programs *)

Record Intervalo : Type := { inicio : Z; fim : Z }.
Record Ponto : Type := { id : Z; posicao : Z }.

Global Instance Intervalo_eq_dec : EqDecision Intervalo.
Proof. solve_decision. Defined.
Global Instance Ponto_eq_dec : EqDecision Ponto.
Proof. solve_decision. Defined.

Definition intervalo_nulo : Intervalo := {| inicio := 0; fim := 0 |}.

(** [a[i]] with [i] an [int]. *)
Definition ler {A} (a : list A) (i : Z) : resultado A :=
  if i <? 0 then Falha
  else match a !! Z.to_nat i with
       | Some x => Feito x
       | None => Falha
       end.

(** [a[i] = x] with [i] an [int]. *)
Definition escrever {A} (a : list A) (i : Z) (x : A) : resultado (list A) :=
  if (i <? 0) || (Z.of_nat (length a) <=? i) then Falha
  else Feito (<[Z.to_nat i := x]> a).

(** [ponto_coberto_por_intervalo] and [ponto_coberto_por_intervalo_backtracking]:
    the two files hold the same body. *)
Definition ponto_coberto_por_intervalo (ponto : Ponto) (intervalo : Intervalo) : bool :=
  if (posicao ponto >=? inicio intervalo) && (posicao ponto <=? fim intervalo)
  then true
  else false.

Definition ponto_coberto_por_intervalo_backtracking := ponto_coberto_por_intervalo.

(** The loop that both programs run for one interval over the mask of
    covered points:
    [for j: if (mask[j] == 0) if (coberto(pontos[j], intervalo)) { mask[j] = 1; n++; }]
    It is the body of [marcar_pontos_cobertos] and the inner loop of
    [verificar_cobertura_parcial]. *)
Fixpoint marcar_laco (intervalo : Intervalo) (pontos : list Ponto)
    (mask : list bool) (n : Z) : list bool * Z :=
  match pontos, mask with
  | ponto :: pontos', c :: mask' =>
      if negb c && ponto_coberto_por_intervalo ponto intervalo
      then let '(m, k) := marcar_laco intervalo pontos' mask' (int_add n 1) in
           (true :: m, k)
      else let '(m, k) := marcar_laco intervalo pontos' mask' n in
           (c :: m, k)
  | _, _ => (mask, n)
  end.

(** ** Coverage, as the specification speaks of it *)

Definition coberto_por (sel : list Intervalo) (ponto : Ponto) : bool :=
  existsb (ponto_coberto_por_intervalo ponto) sel.

(** Every point lies in the closed range of some member of [sel]. *)
Definition cobertura_completa (pontos : list Ponto) (sel : list Intervalo) : Prop :=
  ∀ ponto, ponto ∈ pontos → coberto_por sel ponto = true.

Definition cobertura_completab (pontos : list Ponto) (sel : list Intervalo) : bool :=
  forallb (coberto_por sel) pontos.

(** Each member, in the order of the list, holds a point that no earlier
    member holds. *)
Definition cada_escolha_util (pontos : list Ponto) (sel : list Intervalo) : Prop :=
  ∀ (i : nat) iv, sel !! i = Some iv →
    ∃ ponto, ponto ∈ pontos ∧ ponto_coberto_por_intervalo ponto iv = true
             ∧ coberto_por (take i sel) ponto = false.

(** The number of marked entries of a mask. *)
Fixpoint contar (mask : list bool) : Z :=
  match mask with
  | [] => 0
  | c :: mask' => (if c then 1 else 0) + contar mask'
  end.

(** The mask that marks the points held by some member of [sel]. *)
Definition mascara (pontos : list Ponto) (sel : list Intervalo) : list bool :=
  map (coberto_por sel) pontos.

(** [qsort] under a comparator of the C kind (negative, zero, positive):
    an insertion sort.  Under the two comparators of the programs, two
    intervals compare equal only if they are the same interval, so the
    sorted array does not depend on the sorting algorithm. *)
Fixpoint inserir {A} (cmp : A → A → Z) (x : A) (l : list A) : list A :=
  match l with
  | [] => [x]
  | y :: l' => if cmp x y <=? 0 then x :: y :: l' else y :: inserir cmp x l'
  end.

Definition qsort {A} (cmp : A → A → Z) (l : list A) : list A :=
  foldr (inserir cmp) [] l.

(** The points and the intervals that [configurar_cenario_pequeno] and
    [configurar_cenario_pequeno_backtracking] write, before the sort. *)
Definition pts (l : list Z) : list Ponto :=
  imap (λ i x, {| id := Z.of_nat (S i); posicao := x |}) l.
Definition ivs (l : list (Z * Z)) : list Intervalo :=
  map (λ '(a, b), {| inicio := a; fim := b |}) l.

Definition pontos_pequeno : list Ponto := pts [5; 10; 15; 20; 25; 30; 35; 40].
Definition intervalos_pequeno : list Intervalo :=
  ivs [(0, 12); (8, 22); (15, 28); (25, 42); (5, 18);
       (18, 32); (30, 45); (3, 15); (20, 35); (12, 26)].

(** ** The greedy program, [src/coberturaGuloso.c] *)

Module Guloso.

Record Problema : Type := {
  intervalos : list Intervalo;
  pontos : list Ponto;
  pontos_cobertos : list bool;
  n_pontos_cobertos : Z;
  solucao : list Intervalo;
  n_solucao : Z
}.

Record Metricas : Type := { m_qualidade : PrimFloat.float; m_n_solucao : Z }.

Definition n_intervalos (problema : Problema) : Z :=
  Z.of_nat (length (intervalos problema)).
Definition n_pontos (problema : Problema) : Z :=
  Z.of_nat (length (pontos problema)).

Definition inicializar_problema : Problema :=
  {| intervalos := []; pontos := [];
     pontos_cobertos := []; n_pontos_cobertos := 0;
     solucao := []; n_solucao := 0 |}.

Definition comparar_intervalos (a b : Intervalo) : Z :=
  if fim a <? fim b then -1
  else if fim a >? fim b then 1
  else if inicio a <? inicio b then -1
  else if inicio a >? inicio b then 1
  else 0.

(** The stores of a [configurar_cenario_*] into [pontos], [n_pontos],
    [intervalos] and [n_intervalos]. *)
Definition com_instancia (problema : Problema)
    (ivs : list Intervalo) (pts : list Ponto) : Problema :=
  {| intervalos := ivs; pontos := pts;
     pontos_cobertos := pontos_cobertos problema;
     n_pontos_cobertos := n_pontos_cobertos problema;
     solucao := solucao problema; n_solucao := n_solucao problema |}.

Definition configurar_cenario_pequeno (problema : Problema) : Problema :=
  com_instancia problema (qsort comparar_intervalos intervalos_pequeno) pontos_pequeno.

(** The problem a caller hands to [resolver_guloso]: initialised, then
    given its intervals and its points. *)
Definition instancia (ivs : list Intervalo) (pts : list Ponto) : Problema :=
  com_instancia inicializar_problema ivs pts.

Definition marcar_pontos_cobertos (problema : Problema) (intervalo : Intervalo) : Problema :=
  let '(mask, n) := marcar_laco intervalo (pontos problema)
                      (pontos_cobertos problema) (n_pontos_cobertos problema) in
  {| intervalos := intervalos problema; pontos := pontos problema;
     pontos_cobertos := mask; n_pontos_cobertos := n;
     solucao := solucao problema; n_solucao := n_solucao problema |}.

Definition todos_pontos_cobertos (problema : Problema) : bool :=
  if n_pontos_cobertos problema =? n_pontos problema then true else false.

(** The scan of [obter_proximo_ponto_nao_coberto] from index [i] on. *)
Fixpoint primeiro_nao_coberto (mask : list bool) (i : Z) : Z :=
  match mask with
  | [] => -1
  | c :: mask' => if negb c then i else primeiro_nao_coberto mask' (i + 1)
  end.

Definition obter_proximo_ponto_nao_coberto (problema : Problema) : Z :=
  primeiro_nao_coberto (take (length (pontos problema)) (pontos_cobertos problema)) 0.

(** The inner loop of [encontrar_melhor_intervalo]:
    [pontos_cobertos_potencial] of one interval. *)
Fixpoint potencial (intervalo : Intervalo) (pontos : list Ponto)
    (mask : list bool) (n : Z) : Z :=
  match pontos, mask with
  | ponto :: pontos', c :: mask' =>
      if negb c && ponto_coberto_por_intervalo ponto intervalo
      then potencial intervalo pontos' mask' (int_add n 1)
      else potencial intervalo pontos' mask' n
  | _, _ => n
  end.

Definition tamanho (intervalo : Intervalo) : Z :=
  int_sub (fim intervalo) (inicio intervalo).

(** [intervalos[melhor_intervalo]], an index the loop has been through. *)
Definition intervalo_em (problema : Problema) (i : Z) : Intervalo :=
  nth (Z.to_nat i) (intervalos problema) intervalo_nulo.

(** The outer loop of [encontrar_melhor_intervalo], over the intervals
    from index [i] on, with the two locals it updates. *)
Fixpoint melhor_laco (problema : Problema) (ponto_atual : Ponto)
    (resto : list Intervalo) (i : Z)
    (melhor_intervalo max_pontos_cobertos : Z) : Z :=
  match resto with
  | [] => melhor_intervalo
  | intervalo :: resto' =>
      if ponto_coberto_por_intervalo ponto_atual intervalo then
        let pontos_cobertos_potencial :=
          potencial intervalo (pontos problema) (pontos_cobertos problema) 0 in
        if pontos_cobertos_potencial >? max_pontos_cobertos then
          melhor_laco problema ponto_atual resto' (i + 1) i pontos_cobertos_potencial
        else if (pontos_cobertos_potencial =? max_pontos_cobertos)
                && (pontos_cobertos_potencial >? 0) then
          if melhor_intervalo =? -1 then
            melhor_laco problema ponto_atual resto' (i + 1) i max_pontos_cobertos
          else
            let tamanho_melhor := tamanho (intervalo_em problema melhor_intervalo) in
            let tamanho_atual := tamanho intervalo in
            if tamanho_atual <? tamanho_melhor then
              melhor_laco problema ponto_atual resto' (i + 1) i max_pontos_cobertos
            else
              melhor_laco problema ponto_atual resto' (i + 1)
                melhor_intervalo max_pontos_cobertos
        else
          melhor_laco problema ponto_atual resto' (i + 1)
            melhor_intervalo max_pontos_cobertos
      else
        melhor_laco problema ponto_atual resto' (i + 1)
          melhor_intervalo max_pontos_cobertos
  end.

Definition encontrar_melhor_intervalo (problema : Problema) (indice_ponto : Z)
    : resultado Z :=
  seja ponto_atual <- ler (pontos problema) indice_ponto em
  Feito (melhor_laco problema ponto_atual (intervalos problema) 0 (-1) 0).

(** One turn of the [while] of [resolver_guloso]: the test of the loop,
    then its body.  [Para] is the exit, by the test or by a [break]. *)
Inductive passo : Type :=
| Continua (problema : Problema)
| Para (problema : Problema).

Definition corpo_laco (problema : Problema) : resultado passo :=
  if todos_pontos_cobertos problema then Feito (Para problema)
  else
    let indice_ponto := obter_proximo_ponto_nao_coberto problema in
    if indice_ponto =? -1 then Feito (Para problema)
    else
      seja indice_intervalo <- encontrar_melhor_intervalo problema indice_ponto em
      if indice_intervalo =? -1 then Feito (Para problema)
      else
        seja intervalo <- ler (intervalos problema) indice_intervalo em
        seja sol <- escrever (solucao problema) (n_solucao problema) intervalo em
        let problema' :=
          {| intervalos := intervalos problema; pontos := pontos problema;
             pontos_cobertos := pontos_cobertos problema;
             n_pontos_cobertos := n_pontos_cobertos problema;
             solucao := sol; n_solucao := int_add (n_solucao problema) 1 |} in
        Feito (Continua (marcar_pontos_cobertos problema' intervalo)).

Fixpoint laco (fuel : nat) (problema : Problema) : resultado Problema :=
  match fuel with
  | O => SemCombustivel
  | S fuel' =>
      seja r <- corpo_laco problema em
      match r with
      | Para problema' => Feito problema'
      | Continua problema' => laco fuel' problema'
      end
  end.

(** The state [resolver_guloso] sets up before its loop. *)
Definition preparar (problema : Problema) : Problema :=
  {| intervalos := intervalos problema; pontos := pontos problema;
     pontos_cobertos := replicate (length (pontos problema)) false;
     n_pontos_cobertos := 0;
     solucao := replicate (length (intervalos problema)) intervalo_nulo;
     n_solucao := 0 |}.

Definition resolver_guloso (problema : Problema) : resultado (Problema * Metricas) :=
  seja problema' <- laco (S (length (pontos problema))) (preparar problema) em
  Feito (problema',
         {| m_qualidade := qualidade (n_solucao problema') (n_intervalos problema');
            m_n_solucao := n_solucao problema' |}).

(** The cover the solver hands back: the filled part of [solucao]. *)
Definition cobertura (problema : Problema) : list Intervalo :=
  take (Z.to_nat (n_solucao problema)) (solucao problema).

(** *** The vocabulary of the properties of the greedy loop *)

Implicit Types (p : Problema).

(** The number of points of [pontos] that [mask] leaves unmarked and
    that [intervalo] holds. *)
Fixpoint nao_cobertos_em (intervalo : Intervalo) (pontos : list Ponto)
    (mask : list bool) : nat :=
  match pontos, mask with
  | ponto :: pontos', c :: mask' =>
      (if negb c && ponto_coberto_por_intervalo ponto intervalo then 1 else 0)%nat
      + nao_cobertos_em intervalo pontos' mask'
  | _, _ => 0%nat
  end.

(** [pontos_cobertos_potencial] of an interval in the state [p]. *)
Definition pot p (iv : Intervalo) : Z :=
  potencial iv (pontos p) (pontos_cobertos p) 0.

(** The interval [ivk] at index [k] is to be chosen before [ivj] at
    index [j]: more new points; or as many and a smaller [fim - inicio];
    or as many, the same [fim - inicio], and not a later index. *)
Definition prefere p (k : nat) (ivk : Intervalo) (j : nat) (ivj : Intervalo) : Prop :=
  pot p ivj < pot p ivk
  ∨ (pot p ivj = pot p ivk
     ∧ (tamanho ivk < tamanho ivj
        ∨ (tamanho ivk = tamanho ivj ∧ (k ≤ j)%nat))).

(** The two locals of the loop after the intervals [feitos]. *)
Definition estado p (ancora : Ponto) (feitos : list Intervalo)
    (melhor max : Z) : Prop :=
  (melhor = -1 ∧ max = 0
   ∧ ∀ iv, iv ∈ feitos → ponto_coberto_por_intervalo ancora iv = false)
  ∨ (∃ (k : nat) ivk,
       melhor = Z.of_nat k ∧ feitos !! k = Some ivk
       ∧ ponto_coberto_por_intervalo ancora ivk = true
       ∧ max = pot p ivk
       ∧ ∀ (j : nat) ivj, feitos !! j = Some ivj →
           ponto_coberto_por_intervalo ancora ivj = true →
           prefere p k ivk j ivj).

(** What holds of the state at every test of the [while]. *)
Record ginv p : Prop := {
  g_mask : pontos_cobertos p = mascara (pontos p) (cobertura p);
  g_cnt : n_pontos_cobertos p = contar (pontos_cobertos p);
  g_buf : length (solucao p) = length (intervalos p);
  g_len : Z.of_nat (length (cobertura p)) = n_solucao p;
  g_in : ∀ iv, iv ∈ cobertura p → iv ∈ intervalos p;
  g_nodup : NoDup (cobertura p);
  g_util : cada_escolha_util (pontos p) (cobertura p);
  g_le : n_solucao p ≤ n_pontos_cobertos p;
  g_pts : n_pontos p ≤ INT_MAX;
  g_n : n_intervalos p ≤ INT_MAX
}.

(** The state after the selection of [iv]: the store into [solucao], the
    increment of [n_solucao], and [marcar_pontos_cobertos]. *)
Definition selecionar p (iv : Intervalo) : Problema :=
  marcar_pontos_cobertos
    {| intervalos := intervalos p; pontos := pontos p;
       pontos_cobertos := pontos_cobertos p;
       n_pontos_cobertos := n_pontos_cobertos p;
       solucao := <[Z.to_nat (n_solucao p) := iv]> (solucao p);
       n_solucao := int_add (n_solucao p) 1 |} iv.

(** The anchor of a turn: the first point, in the order of [pontos],
    whose mark is still off. *)
Definition ancora p (a : nat) (pt : Ponto) : Prop :=
  obter_proximo_ponto_nao_coberto p = Z.of_nat a
  ∧ pontos p !! a = Some pt
  ∧ pontos_cobertos p !! a = Some false
  ∧ ∀ k : nat, (k < a)%nat → pontos_cobertos p !! k = Some true.

(** The interval at index [k] is the choice for the point [pt]: it holds
    [pt], and it is preferred to every interval that holds [pt]. *)
Definition escolha p (pt : Ponto) (k : nat) (ivk : Intervalo) : Prop :=
  intervalos p !! k = Some ivk
  ∧ ponto_coberto_por_intervalo pt ivk = true
  ∧ ∀ (j : nat) ivj, intervalos p !! j = Some ivj →
      ponto_coberto_por_intervalo pt ivj = true → prefere p k ivk j ivj.

(** The states the loop goes through, from the one [resolver_guloso]
    prepares. *)
Inductive alcanca (p0 : Problema) : Problema → Prop :=
| alcanca_inicio : alcanca p0 (preparar p0)
| alcanca_passo p p' :
    alcanca p0 p → corpo_laco p = Feito (Continua p') → alcanca p0 p'.

End Guloso.

(** ** The exact program, [src/coberturaBacktracking.c] *)

Module Backtracking.

(** The fields [pontos_cobertos] and [n_pontos_cobertos] of the C struct
    are never used by this program and are left out. *)
Record ProblemaBacktracking : Type := {
  intervalos : list Intervalo;
  pontos : list Ponto;
  solucao_atual : list Intervalo;
  n_solucao_atual : Z;
  melhor_solucao : option (list Intervalo);   (* [None] is [NULL] *)
  n_melhor_solucao : Z;
  nos_visitados : Z
}.

Record MetricasBacktracking : Type := {
  m_qualidade : PrimFloat.float;
  m_n_solucao : Z;
  m_nos_visitados : Z
}.

Definition n_intervalos (problema : ProblemaBacktracking) : Z :=
  Z.of_nat (length (intervalos problema)).
Definition n_pontos (problema : ProblemaBacktracking) : Z :=
  Z.of_nat (length (pontos problema)).

Definition inicializar_problema_backtracking : ProblemaBacktracking :=
  {| intervalos := []; pontos := [];
     solucao_atual := []; n_solucao_atual := 0;
     melhor_solucao := None; n_melhor_solucao := INT_MAX;
     nos_visitados := 0 |}.

Definition comparar_intervalos_backtracking (a b : Intervalo) : Z :=
  let tamanho_a := int_sub (fim a) (inicio a) in
  let tamanho_b := int_sub (fim b) (inicio b) in
  if tamanho_a >? tamanho_b then -1
  else if tamanho_a <? tamanho_b then 1
  else if inicio a <? inicio b then -1
  else if inicio a >? inicio b then 1
  else 0.

(** The stores of a [configurar_cenario_*_backtracking] into [pontos],
    [n_pontos], [intervalos] and [n_intervalos]. *)
Definition com_instancia (problema : ProblemaBacktracking)
    (ivs : list Intervalo) (pts : list Ponto) : ProblemaBacktracking :=
  {| intervalos := ivs; pontos := pts;
     solucao_atual := solucao_atual problema;
     n_solucao_atual := n_solucao_atual problema;
     melhor_solucao := melhor_solucao problema;
     n_melhor_solucao := n_melhor_solucao problema;
     nos_visitados := nos_visitados problema |}.

Definition configurar_cenario_pequeno_backtracking (problema : ProblemaBacktracking)
    : ProblemaBacktracking :=
  com_instancia problema
    (qsort comparar_intervalos_backtracking intervalos_pequeno) pontos_pequeno.

(** The problem a caller hands to [resolver_backtracking]: initialised,
    then given its intervals and its points. *)
Definition instancia (ivs : list Intervalo) (pts : list Ponto) : ProblemaBacktracking :=
  com_instancia inicializar_problema_backtracking ivs pts.

(** The filled part of [solucao_atual]. *)
Definition parcial (problema : ProblemaBacktracking) : list Intervalo :=
  take (Z.to_nat (n_solucao_atual problema)) (solucao_atual problema).

(** The outer loop of [verificar_cobertura_parcial], over
    [solucao_atual[0 .. n_solucao_atual)]. *)
Fixpoint verificar_laco (pontos : list Ponto) (sel : list Intervalo)
    (cobertura_temp : list bool) (pontos_cobertos : Z) : list bool * Z :=
  match sel with
  | [] => (cobertura_temp, pontos_cobertos)
  | intervalo :: sel' =>
      let '(mask, n) := marcar_laco intervalo pontos cobertura_temp pontos_cobertos in
      verificar_laco pontos sel' mask n
  end.

Definition verificar_cobertura_parcial (problema : ProblemaBacktracking) : bool :=
  let cobertura_temp := replicate (length (pontos problema)) false in
  let '(_, pontos_cobertos) :=
    verificar_laco (pontos problema) (parcial problema) cobertura_temp 0 in
  if pontos_cobertos =? n_pontos problema then true else false.

Definition copiar_solucao (problema : ProblemaBacktracking) : ProblemaBacktracking :=
  let destino :=
    match melhor_solucao problema with
    | None => replicate (length (intervalos problema)) intervalo_nulo
    | Some b => b
    end in
  {| intervalos := intervalos problema; pontos := pontos problema;
     solucao_atual := solucao_atual problema;
     n_solucao_atual := n_solucao_atual problema;
     melhor_solucao :=
       Some (parcial problema ++ drop (Z.to_nat (n_solucao_atual problema)) destino);
     n_melhor_solucao := n_solucao_atual problema;
     nos_visitados := nos_visitados problema |}.

Definition com_nos_visitados (problema : ProblemaBacktracking) (n : Z) :=
  {| intervalos := intervalos problema; pontos := pontos problema;
     solucao_atual := solucao_atual problema;
     n_solucao_atual := n_solucao_atual problema;
     melhor_solucao := melhor_solucao problema;
     n_melhor_solucao := n_melhor_solucao problema;
     nos_visitados := n |}.

Definition com_solucao_atual (problema : ProblemaBacktracking)
    (sol : list Intervalo) (n : Z) :=
  {| intervalos := intervalos problema; pontos := pontos problema;
     solucao_atual := sol;
     n_solucao_atual := n;
     melhor_solucao := melhor_solucao problema;
     n_melhor_solucao := n_melhor_solucao problema;
     nos_visitados := nos_visitados problema |}.

Fixpoint backtracking_recursivo (fuel : nat) (problema : ProblemaBacktracking)
    (indice_intervalo : Z) : resultado ProblemaBacktracking :=
  match fuel with
  | O => SemCombustivel
  | S fuel' =>
      let problema := com_nos_visitados problema (int_add (nos_visitados problema) 1) in
      if indice_intervalo >=? n_intervalos problema then Feito problema
      else if n_solucao_atual problema >=? n_melhor_solucao problema then Feito problema
      else
        let pode_podar :=
          int_add (n_solucao_atual problema) 1 >=? n_melhor_solucao problema in
        seja problema <-
          (if pode_podar then Feito problema
           else
             seja intervalo <- ler (intervalos problema) indice_intervalo em
             seja sol <- escrever (solucao_atual problema)
                           (n_solucao_atual problema) intervalo em
             let problema :=
               com_solucao_atual problema sol (int_add (n_solucao_atual problema) 1) in
             seja problema <-
               (if verificar_cobertura_parcial problema then
                  if n_solucao_atual problema <? n_melhor_solucao problema
                  then Feito (copiar_solucao problema)
                  else Feito problema
                else
                  backtracking_recursivo fuel' problema (int_add indice_intervalo 1)) em
             Feito (com_solucao_atual problema (solucao_atual problema)
                      (int_sub (n_solucao_atual problema) 1))) em
        backtracking_recursivo fuel' problema (int_add indice_intervalo 1)
  end.

(** The state [resolver_backtracking] sets up before the search: a new
    [solucao_atual], and the two counters at zero.  [melhor_solucao] and
    [n_melhor_solucao] are left as they are. *)
Definition preparar (problema : ProblemaBacktracking) : ProblemaBacktracking :=
  {| intervalos := intervalos problema; pontos := pontos problema;
     solucao_atual := replicate (length (intervalos problema)) intervalo_nulo;
     n_solucao_atual := 0;
     melhor_solucao := melhor_solucao problema;
     n_melhor_solucao := n_melhor_solucao problema;
     nos_visitados := 0 |}.

Definition resolver_backtracking (problema : ProblemaBacktracking)
    : resultado (ProblemaBacktracking * MetricasBacktracking) :=
  seja problema' <-
    backtracking_recursivo (S (length (intervalos problema))) (preparar problema) 0 em
  Feito (problema',
         {| m_qualidade :=
              qualidade (n_melhor_solucao problema') (n_intervalos problema');
            m_n_solucao := n_melhor_solucao problema';
            m_nos_visitados := nos_visitados problema' |}).

(** The cover the solver hands back: [None] while [n_melhor_solucao] is
    the sentinel (the branch of [exibir_solucao_backtracking] that prints
    no interval), else the first [n_melhor_solucao] entries of
    [melhor_solucao]. *)
Definition melhor (problema : ProblemaBacktracking) : list Intervalo :=
  match melhor_solucao problema with
  | None => []
  | Some b => take (Z.to_nat (n_melhor_solucao problema)) b
  end.

Definition cobertura (problema : ProblemaBacktracking) : option (list Intervalo) :=
  if n_melhor_solucao problema =? INT_MAX then None else Some (melhor problema).

(** *** The vocabulary of the properties of the search *)

Implicit Types (p : ProblemaBacktracking).

(** What holds of the state at every call of the search that
    [resolver_backtracking] gives rise to. *)
Record inv p (idx : Z) : Prop := {
  inv_buf : length (solucao_atual p) = length (intervalos p);
  inv_cur : 0 ≤ n_solucao_atual p ≤ idx;
  inv_n : n_intervalos p < INT_MAX;
  inv_pts : n_pontos p ≤ INT_MAX;
  inv_melhor : ∀ b, melhor_solucao p = Some b → length b = length (intervalos p)
}.

(** What a call leaves behind, when the tails it may add to the partial
    solution are those of [C]: the instance and the partial solution are
    as before; the best solution is either untouched or replaced by a
    smaller complete cover made of the partial solution and a tail of [C];
    and no tail of [C] completes the partial solution to a cover smaller
    than the best one. *)
Record pos (C : list Intervalo → Prop) p p' : Prop := {
  pos_ivs : intervalos p' = intervalos p;
  pos_pts : pontos p' = pontos p;
  pos_cur : n_solucao_atual p' = n_solucao_atual p;
  pos_len : length (solucao_atual p') = length (solucao_atual p);
  pos_parcial : parcial p' = parcial p;
  pos_melhor_len :
    ∀ b, melhor_solucao p' = Some b → length b = length (intervalos p);
  pos_best :
    (n_melhor_solucao p' = n_melhor_solucao p
     ∧ melhor_solucao p' = melhor_solucao p)
    ∨ (n_melhor_solucao p' < n_melhor_solucao p
       ∧ ∃ T, C T ∧ melhor p' = parcial p ++ T
            ∧ n_melhor_solucao p' = n_solucao_atual p + Z.of_nat (length T)
            ∧ cobertura_completa (pontos p) (melhor p'));
  pos_compl :
    ¬ cobertura_completa (pontos p) (parcial p) →
    ∀ T, C T → cobertura_completa (pontos p) (parcial p ++ T) →
      n_melhor_solucao p' ≤ n_solucao_atual p + Z.of_nat (length T)
}.

(** The tails open to a call at index [idx]: the sub-sequences of
    [intervalos[idx ..]]. *)
Definition caudas p (idx : Z) (T : list Intervalo) : Prop :=
  T `sublist_of` drop (Z.to_nat idx) (intervalos p).

(** A problem [resolver_backtracking] can be run on: the counts are C
    [int]s, the number of intervals is below the sentinel, and a best
    solution buffer, if there is one, has the size [copiar_solucao] gives
    it. *)
Record bem_formado p : Prop := {
  bf_n : n_intervalos p < INT_MAX;
  bf_pts : n_pontos p ≤ INT_MAX;
  bf_melhor : ∀ b, melhor_solucao p = Some b → length b = length (intervalos p)
}.

End Backtracking.

(** ** The scenario of the specification *)

(** The ten intervals of the small scenario in the order of
    [comparar_intervalos_backtracking]. *)
Definition intervalos_pequeno_backtracking : list Intervalo :=
  ivs [(25, 42); (20, 35); (30, 45); (8, 22); (12, 26); (18, 32);
       (5, 18); (15, 28); (0, 12); (3, 15)].

(** The same ten intervals in the order of [comparar_intervalos]. *)
Definition intervalos_pequeno_guloso : list Intervalo :=
  ivs [(0, 12); (3, 15); (5, 18); (8, 22); (12, 26); (15, 28);
       (18, 32); (20, 35); (25, 42); (30, 45)].


(** A state of the search on the small scenario: two intervals included,
    the third one under consideration. *)
Definition estado_de_busca : Backtracking.ProblemaBacktracking :=
  {| Backtracking.intervalos := intervalos_pequeno_backtracking;
     Backtracking.pontos := pontos_pequeno;
     Backtracking.solucao_atual :=
       ivs [(25, 42); (20, 35); (0, 0); (0, 0); (0, 0);
            (0, 0); (0, 0); (0, 0); (0, 0); (0, 0)];
     Backtracking.n_solucao_atual := 2;
     Backtracking.melhor_solucao := None;
     Backtracking.n_melhor_solucao := INT_MAX;
     Backtracking.nos_visitados := 3 |}.

(** The instance on which a second solve of the same problem counts
    fewer nodes than the first; the intervals are in the order of
    [comparar_intervalos_backtracking]. *)
Definition pontos_dois : list Ponto := pts [100; 110].
Definition intervalos_tres : list Intervalo := ivs [(108, 300); (0, 105); (100, 110)].

(** The exact solver run twice in a row on one problem yields the same
    cover and the same node count. *)
Definition repetivel (ivs : list Intervalo) (pts : list Ponto) : Prop :=
  ∀ p1 m1 p2 m2,
    Backtracking.resolver_backtracking
      (Backtracking.instancia ivs pts) = Feito (p1, m1) →
    Backtracking.resolver_backtracking p1 = Feito (p2, m2) →
    Backtracking.cobertura p2 = Backtracking.cobertura p1
    ∧ Backtracking.m_nos_visitados m2 = Backtracking.m_nos_visitados m1.

(** The quality ratio each solver reports is the ratio itself; for the
    exact solver, where it has found a cover. *)
Definition qualidade_exata (ivs_b ivs_g : list Intervalo) (pts : list Ponto) : Prop :=
  (∀ g' n,
     Guloso.resolver_guloso (Guloso.instancia ivs_g pts) = Feito (g', n) →
     razao_exata (Guloso.m_qualidade n) (Guloso.m_n_solucao n)
       (Z.of_nat (length ivs_g)))
  ∧ (∀ p' m,
       Backtracking.resolver_backtracking (Backtracking.instancia ivs_b pts)
       = Feito (p', m) →
       Backtracking.m_n_solucao m ≠ INT_MAX →
       razao_exata (Backtracking.m_qualidade m) (Backtracking.m_n_solucao m)
         (Z.of_nat (length ivs_b))).

(** The test of [razao_proxima] on what [qualidade] computes. *)
Definition proxima (n_solucao n_intervalos : Z) : bool :=
  match valor (qualidade n_solucao n_intervalos) with
  | Some v => Qle_bool (Qabs (v - razao n_solucao n_intervalos)) (1 # 9007199254740992)
  | None => false
  end.

(** ** The points in order, and the arrays [qsort] leaves *)

(** [comparar_pontos] and [comparar_pontos_backtracking]: the two files
    hold the same body. *)
Definition comparar_pontos (a b : Ponto) : Z :=
  if posicao a <? posicao b then -1
  else if posicao a >? posicao b then 1
  else 0.

Definition comparar_pontos_backtracking := comparar_pontos.

(** An array in the order of the comparator [cmp]: no entry compares
    greater than a later one. *)
Fixpoint ordenado {A} (cmp : A → A → Z) (l : list A) : Prop :=
  match l with
  | [] => True
  | x :: l' => Forall (λ y, cmp x y ≤ 0) l' ∧ ordenado cmp l'
  end.

(** The values of a C [int], and the intervals whose two ends are
    such values. *)
Definition valor_int (z : Z) : Prop := INT_MIN ≤ z ≤ INT_MAX.
Definition intervalo_int (iv : Intervalo) : Prop :=
  valor_int (inicio iv) ∧ valor_int (fim iv).

(** The number of calls in the full tree of [k] decisions to include or
    to leave out an interval. *)
Definition nos_arvore (k : Z) : Z := 2 ^ (Z.max 0 k + 1) - 1.

(** ** The random scenarios *)

(** The first version of [src/coberturaGuloso.c] and the last one of the
    exact program draw their scenarios with [rand].  The generator of the
    C library is a state: the seed [srand] was given and the number of
    draws made since.  Which value follows is the library's affair, and
    so is the order in which [qsort] leaves entries that compare equal:
    the programs are modelled over any [sequencia] and any
    [ordenar_pontos]. *)
Module Aleatorio.

Record Gerador : Type := { semente : Z; sorteios : nat }.

(** What the library promises of [rand]: a value from 0 to [RAND_MAX],
    an [int]. *)
Definition rand_valido (sequencia : Z → nat → Z) : Prop :=
  ∀ s k, 0 ≤ sequencia s k ≤ INT_MAX.

(** What it promises of [qsort]: the same entries, in the order of the
    comparator. *)
Definition qsort_valido {A} (cmp : A → A → Z) (ordenar : list A → list A) : Prop :=
  ∀ l, ordenar l ≡ₚ l ∧ ordenado cmp (ordenar l).

(** [a % b] on [int]s: undefined with a zero divisor, and for
    [INT_MIN % -1]. *)
Definition resto (a b : Z) : resultado Z :=
  if (b =? 0) || ((a =? INT_MIN) && (b =? -1)) then Falha
  else Feito (Z.rem a b).

(** The generator after [k] more draws. *)
Definition avancar (g : Gerador) (k : nat) : Gerador :=
  {| semente := semente g; sorteios := sorteios g + k |}.

Section Biblioteca.

Variable sequencia : Z → nat → Z.
Variable ordenar_pontos : list Ponto → list Ponto.

Definition srand (s : Z) : Gerador := {| semente := s; sorteios := 0 |}.

Definition rand (g : Gerador) : Z * Gerador :=
  (sequencia (semente g) (sorteios g),
   {| semente := semente g; sorteios := S (sorteios g) |}).

(** The loop of [carregar_pontos_aleatorios], [k] turns from index [i]. *)
Fixpoint sortear_pontos (k : nat) (i : Z) (min_pos max_pos : Z) (g : Gerador)
    : resultado (list Ponto * Gerador) :=
  match k with
  | O => Feito ([], g)
  | S k' =>
      let '(r, g) := rand g in
      seja m <- resto r (int_add (int_sub max_pos min_pos) 1) em
      let ponto := {| id := int_add i 1; posicao := int_add min_pos m |} in
      seja par <- sortear_pontos k' (i + 1) min_pos max_pos g em
      let '(l, g) := par in
      Feito (ponto :: l, g)
  end.

(** The loop of [carregar_intervalos_aleatorios]. *)
Fixpoint sortear_intervalos (k : nat) (min_tamanho max_tamanho max_pos : Z)
    (g : Gerador) : resultado (list Intervalo * Gerador) :=
  match k with
  | O => Feito ([], g)
  | S k' =>
      let '(r, g) := rand g in
      seja m <- resto r (int_add (int_sub max_tamanho min_tamanho) 1) em
      let tamanho := int_add min_tamanho m in
      let '(r, g) := rand g in
      seja inicio <- resto r (int_add (int_sub max_pos tamanho) 1) em
      let intervalo := {| inicio := inicio; fim := int_add inicio tamanho |} in
      seja par <- sortear_intervalos k' min_tamanho max_tamanho max_pos g em
      let '(l, g) := par in
      Feito (intervalo :: l, g)
  end.

(** *** The greedy program *)

(** With a negative count [qsort] is handed that count as a [size_t]:
    [Falha]. *)
Definition carregar_pontos_aleatorios (problema : Guloso.Problema)
    (n_pontos min_pos max_pos : Z) (g : Gerador)
    : resultado (Guloso.Problema * Gerador) :=
  if n_pontos <? 0 then Falha
  else
    seja par <- sortear_pontos (Z.to_nat n_pontos) 0 min_pos max_pos g em
    let '(l, g) := par in
    Feito (Guloso.com_instancia problema
             (Guloso.intervalos problema) (ordenar_pontos l), g).

Definition carregar_intervalos_aleatorios (problema : Guloso.Problema)
    (n_intervalos min_tamanho max_tamanho max_pos : Z) (g : Gerador)
    : resultado (Guloso.Problema * Gerador) :=
  if n_intervalos <? 0 then Falha
  else
    seja par <- sortear_intervalos (Z.to_nat n_intervalos)
                      min_tamanho max_tamanho max_pos g em
    let '(l, g) := par in
    Feito (Guloso.com_instancia problema
             (qsort Guloso.comparar_intervalos l) (Guloso.pontos problema), g).

Definition configurar_cenario_pequeno (problema : Guloso.Problema)
    : resultado (Guloso.Problema * Gerador) :=
  let g := srand 42 in
  seja par <- carregar_pontos_aleatorios problema 8 0 50 g em
  let '(problema, g) := par in
  carregar_intervalos_aleatorios problema 6 5 20 50 g.

Definition configurar_cenario_medio (problema : Guloso.Problema)
    : resultado (Guloso.Problema * Gerador) :=
  let g := srand 43 in
  seja par <- carregar_pontos_aleatorios problema 12 0 100 g em
  let '(problema, g) := par in
  carregar_intervalos_aleatorios problema 10 10 30 100 g.

Definition configurar_cenario_grande (problema : Guloso.Problema)
    : resultado (Guloso.Problema * Gerador) :=
  let g := srand 44 in
  seja par <- carregar_pontos_aleatorios problema 15 0 150 g em
  let '(problema, g) := par in
  carregar_intervalos_aleatorios problema 12 15 40 150 g.

(** *** The exact program *)

Definition carregar_pontos_aleatorios_backtracking
    (problema : Backtracking.ProblemaBacktracking)
    (n_pontos min_pos max_pos : Z) (g : Gerador)
    : resultado (Backtracking.ProblemaBacktracking * Gerador) :=
  if n_pontos <? 0 then Falha
  else
    seja par <- sortear_pontos (Z.to_nat n_pontos) 0 min_pos max_pos g em
    let '(l, g) := par in
    Feito (Backtracking.com_instancia problema
             (Backtracking.intervalos problema) (ordenar_pontos l), g).

Definition carregar_intervalos_aleatorios_backtracking
    (problema : Backtracking.ProblemaBacktracking)
    (n_intervalos min_tamanho max_tamanho max_pos : Z) (g : Gerador)
    : resultado (Backtracking.ProblemaBacktracking * Gerador) :=
  if n_intervalos <? 0 then Falha
  else
    seja par <- sortear_intervalos (Z.to_nat n_intervalos)
                      min_tamanho max_tamanho max_pos g em
    let '(l, g) := par in
    Feito (Backtracking.com_instancia problema
             (qsort Backtracking.comparar_intervalos_backtracking l)
             (Backtracking.pontos problema), g).

Definition configurar_cenario_pequeno_backtracking
    (problema : Backtracking.ProblemaBacktracking)
    : resultado (Backtracking.ProblemaBacktracking * Gerador) :=
  let g := srand 42 in
  seja par <- carregar_pontos_aleatorios_backtracking problema 8 0 50 g em
  let '(problema, g) := par in
  carregar_intervalos_aleatorios_backtracking problema 6 5 20 50 g.

Definition configurar_cenario_medio_backtracking
    (problema : Backtracking.ProblemaBacktracking)
    : resultado (Backtracking.ProblemaBacktracking * Gerador) :=
  let g := srand 43 in
  seja par <- carregar_pontos_aleatorios_backtracking problema 12 0 100 g em
  let '(problema, g) := par in
  carregar_intervalos_aleatorios_backtracking problema 10 10 30 100 g.

Definition configurar_cenario_grande_backtracking
    (problema : Backtracking.ProblemaBacktracking)
    : resultado (Backtracking.ProblemaBacktracking * Gerador) :=
  let g := srand 44 in
  seja par <- carregar_pontos_aleatorios_backtracking problema 15 0 150 g em
  let '(problema, g) := par in
  carregar_intervalos_aleatorios_backtracking problema 12 15 40 150 g.

End Biblioteca.

(** A scenario function of the greedy program and the one of the exact
    program, run on a new problem each, build one instance: the same
    points and, up to their order, the same intervals, with
    [0 <= inicio <= fim]; and each solver returns on its instance. *)
Definition cenario_comum
    (configurar : Guloso.Problema → resultado (Guloso.Problema * Gerador))
    (configurar_backtracking :
       Backtracking.ProblemaBacktracking
       → resultado (Backtracking.ProblemaBacktracking * Gerador))
    (n_pontos n_intervalos : Z) : Prop :=
  ∃ pg pb g,
    configurar Guloso.inicializar_problema = Feito (pg, g)
    ∧ configurar_backtracking Backtracking.inicializar_problema_backtracking
      = Feito (pb, g)
    ∧ Guloso.n_pontos pg = n_pontos ∧ Guloso.n_intervalos pg = n_intervalos
    ∧ Backtracking.pontos pb = Guloso.pontos pg
    ∧ Backtracking.intervalos pb ≡ₚ Guloso.intervalos pg
    ∧ (∀ iv, iv ∈ Guloso.intervalos pg → 0 ≤ inicio iv ≤ fim iv)
    ∧ (∃ pg' mg, Guloso.resolver_guloso pg = Feito (pg', mg))
    ∧ (∃ pb' mb, Backtracking.resolver_backtracking pb = Feito (pb', mb)).

(** A generator and a sort to run the scenarios with. *)
Definition sequencia_exemplo (s : Z) (k : nat) : Z :=
  (s * 7919 + Z.of_nat k * 104729) mod 32768.

End Aleatorio.

(** ** What the programs print of a solution *)

(** The output of a function is the list of the texts of its [printf]
    calls, in order.  [%d] prints an [int] in decimal. *)
Module Exibir.

Definition decimal (z : Z) : string :=
  DecimalString.NilZero.string_of_int (Z.to_int z).

Definition nl : string := String (Ascii.ascii_of_nat 10) EmptyString.

(** [printf("  Intervalo %d: [%d, %d]\n", i + 1, a[i].inicio, a[i].fim)] *)
Definition linha_intervalo (i : nat) (intervalo : Intervalo) : string :=
  "  Intervalo " +:+ decimal (Z.of_nat i + 1) +:+ ": ["
  +:+ decimal (inicio intervalo) +:+ ", " +:+ decimal (fim intervalo) +:+ "]" +:+ nl.

(** [printf("  Ponto %d: %d\n", pontos[i].id, pontos[i].posicao)] *)
Definition linha_ponto (ponto : Ponto) : string :=
  "  Ponto " +:+ decimal (id ponto) +:+ ": " +:+ decimal (posicao ponto) +:+ nl.

(** [printf("\nPontos cobertos (%d de %d):\n", cobertos, n_pontos)] *)
Definition linha_cobertos (cobertos n_pontos : Z) : string :=
  nl +:+ "Pontos cobertos (" +:+ decimal cobertos +:+ " de " +:+ decimal n_pontos
  +:+ "):" +:+ nl.

(** The entries [a[0]], ..., [a[n - 1]] that a loop [for (i = 0; i < n; i++)]
    reads: none for [n <= 0]; a fault through [NULL] or past the end. *)
Definition ler_ate {A} (a : option (list A)) (n : Z) : resultado (list A) :=
  if n <=? 0 then Feito []
  else match a with
       | None => Falha
       | Some b => if n <=? Z.of_nat (length b) then Feito (take (Z.to_nat n) b)
                   else Falha
       end.

(** The loop [for (i = 0; i < n_pontos; i++) if (marcas[i]) printf(...)]. *)
Fixpoint linhas_pontos (pontos : list Ponto) (marcas : list bool) : list string :=
  match pontos, marcas with
  | ponto :: pontos', c :: marcas' =>
      if c then linha_ponto ponto :: linhas_pontos pontos' marcas'
      else linhas_pontos pontos' marcas'
  | _, _ => []
  end.

Definition exibir_solucao (problema : Guloso.Problema) : resultado (list string) :=
  seja sel <- ler_ate (Some (Guloso.solucao problema)) (Guloso.n_solucao problema) em
  seja marcas <- ler_ate (Some (Guloso.pontos_cobertos problema))
                   (Guloso.n_pontos problema) em
  Feito (["Solucao encontrada (" +:+ decimal (Guloso.n_solucao problema)
          +:+ " intervalos):" +:+ nl]
         ++ imap linha_intervalo sel
         ++ [linha_cobertos (Guloso.n_pontos_cobertos problema)
               (Guloso.n_pontos problema)]
         ++ linhas_pontos (Guloso.pontos problema) marcas).

(** The first [printf] of [exibir_solucao_backtracking]. *)
Definition linha_melhor (n_melhor_solucao : Z) : string :=
  "Melhor solucao encontrada (" +:+ decimal n_melhor_solucao +:+ " intervalos):" +:+ nl.

Definition linha_nenhuma : string := "  Nenhuma solucao completa encontrada!" +:+ nl.

(** The marks and the count are those of the loops of
    [verificar_cobertura_parcial], run here over [melhor_solucao]. *)
Definition exibir_solucao_backtracking (problema : Backtracking.ProblemaBacktracking)
    : resultado (list string) :=
  let n := Backtracking.n_melhor_solucao problema in
  if n =? INT_MAX then Feito [linha_melhor n; linha_nenhuma]
  else
    seja sel <- ler_ate (Backtracking.melhor_solucao problema) n em
    let '(marcas, total_cobertos) :=
      Backtracking.verificar_laco (Backtracking.pontos problema) sel
        (replicate (length (Backtracking.pontos problema)) false) 0 in
    Feito ([linha_melhor n]
           ++ imap linha_intervalo sel
           ++ [linha_cobertos total_cobertos (Backtracking.n_pontos problema)]
           ++ linhas_pontos (Backtracking.pontos problema) marcas).

End Exibir.

(** ** The buffers of the greedy program as memory *)

(** Elsewhere [malloc] and [calloc] are taken to succeed and a buffer is
    the list of its entries.  Here the four pointers of the [Problema]
    are pointers, and the two allocations of [resolver_guloso] may
    fail. *)
Module Memoria.

Inductive ponteiro (A : Type) : Type :=
| Nulo                        (* [NULL] *)
| Bloco (conteudo : list A)   (* the address of a live block *)
| Solto.                      (* the address of a block that was freed *)
Arguments Nulo {A}.
Arguments Bloco {A} conteudo.
Arguments Solto {A}.

Record Problema : Type := {
  intervalos : ponteiro Intervalo;
  n_intervalos : Z;
  pontos : ponteiro Ponto;
  n_pontos : Z;
  pontos_cobertos : ponteiro bool;
  n_pontos_cobertos : Z;
  solucao : ponteiro Intervalo;
  n_solucao : Z
}.

Definition inicializar_problema : Problema :=
  {| intervalos := Nulo; n_intervalos := 0; pontos := Nulo; n_pontos := 0;
     pontos_cobertos := Nulo; n_pontos_cobertos := 0;
     solucao := Nulo; n_solucao := 0 |}.

(** [free(q)]: nothing for [NULL]; undefined for a block freed before. *)
Definition free {A} (q : ponteiro A) : resultado unit :=
  match q with
  | Solto => Falha
  | _ => Feito tt
  end.

(** [if (q != NULL) { free(q); q = NULL; }] *)
Definition liberar {A} (q : ponteiro A) : resultado (ponteiro A) :=
  match q with
  | Nulo => Feito Nulo
  | _ => seja _ <- free q em Feito Nulo
  end.

Definition liberar_problema (problema : Problema) : resultado Problema :=
  seja a <- liberar (intervalos problema) em
  seja b <- liberar (pontos problema) em
  seja c <- liberar (pontos_cobertos problema) em
  seja d <- liberar (solucao problema) em
  Feito {| intervalos := a; n_intervalos := n_intervalos problema;
           pontos := b; n_pontos := n_pontos problema;
           pontos_cobertos := c; n_pontos_cobertos := n_pontos_cobertos problema;
           solucao := d; n_solucao := n_solucao problema |}.

(** What is behind a pointer that can be read through. *)
Definition vivo {A} (q : ponteiro A) : option (list A) :=
  match q with
  | Bloco b => Some b
  | _ => None
  end.

(** The entries [q[0]], ..., [q[n - 1]]. *)
Definition ler_ate {A} (q : ponteiro A) (n : Z) : resultado (list A) :=
  Exibir.ler_ate (vivo q) n.

(** [metricas] as [resolver_guloso] sets it up at its start. *)
Definition metricas_zeradas : Guloso.Metricas :=
  {| Guloso.m_qualidade := PrimFloat.zero; Guloso.m_n_solucao := 0 |}.

(** [resolver_guloso], with the outcome of its [calloc] and of its
    [malloc] given.  When the [malloc] fails the block of
    [pontos_cobertos] is freed and the field keeps its address.  When
    both succeed the loop is the one of [Guloso.resolver_guloso], over
    the [n_intervalos] entries of [intervalos] and the [n_pontos] entries
    of [pontos], which the arrays are taken to hold. *)
Definition resolver_guloso (calloc_ok malloc_ok : bool) (problema : Problema)
    : resultado (Problema * Guloso.Metricas) :=
  if negb calloc_ok then
    Feito ({| intervalos := intervalos problema; n_intervalos := n_intervalos problema;
              pontos := pontos problema; n_pontos := n_pontos problema;
              pontos_cobertos := Nulo;
              n_pontos_cobertos := n_pontos_cobertos problema;
              solucao := solucao problema; n_solucao := n_solucao problema |},
           metricas_zeradas)
  else if negb malloc_ok then
    Feito ({| intervalos := intervalos problema; n_intervalos := n_intervalos problema;
              pontos := pontos problema; n_pontos := n_pontos problema;
              pontos_cobertos := Solto; n_pontos_cobertos := 0;
              solucao := Nulo; n_solucao := n_solucao problema |},
           metricas_zeradas)
  else
    seja ivs <- ler_ate (intervalos problema) (n_intervalos problema) em
    seja pts <- ler_ate (pontos problema) (n_pontos problema) em
    seja par <- Guloso.resolver_guloso (Guloso.instancia ivs pts) em
    let '(g, metricas) := par in
    Feito ({| intervalos := intervalos problema; n_intervalos := n_intervalos problema;
              pontos := pontos problema; n_pontos := n_pontos problema;
              pontos_cobertos := Bloco (Guloso.pontos_cobertos g);
              n_pontos_cobertos := Guloso.n_pontos_cobertos g;
              solucao := Bloco (Guloso.solucao g);
              n_solucao := Guloso.n_solucao g |},
           metricas).

(** The second loop of [exibir_solucao] from index [i] on: [pontos[i]]
    is read where the mark is set. *)
Fixpoint linhas_pontos (pontos : ponteiro Ponto) (i : nat) (marcas : list bool)
    : resultado (list string) :=
  match marcas with
  | [] => Feito []
  | c :: marcas' =>
      if c then
        match vivo pontos ≫= (.!! i) with
        | Some ponto =>
            seja linhas <- linhas_pontos pontos (S i) marcas' em
            Feito (Exibir.linha_ponto ponto :: linhas)
        | None => Falha
        end
      else linhas_pontos pontos (S i) marcas'
  end.

Definition exibir_solucao (problema : Problema) : resultado (list string) :=
  seja sel <- ler_ate (solucao problema) (n_solucao problema) em
  seja marcas <- ler_ate (pontos_cobertos problema) (n_pontos problema) em
  seja linhas <- linhas_pontos (pontos problema) 0 marcas em
  Feito (["Solucao encontrada (" +:+ Exibir.decimal (n_solucao problema)
          +:+ " intervalos):" +:+ Exibir.nl]
         ++ imap Exibir.linha_intervalo sel
         ++ [Exibir.linha_cobertos (n_pontos_cobertos problema) (n_pontos problema)]
         ++ linhas).

(** A problem as [main] hands it to [executar_teste]: initialised, then
    given its points and its intervals. *)
Definition instancia (ivs : list Intervalo) (pts : list Ponto) : Problema :=
  {| intervalos := Bloco ivs; n_intervalos := Z.of_nat (length ivs);
     pontos := Bloco pts; n_pontos := Z.of_nat (length pts);
     pontos_cobertos := Nulo; n_pontos_cobertos := 0;
     solucao := Nulo; n_solucao := 0 |}.

End Memoria.

(** * Properties *)

(** ** C integers *)

Lemma wrap_int_id z : INT_MIN ≤ z ≤ INT_MAX → wrap_int z = z.
Proof.
  unfold wrap_int, INT_MIN, INT_MAX. intros Hz.
  rewrite Z.mod_small; lia.
Qed.

Lemma wrap_int_range z : INT_MIN ≤ wrap_int z ≤ INT_MAX.
Proof.
  unfold wrap_int, INT_MIN, INT_MAX.
  pose proof (Z.mod_pos_bound (z + 2147483648) 4294967296). lia.
Qed.

Lemma int_add_1 z : INT_MIN ≤ z < INT_MAX → int_add z 1 = z + 1.
Proof. intros Hz. apply wrap_int_id. unfold INT_MIN, INT_MAX in *. lia. Qed.

Lemma int_sub_add_1 z : INT_MIN ≤ z ≤ INT_MAX → int_sub (int_add z 1) 1 = z.
Proof.
  unfold int_sub, int_add, wrap_int, INT_MIN, INT_MAX. intros Hz.
  destruct (Z.eq_dec z 2147483647) as [->|Hne]; [reflexivity|].
  rewrite (Z.mod_small (z + 1 + 2147483648)) by lia.
  rewrite Z.mod_small; lia.
Qed.

(** ** Sequencing *)

(** A sequence returns as soon as its first part returns and what
    follows returns from whatever the first part yields. *)
Lemma ligar_feito {A B} (r : resultado A) (k : A → resultado B)
    (P : A → Prop) (Q : B → Prop) :
  (∃ a, r = Feito a ∧ P a) →
  (∀ a, P a → ∃ b, k a = Feito b ∧ Q b) →
  ∃ b, ligar r k = Feito b ∧ Q b.
Proof. intros (a & -> & Ha) Hk. simpl. by apply Hk. Qed.

Lemma ligar_feito_inv {A B} (r : resultado A) (k : A → resultado B) b :
  ligar r k = Feito b → ∃ a, r = Feito a ∧ k a = Feito b.
Proof. destruct r as [a| |]; simpl; [eauto | discriminate | discriminate]. Qed.

(** ** The coverage loops *)

Section Cobertura.

Implicit Types (pontos : list Ponto) (sel : list Intervalo) (mask : list bool).

Lemma ponto_coberto_iff ponto intervalo :
  ponto_coberto_por_intervalo ponto intervalo = true
  ↔ inicio intervalo ≤ posicao ponto ≤ fim intervalo.
Proof.
  unfold ponto_coberto_por_intervalo.
  destruct (posicao ponto >=? inicio intervalo) eqn:Ha;
    destruct (posicao ponto <=? fim intervalo) eqn:Hb; simpl; split;
    try discriminate; try reflexivity; lia.
Qed.

Lemma coberto_por_app sel1 sel2 ponto :
  coberto_por (sel1 ++ sel2) ponto = coberto_por sel1 ponto || coberto_por sel2 ponto.
Proof. unfold coberto_por. apply existsb_app. Qed.

Lemma coberto_por_true sel ponto :
  coberto_por sel ponto = true
  ↔ ∃ iv, iv ∈ sel ∧ ponto_coberto_por_intervalo ponto iv = true.
Proof.
  unfold coberto_por. rewrite existsb_exists.
  split; intros (iv & Hin & Hc); exists iv; split; auto;
    by apply list_elem_of_In.
Qed.

Lemma coberto_por_false sel ponto :
  coberto_por sel ponto = false
  ↔ ∀ iv, iv ∈ sel → ponto_coberto_por_intervalo ponto iv = false.
Proof.
  split.
  - intros Hf iv Hin. destruct (ponto_coberto_por_intervalo ponto iv) eqn:Hc; [|done].
    assert (coberto_por sel ponto = true) by (apply coberto_por_true; eauto).
    congruence.
  - intros Hall. destruct (coberto_por sel ponto) eqn:Hc; [|done].
    apply coberto_por_true in Hc as (iv & Hin & Hc).
    rewrite (Hall iv Hin) in Hc. discriminate.
Qed.

Lemma coberto_por_mono sel1 sel2 ponto :
  (∀ iv, iv ∈ sel1 → iv ∈ sel2) →
  coberto_por sel1 ponto = true → coberto_por sel2 ponto = true.
Proof.
  intros Hsub. rewrite !coberto_por_true. intros (iv & Hin & Hc). eauto.
Qed.

Lemma cobertura_completa_mono pontos sel1 sel2 :
  (∀ iv, iv ∈ sel1 → iv ∈ sel2) →
  cobertura_completa pontos sel1 → cobertura_completa pontos sel2.
Proof. intros Hsub Hc ponto Hin. eapply coberto_por_mono; eauto. Qed.

Lemma cobertura_completab_iff pontos sel :
  cobertura_completab pontos sel = true ↔ cobertura_completa pontos sel.
Proof.
  unfold cobertura_completab, cobertura_completa. rewrite forallb_forall.
  split; intros H ponto Hin; apply H; by apply list_elem_of_In.
Qed.

Lemma contar_bounds mask : 0 ≤ contar mask ≤ Z.of_nat (length mask).
Proof. induction mask as [|[] mask IH]; simpl; lia. Qed.

Lemma contar_completo mask :
  contar mask = Z.of_nat (length mask) ↔ ∀ c, c ∈ mask → c = true.
Proof.
  induction mask as [|c mask IH]; simpl.
  - split; [intros _ c Hc; by apply elem_of_nil in Hc | done].
  - pose proof (contar_bounds mask). split.
    + intros Heq c' Hin. destruct c; [|lia].
      apply elem_of_cons in Hin as [->|Hin]; [done|].
      apply IH; [lia | done].
    + intros Hall. rewrite (Hall c) by apply elem_of_cons, or_introl, eq_refl.
      assert (contar mask = Z.of_nat (length mask)) as ->; [|lia].
      apply IH. intros c' Hin. apply Hall. by apply elem_of_cons, or_intror.
Qed.

Lemma mascara_length pontos sel : length (mascara pontos sel) = length pontos.
Proof. apply length_map. Qed.

Lemma mascara_nil pontos : mascara pontos [] = replicate (length pontos) false.
Proof. induction pontos as [|p pontos IH]; simpl; [done | by rewrite IH]. Qed.

Lemma contar_mascara_nil pontos : contar (mascara pontos []) = 0.
Proof. induction pontos as [|p pontos IH]; simpl; [done | by rewrite IH]. Qed.

Lemma mascara_lookup pontos sel (j : nat) :
  mascara pontos sel !! j = coberto_por sel <$> pontos !! j.
Proof. apply list_lookup_fmap. Qed.

Lemma contar_mascara_completa pontos sel :
  contar (mascara pontos sel) = Z.of_nat (length pontos)
  ↔ cobertura_completa pontos sel.
Proof.
  rewrite <- (mascara_length pontos sel), contar_completo.
  unfold mascara, cobertura_completa. split.
  - intros H ponto Hin. apply H. apply list_elem_of_fmap. eauto.
  - intros H c Hin. apply list_elem_of_fmap in Hin as (ponto & -> & Hin). eauto.
Qed.

Lemma contar_mascara_mono pontos sel iv :
  contar (mascara pontos sel) ≤ contar (mascara pontos (sel ++ [iv])).
Proof.
  unfold mascara. induction pontos as [|p pontos IH]; simpl; [lia|].
  rewrite coberto_por_app. destruct (coberto_por sel p); simpl; [lia|].
  destruct (ponto_coberto_por_intervalo p iv); simpl; lia.
Qed.

(** One run of the marking loop from the mask of [sel] yields the mask of
    [sel ++ [intervalo]], with the counter in step. *)
Lemma marcar_laco_mascara intervalo sel pontos n :
  0 ≤ n →
  n + Z.of_nat (length pontos) - contar (mascara pontos sel) ≤ INT_MAX →
  marcar_laco intervalo pontos (mascara pontos sel) n
  = (mascara pontos (sel ++ [intervalo]),
     n + contar (mascara pontos (sel ++ [intervalo])) - contar (mascara pontos sel)).
Proof.
  unfold mascara.
  revert n. induction pontos as [|p pontos IH]; intros n Hn Hmax; simpl.
  - f_equal. lia.
  - pose proof (contar_bounds (mascara pontos sel)) as Hb.
    rewrite mascara_length in Hb.
    rewrite coberto_por_app. unfold mascara in *. simpl in Hmax.
    assert (coberto_por [intervalo] p = ponto_coberto_por_intervalo p intervalo) as ->.
    { unfold coberto_por. simpl. apply orb_false_r. }
    destruct (coberto_por sel p) eqn:Hc; simpl.
    + rewrite IH by lia. f_equal; lia.
    + destruct (ponto_coberto_por_intervalo p intervalo) eqn:Hp; simpl.
      * rewrite int_add_1 by (unfold INT_MIN, INT_MAX in *; lia).
        rewrite IH by lia. f_equal; lia.
      * rewrite IH by lia. f_equal; lia.
Qed.

(** A store at the fill count of a buffer, followed by the increment of
    the count, appends to the filled part. *)
Lemma parcial_empilhar (sa : list Intervalo) (cur : Z) iv :
  0 ≤ cur → cur < Z.of_nat (length sa) →
  take (Z.to_nat (cur + 1)) (<[Z.to_nat cur := iv]> sa)
  = take (Z.to_nat cur) sa ++ [iv].
Proof.
  intros H0 Hlt. replace (Z.to_nat (cur + 1)) with (S (Z.to_nat cur)) by lia.
  erewrite take_S_r; [|apply list_lookup_insert_eq; lia].
  by rewrite take_insert_ge by lia.
Qed.

Lemma sem_pontos_sem_cobertura pontos :
  pontos ≠ [] → ¬ cobertura_completa pontos [].
Proof.
  destruct pontos as [|pt pontos]; [done|]. intros _ Hcob.
  specialize (Hcob pt (list_elem_of_here _ _)). discriminate.
Qed.

Lemma sublist_elem_of_l {A} (l k : list A) x : l `sublist_of` k → x ∈ l → x ∈ k.
Proof.
  intros Hs. induction Hs; intros Hin.
  - done.
  - apply elem_of_cons in Hin as [->|Hin]; [left | right; auto].
  - right; auto.
Qed.

(** A point that no interval of the pool holds leaves every selection
    from the pool incomplete. *)
Lemma ponto_fora_sem_cobertura pontos (pool sel : list Intervalo) pt :
  pt ∈ pontos →
  (∀ iv, iv ∈ pool → ponto_coberto_por_intervalo pt iv = false) →
  (∀ iv, iv ∈ sel → iv ∈ pool) →
  ¬ cobertura_completa pontos sel.
Proof.
  intros Hin Hfora Hsub Hcob.
  apply Hcob, coberto_por_true in Hin as (iv & Hiv & Hc).
  rewrite (Hfora iv (Hsub iv Hiv)) in Hc. discriminate.
Qed.

Lemma contar_mascara_estrito pontos sel iv pt :
  pt ∈ pontos → coberto_por sel pt = false →
  ponto_coberto_por_intervalo pt iv = true →
  contar (mascara pontos sel) < contar (mascara pontos (sel ++ [iv])).
Proof.
  intros Hin Hf Hc. induction pontos as [|q pontos IH]; [by apply elem_of_nil in Hin|].
  pose proof (contar_mascara_mono pontos sel iv) as Hmono.
  unfold mascara in *. simpl.
  apply elem_of_cons in Hin as [<-|Hin].
  - rewrite coberto_por_app, Hf. unfold coberto_por at 2. simpl. rewrite Hc. simpl. lia.
  - specialize (IH Hin). rewrite coberto_por_app.
    destruct (coberto_por sel q); simpl; [lia|].
    destruct (ponto_coberto_por_intervalo q iv); simpl; lia.
Qed.

End Cobertura.

(** ** The exact search *)

Module BT.
Import Backtracking.

Implicit Types (p : ProblemaBacktracking) (sel : list Intervalo).

Lemma verificar_laco_mascara pontos sel feitos :
  Z.of_nat (length pontos) ≤ INT_MAX →
  verificar_laco pontos sel (mascara pontos feitos) (contar (mascara pontos feitos))
  = (mascara pontos (feitos ++ sel), contar (mascara pontos (feitos ++ sel))).
Proof.
  intros Hmax. revert feitos.
  induction sel as [|iv sel IH]; intros feitos; simpl.
  - by rewrite app_nil_r.
  - pose proof (contar_bounds (mascara pontos feitos)) as Hb.
    rewrite marcar_laco_mascara by lia.
    replace (contar (mascara pontos feitos)
             + contar (mascara pontos (feitos ++ [iv]))
             - contar (mascara pontos feitos))
      with (contar (mascara pontos (feitos ++ [iv]))) by lia.
    rewrite IH. by rewrite <- app_assoc.
Qed.

(** [verificar_cobertura_parcial] decides whether the partial solution
    holds every point. *)
Lemma verificar_cobertura_parcial_spec p :
  n_pontos p ≤ INT_MAX →
  verificar_cobertura_parcial p = true
  ↔ cobertura_completa (pontos p) (parcial p).
Proof.
  intros Hmax. unfold verificar_cobertura_parcial, n_pontos in *.
  pose proof (verificar_laco_mascara (pontos p) (parcial p) [] Hmax) as Hl.
  rewrite contar_mascara_nil, mascara_nil in Hl. simpl in Hl. rewrite Hl.
  rewrite <- contar_mascara_completa.
  destruct (Z.eqb_spec (contar (mascara (pontos p) (parcial p)))
              (Z.of_nat (length (pontos p)))); split; congruence.
Qed.

Lemma pos_le C p p' : pos C p p' → n_melhor_solucao p' ≤ n_melhor_solucao p.
Proof. intros [_ _ _ _ _ _ [[-> _]|[Hlt _]] _]; lia. Qed.

Lemma pos_nos C p n p' : pos C (com_nos_visitados p n) p' → pos C p p'.
Proof. intros []. by split. Qed.

Lemma pos_equiv C C' p p' : (∀ T, C T ↔ C' T) → pos C p p' → pos C' p p'.
Proof.
  intros HC []. split; try done.
  - destruct pos_best0 as [?|(Hlt & T & HT & ?)]; [by left|right].
    split; [done|]. exists T. by rewrite <- HC.
  - intros Hn T HT. apply pos_compl0; [done | by apply HC].
Qed.

Lemma inv_pos C p p' idx idx' :
  inv p idx → pos C p p' → idx ≤ idx' → inv p' idx'.
Proof.
  intros [] [] Hle. split.
  - congruence.
  - lia.
  - unfold n_intervalos in *. by rewrite pos_ivs0.
  - unfold n_pontos in *. by rewrite pos_pts0.
  - intros b Hb. rewrite pos_ivs0. eauto.
Qed.

(** A return that leaves everything but the node counter alone. *)
Lemma pos_retorno (C : list Intervalo → Prop) p idx :
  (¬ cobertura_completa (pontos p) (parcial p) →
   ∀ T, C T → cobertura_completa (pontos p) (parcial p ++ T) →
     n_melhor_solucao p ≤ n_solucao_atual p + Z.of_nat (length T)) →
  inv p idx →
  pos C p p.
Proof. intros Hc []. split; auto. Qed.

(** The exclude branch after the include branch. *)
Lemma pos_comp C1 C2 p p1 p' :
  pos C1 p p1 → pos C2 p1 p' → pos (λ T, C1 T ∨ C2 T) p p'.
Proof.
  intros H1 H2. pose proof (pos_le _ _ _ H2) as Hle.
  destruct H1 as [Hi1 Hp1 Hc1 Hl1 Hpa1 Hm1 Hb1 Hco1].
  destruct H2 as [Hi2 Hp2 Hc2 Hl2 Hpa2 Hm2 Hb2 Hco2].
  split; try congruence.
  - intros b Hb. rewrite <- Hi1. eauto.
  - destruct Hb2 as [[Hn2 Hs2]|(Hlt2 & T2 & HT2 & Hm & Hn & Hcob)].
    + destruct Hb1 as [[Hn1 Hs1]|(Hlt1 & T1 & HT1 & Hm & Hn & Hcob)].
      * left. split; congruence.
      * right. split; [lia|]. exists T1.
        assert (melhor p' = melhor p1) as ->
          by (unfold melhor; by rewrite Hs2, Hn2).
        split; [by left|]. split; [done|]. split; [lia | done].
    + right. split; [destruct Hb1 as [[? _]|[? _]]; lia|].
      exists T2. split; [by right|].
      rewrite Hpa1, Hc1, Hp1 in *. done.
  - intros Hn T [HT|HT] Hcob.
    + specialize (Hco1 Hn T HT Hcob). lia.
    + rewrite <- Hc1. rewrite <- Hp1, <- Hpa1 in Hn, Hcob. by apply Hco2.
Qed.

(** The include branch: push [iv], run what follows, pop. *)
Lemma pos_incluir (C : list Intervalo → Prop) p iv p3 :
  let cur := n_solucao_atual p in
  let p2 := com_solucao_atual p (<[Z.to_nat cur := iv]> (solucao_atual p)) (cur + 1) in
  0 ≤ cur → cur < Z.of_nat (length (solucao_atual p)) →
  pos C p2 p3 →
  (¬ cobertura_completa (pontos p) (parcial p2) ∨ n_melhor_solucao p3 ≤ cur + 1) →
  pos (λ T, ∃ T', T = iv :: T' ∧ C T') p
      (com_solucao_atual p3 (solucao_atual p3) cur).
Proof.
  intros cur p2 H0 Hlt [Hi Hp Hc Hl Hpa Hm Hb Hco] Hdisj.
  assert (parcial p2 = parcial p ++ [iv]) as Hp2.
  { unfold parcial, p2. simpl. by apply parcial_empilhar. }
  simpl in *. split; simpl; try done.
  - by rewrite Hl, length_insert.
  - unfold parcial in *. simpl in *.
    rewrite Hc in Hpa.
    apply (f_equal (take (Z.to_nat cur))) in Hpa.
    rewrite !take_take in Hpa.
    rewrite !Nat.min_l in Hpa by lia.
    by rewrite take_insert_ge in Hpa by lia.
  - destruct Hb as [?|(Hlt' & T & HT & Hmel & Hn & Hcob)]; [by left|right].
    split; [done|]. exists (iv :: T). split; [eauto|].
    unfold melhor in *. simpl in *.
    rewrite Hmel, Hp2, <- app_assoc in *. simpl in *.
    split; [done|]. split; [subst cur; lia|done].
  - intros Hn T (T' & -> & HT') Hcob. simpl.
    destruct Hdisj as [Hnc|Hle]; [|lia].
    assert (n_melhor_solucao p3 ≤ cur + 1 + Z.of_nat (length T')); [|lia].
    apply Hco; [done | done |].
    rewrite Hp2, <- app_assoc. done.
Qed.

Lemma melhor_copiar p :
  0 ≤ n_solucao_atual p ≤ Z.of_nat (length (solucao_atual p)) →
  melhor (copiar_solucao p) = parcial p.
Proof.
  intros Hc. unfold melhor, copiar_solucao. simpl.
  apply take_app_length'. unfold parcial. rewrite length_take. lia.
Qed.

(** The copy of a complete partial solution that beats the best one. *)
Lemma pos_copiar (C : list Intervalo → Prop) p idx :
  inv p idx → n_solucao_atual p ≤ n_intervalos p →
  C [] →
  cobertura_completa (pontos p) (parcial p) →
  n_solucao_atual p < n_melhor_solucao p →
  pos C p (copiar_solucao p).
Proof.
  intros [Hbuf Hcur Hn Hpts Hmel] Hle HC Hcob Hlt. unfold n_intervalos in *.
  assert (melhor (copiar_solucao p) = parcial p) as Hm
    by (apply melhor_copiar; lia).
  split; simpl; try done.
  - intros b [= <-]. rewrite length_app, length_drop.
    unfold parcial. rewrite length_take.
    destruct (melhor_solucao p) as [b|] eqn:Hb.
    + rewrite (Hmel b eq_refl). lia.
    + rewrite length_replicate. lia.
  - right. split; [done|]. exists []. rewrite app_nil_r. simpl.
    split; [done|]. split; [done|]. split; [lia|]. by rewrite Hm.
Qed.

Lemma backtracking_recursivo_pos fuel : ∀ p idx,
  inv p idx → Z.max 0 (n_intervalos p - idx) < Z.of_nat fuel →
  ∃ p', backtracking_recursivo fuel p idx = Feito p' ∧ pos (caudas p idx) p p'.
Proof.
  induction fuel as [|fuel IH]; intros p idx Hinv Hfuel; [lia|].
  (* the node is counted; nothing below looks at the counter *)
  set (p0 := com_nos_visitados p (int_add (nos_visitados p) 1)).
  cut (∃ p', backtracking_recursivo (S fuel) p idx = Feito p'
             ∧ pos (caudas p0 idx) p0 p').
  { intros (p' & Heq & Hpos). exists p'. split; [exact Heq|].
    by apply (pos_nos _ _ (int_add (nos_visitados p) 1)). }
  cbn [backtracking_recursivo]. fold p0.
  assert (inv p0 idx) as Hinv0 by (destruct Hinv; by split).
  change (n_intervalos p) with (n_intervalos p0) in Hfuel.
  clearbody p0. clear p Hinv. rename p0 into p, Hinv0 into Hinv.
  pose proof Hinv as [Hbuf Hcur Hn Hpts Hmel]. unfold n_intervalos in *.
  destruct (Z.geb_spec idx (Z.of_nat (length (intervalos p)))) as [Hge|Hlt].
  { exists p. split; [done|]. apply (pos_retorno _ _ idx); [|done].
    intros Hnc T HT Hcob. unfold caudas in HT.
    rewrite drop_ge in HT by lia. apply sublist_nil_r in HT as ->.
    rewrite app_nil_r in Hcob. done. }
  destruct (Z.geb_spec (n_solucao_atual p) (n_melhor_solucao p)) as [Hge'|Hlt'].
  { exists p. split; [done|]. apply (pos_retorno _ _ idx); [|done].
    intros _ T _ _. lia. }
  rewrite !(int_add_1 (n_solucao_atual p)) by (unfold INT_MIN, INT_MAX in *; lia).
  rewrite !(int_add_1 idx) by (unfold INT_MIN, INT_MAX in *; lia).
  destruct (lookup_lt_is_Some_2 (intervalos p) (Z.to_nat idx)) as [iv Hiv]; [lia|].
  assert (Hdrop : drop (Z.to_nat idx) (intervalos p)
                  = iv :: drop (Z.to_nat (idx + 1)) (intervalos p)).
  { replace (Z.to_nat (idx + 1)) with (S (Z.to_nat idx)) by lia.
    by apply drop_S. }
  apply ligar_feito
    with (P := pos (λ T, ∃ T', T = iv :: T' ∧ caudas p (idx + 1) T') p).
  - (* the include branch *)
    destruct (Z.geb_spec (n_solucao_atual p + 1) (n_melhor_solucao p)) as [Hpod|Hnpod].
    { exists p. split; [done|]. apply (pos_retorno _ _ idx); [|done].
      intros _ T (T' & -> & _) _. simpl. lia. }
    unfold ler, escrever.
    destruct (Z.ltb_spec idx 0); [lia|]. rewrite Hiv.
    destruct (Z.ltb_spec (n_solucao_atual p) 0); [lia|].
    destruct (Z.leb_spec (Z.of_nat (length (solucao_atual p))) (n_solucao_atual p));
      [lia|].
    cbn [ligar orb].
    set (p2 := com_solucao_atual p _ _).
    assert (inv p2 (idx + 1)) as Hinv2.
    { split; simpl; try done; [by rewrite length_insert | lia]. }
    apply ligar_feito
      with (P := λ p3, pos (caudas p (idx + 1)) p2 p3
                       ∧ (¬ cobertura_completa (pontos p) (parcial p2)
                          ∨ n_melhor_solucao p3 ≤ n_solucao_atual p + 1)).
    + destruct (verificar_cobertura_parcial p2) eqn:Hver.
      * change (n_solucao_atual p2) with (n_solucao_atual p + 1).
        change (n_melhor_solucao p2) with (n_melhor_solucao p).
        destruct (Z.ltb_spec (n_solucao_atual p + 1) (n_melhor_solucao p)); [|lia].
        exists (copiar_solucao p2). split; [done|]. split; [|right; simpl; lia].
        apply (pos_copiar _ _ (idx + 1)); simpl; try done.
        -- unfold n_intervalos. simpl. lia.
        -- apply sublist_nil_l.
        -- apply verificar_cobertura_parcial_spec in Hver; done.
      * destruct (IH p2 (idx + 1) Hinv2) as (p3 & Heq & Hpos3).
        { unfold n_intervalos. simpl. lia. }
        exists p3. split; [done|]. split; [done|]. left.
        intros Hcob. apply (verificar_cobertura_parcial_spec p2) in Hcob; [|done].
        congruence.
    + intros p3 [Hpos3 Hdisj]. eexists. split; [done|].
      rewrite (pos_cur _ _ _ Hpos3).
      change (n_solucao_atual p2) with (n_solucao_atual p + 1).
      replace (int_sub (n_solucao_atual p + 1) 1) with (n_solucao_atual p).
      2:{ unfold int_sub. rewrite wrap_int_id; unfold INT_MIN, INT_MAX in *; lia. }
      apply pos_incluir; [lia | lia | done | done].
  - (* the exclude branch *)
    intros p1 Hpos1.
    assert (inv p1 (idx + 1)) as Hinv1
      by (eapply inv_pos; [exact Hinv|exact Hpos1|lia]).
    destruct (IH p1 (idx + 1) Hinv1) as (p' & Heq & Hpos').
    { unfold n_intervalos. rewrite (pos_ivs _ _ _ Hpos1). lia. }
    exists p'. split; [done|].
    eapply pos_equiv; [|eapply pos_comp; [exact Hpos1|exact Hpos']].
    intros T. unfold caudas. simpl.
    rewrite (pos_ivs _ _ _ Hpos1), Hdrop, sublist_cons_r. tauto.
Qed.

(** Whatever the state, a call that returns has put the partial solution
    back. *)
Lemma backtracking_recursivo_quadro fuel : ∀ p idx p',
  Z.of_nat (length (solucao_atual p)) ≤ INT_MAX →
  backtracking_recursivo fuel p idx = Feito p' →
  n_solucao_atual p' = n_solucao_atual p
  ∧ parcial p' = parcial p
  ∧ length (solucao_atual p') = length (solucao_atual p).
Proof.
  induction fuel as [|fuel IH]; intros p idx p' Hlen Heq; [discriminate|].
  cbn [backtracking_recursivo] in Heq.
  set (p0 := com_nos_visitados p (int_add (nos_visitados p) 1)) in Heq.
  change (n_solucao_atual p) with (n_solucao_atual p0).
  change (parcial p) with (parcial p0).
  change (solucao_atual p) with (solucao_atual p0) in *.
  clearbody p0. clear p. rename p0 into p.
  destruct (idx >=? n_intervalos p); [by injection Heq as <-|].
  destruct (n_solucao_atual p >=? n_melhor_solucao p); [by injection Heq as <-|].
  apply ligar_feito_inv in Heq as (p1 & Hinc & Hexc).
  assert (n_solucao_atual p1 = n_solucao_atual p ∧ parcial p1 = parcial p
          ∧ length (solucao_atual p1) = length (solucao_atual p))
    as (Hc1 & Hp1 & Hl1).
  { destruct (int_add (n_solucao_atual p) 1 >=? n_melhor_solucao p);
      [by injection Hinc as <-|].
    apply ligar_feito_inv in Hinc as (iv & _ & Hinc).
    apply ligar_feito_inv in Hinc as (sol & Hsol & Hinc).
    apply ligar_feito_inv in Hinc as (p3 & Hp3 & Hinc).
    injection Hinc as <-. unfold escrever in Hsol.
    destruct (Z.ltb_spec (n_solucao_atual p) 0); [discriminate|].
    destruct (Z.leb_spec (Z.of_nat (length (solucao_atual p))) (n_solucao_atual p));
      [discriminate|].
    injection Hsol as <-.
    rewrite int_add_1 in Hp3 by (unfold INT_MIN, INT_MAX in *; lia).
    set (p2 := com_solucao_atual p _ _) in Hp3.
    assert (n_solucao_atual p3 = n_solucao_atual p + 1
            ∧ parcial p3 = parcial p2
            ∧ length (solucao_atual p3) = length (solucao_atual p)) as (Hc3 & Hpa3 & Hl3).
    { destruct (verificar_cobertura_parcial p2).
      - destruct (n_solucao_atual p2 <? n_melhor_solucao p2);
          injection Hp3 as <-; simpl; by rewrite length_insert.
      - apply IH in Hp3 as (? & ? & Hl3); [|simpl; by rewrite length_insert].
        simpl in Hl3. by rewrite length_insert in Hl3. }
    simpl. rewrite Hc3.
    replace (int_sub (n_solucao_atual p + 1) 1) with (n_solucao_atual p)
      by (unfold int_sub; rewrite wrap_int_id; unfold INT_MIN, INT_MAX in *; lia).
    split; [done|]. split; [|done].
    unfold parcial in *. simpl in *. rewrite Hc3 in Hpa3.
    apply (f_equal (take (Z.to_nat (n_solucao_atual p)))) in Hpa3.
    rewrite !take_take, !Nat.min_l in Hpa3 by lia.
    by rewrite take_insert_ge in Hpa3 by lia. }
  apply IH in Hexc as (Hc' & Hp' & Hl'); [|by rewrite Hl1].
  split; [|split]; congruence.
Qed.

Lemma bem_formado_inicial ivs pts :
  Z.of_nat (length ivs) < INT_MAX → Z.of_nat (length pts) ≤ INT_MAX →
  bem_formado (instancia ivs pts).
Proof. intros Hi Hp. by split. Qed.

Lemma inv_preparar p : bem_formado p → inv (preparar p) 0.
Proof.
  intros [Hn Hp Hm]. split; simpl; try done.
  by rewrite length_replicate.
Qed.

Lemma resolver_backtracking_pos p :
  bem_formado p →
  ∃ p', resolver_backtracking p
        = Feito (p', {| m_qualidade := qualidade (n_melhor_solucao p') (n_intervalos p');
                        m_n_solucao := n_melhor_solucao p';
                        m_nos_visitados := nos_visitados p' |})
      ∧ pos (λ T, T `sublist_of` intervalos p) (preparar p) p'.
Proof.
  intros Hbf. unfold resolver_backtracking.
  destruct (backtracking_recursivo_pos (S (length (intervalos p))) (preparar p) 0)
    as (p' & Heq & Hpos).
  - by apply inv_preparar.
  - unfold n_intervalos. simpl. lia.
  - exists p'. rewrite Heq. simpl. split; [done|].
    eapply pos_equiv; [|exact Hpos]. intros T. unfold caudas. simpl. done.
Qed.

Lemma bem_formado_pos C p p' : bem_formado p → pos C (preparar p) p' → bem_formado p'.
Proof.
  intros [Hn Hp Hm] []. simpl in *. split.
  - unfold n_intervalos in *. by rewrite pos_ivs0.
  - unfold n_pontos in *. by rewrite pos_pts0.
  - intros b Hb. rewrite pos_ivs0. eauto.
Qed.

(** The outcome of a solve, from a best solution [n_melhor_solucao p] that
    no sub-sequence of the intervals beats. *)
Lemma resolver_backtracking_resultado p :
  bem_formado p → pontos p ≠ [] →
  ∃ p', resolver_backtracking p
        = Feito (p', {| m_qualidade := qualidade (n_melhor_solucao p') (n_intervalos p');
                        m_n_solucao := n_melhor_solucao p';
                        m_nos_visitados := nos_visitados p' |})
      ∧ intervalos p' = intervalos p ∧ pontos p' = pontos p
      ∧ n_solucao_atual p' = 0
      ∧ bem_formado p'
      ∧ ((n_melhor_solucao p' = n_melhor_solucao p
          ∧ melhor_solucao p' = melhor_solucao p)
         ∨ (n_melhor_solucao p' < n_melhor_solucao p
            ∧ melhor p' `sublist_of` intervalos p
            ∧ n_melhor_solucao p' = Z.of_nat (length (melhor p'))
            ∧ cobertura_completa (pontos p) (melhor p')))
      ∧ (∀ T, T `sublist_of` intervalos p →
              cobertura_completa (pontos p) T →
              n_melhor_solucao p' ≤ Z.of_nat (length T)).
Proof.
  intros Hbf Hpts.
  destruct (resolver_backtracking_pos p Hbf) as (p' & Heq & Hpos).
  exists p'. split; [done|].
  pose proof (bem_formado_pos _ _ _ Hbf Hpos) as Hbf'.
  destruct Hpos as [Hi Hp Hc Hl Hpa Hm Hb Hco]. simpl in *.
  do 4 (split; [done|]). split.
  - destruct Hb as [?|(Hlt & T & HT & Hmel & Hn & Hcob)]; [by left|right].
    unfold parcial in Hmel. simpl in Hmel. rewrite Hmel in *. done.
  - intros T HT Hcob.
    apply (Hco (sem_pontos_sem_cobertura _ Hpts) T HT Hcob).
Qed.

(** C1. On a problem with at least one point, set up by
    [inicializar_problema_backtracking], [resolver_backtracking] returns;
    if some sub-sequence of the intervals covers every point, the best
    solution it leaves is such a sub-sequence, of the size it reports, and
    no covering sub-sequence is smaller; if none does, the size is still
    the sentinel [INT_MAX].  Neither the order of the intervals nor
    [inicio <= fim] is needed. *)
Theorem resolver_backtracking_minimo ivs pts :
  pts ≠ [] →
  Z.of_nat (length ivs) < INT_MAX → Z.of_nat (length pts) ≤ INT_MAX →
  ∃ p' m,
    resolver_backtracking (instancia ivs pts) = Feito (p', m)
    ∧ m_n_solucao m = n_melhor_solucao p'
    ∧ ((∃ T, T `sublist_of` ivs ∧ cobertura_completa pts T) →
       ∃ c, cobertura p' = Some c
            ∧ c `sublist_of` ivs
            ∧ Z.of_nat (length c) = n_melhor_solucao p'
            ∧ cobertura_completa pts c
            ∧ ∀ T, T `sublist_of` ivs → cobertura_completa pts T →
                (length c ≤ length T)%nat)
    ∧ ((¬ ∃ T, T `sublist_of` ivs ∧ cobertura_completa pts T) →
       n_melhor_solucao p' = INT_MAX ∧ cobertura p' = None).
Proof.
  intros Hne Hn Hp.
  destruct (resolver_backtracking_resultado (instancia ivs pts))
    as (p' & Heq & _ & _ & _ & _ & Hbest & Hcompl); [by apply bem_formado_inicial|done|].
  simpl in *. eexists p', _. split; [exact Heq|]. split; [done|]. split.
  - intros (T0 & HT0 & Hcob0).
    pose proof (Hcompl T0 HT0 Hcob0) as Hle.
    pose proof (sublist_length _ _ HT0) as Hlen0.
    destruct Hbest as [[Heq' _]|(Hlt & Hsub & Hsz & Hcob)]; [lia|].
    exists (melhor p'). unfold cobertura.
    destruct (Z.eqb_spec (n_melhor_solucao p') INT_MAX); [lia|].
    do 4 (split; [done|]). intros T HT HcT.
    specialize (Hcompl T HT HcT). lia.
  - intros Hnone. unfold cobertura.
    destruct Hbest as [[Heq' _]|(Hlt & Hsub & Hsz & Hcob)].
    + rewrite Heq', Z.eqb_refl. done.
    + destruct Hnone. eauto.
Qed.

Lemma resolver_backtracking_minimo_witness :
  ∃ p' m,
    resolver_backtracking
      (instancia intervalos_pequeno_backtracking pontos_pequeno)
    = Feito (p', m).
Proof.
  destruct (resolver_backtracking_minimo intervalos_pequeno_backtracking pontos_pequeno)
    as (p' & m & Heq & _).
  - discriminate.
  - vm_compute. reflexivity.
  - vm_compute. discriminate.
  - exists p', m. exact Heq.
Defined.

(** C9. A call of [backtracking_recursivo] that returns leaves
    [n_solucao_atual] as it found it and the entries of [solucao_atual]
    below it untouched: the store of the include branch is at index
    [n_solucao_atual], and its [++] is met by one [--].  In the states of
    the search the call does return.  The call [resolver_backtracking]
    makes therefore ends with [n_solucao_atual] at 0. *)
Theorem backtracking_recursivo_restaura :
  (∀ fuel p idx p',
     Z.of_nat (length (solucao_atual p)) ≤ INT_MAX →
     backtracking_recursivo fuel p idx = Feito p' →
     n_solucao_atual p' = n_solucao_atual p
     ∧ ∀ i : nat, Z.of_nat i < n_solucao_atual p →
         solucao_atual p' !! i = solucao_atual p !! i)
  ∧ (∀ fuel p idx,
       inv p idx → Z.max 0 (n_intervalos p - idx) < Z.of_nat fuel →
       ∃ p', backtracking_recursivo fuel p idx = Feito p')
  ∧ (∀ p, bem_formado p →
       ∃ p' m, resolver_backtracking p = Feito (p', m) ∧ n_solucao_atual p' = 0).
Proof.
  split; [|split].
  - intros fuel p idx p' Hlen Heq.
    destruct (backtracking_recursivo_quadro fuel p idx p' Hlen Heq) as (Hcur & Hpar & _).
    split; [done|]. intros i Hi.
    unfold parcial in Hpar. rewrite Hcur in Hpar.
    rewrite <- (lookup_take_lt (solucao_atual p') (Z.to_nat (n_solucao_atual p)) i) by lia.
    rewrite Hpar. apply lookup_take_lt. lia.
  - intros fuel p idx Hinv Hfuel.
    destruct (backtracking_recursivo_pos fuel p idx Hinv Hfuel) as (p' & Heq & _).
    eauto.
  - intros p Hbf.
    destruct (resolver_backtracking_pos p Hbf) as (p' & Heq & Hpos).
    eexists p', _. split; [exact Heq|]. apply (pos_cur _ _ _ Hpos).
Qed.

Lemma backtracking_recursivo_restaura_witness :
  ∃ p', backtracking_recursivo 11 estado_de_busca 2 = Feito p'
        ∧ n_solucao_atual p' = 2.
Proof.
  destruct backtracking_recursivo_restaura as (Hquadro & Hretorna & _).
  destruct (Hretorna 11%nat estado_de_busca 2) as (p' & Heq).
  - split; simpl; [reflexivity | lia | vm_compute; reflexivity
                  | vm_compute; discriminate | discriminate].
  - vm_compute. reflexivity.
  - exists p'. split; [exact Heq|].
    apply (Hquadro 11%nat estado_de_busca 2 p'); [|exact Heq].
    vm_compute. discriminate.
Defined.

End BT.


(** ** The greedy loop *)

Module GL.
Import Guloso.

Implicit Types (p : Problema) (sel : list Intervalo) (mask : list bool).

Lemma nao_cobertos_em_le intervalo pontos mask :
  (nao_cobertos_em intervalo pontos mask ≤ length pontos)%nat.
Proof.
  revert mask. induction pontos as [|pt pontos IH]; intros [|c mask]; simpl; try lia.
  specialize (IH mask). destruct (negb c && _); lia.
Qed.

Lemma potencial_spec intervalo pontos mask n :
  0 ≤ n → n + Z.of_nat (length pontos) ≤ INT_MAX →
  potencial intervalo pontos mask n
  = n + Z.of_nat (nao_cobertos_em intervalo pontos mask).
Proof.
  revert mask n. induction pontos as [|pt pontos IH]; intros [|c mask] n Hn Hmax;
    simpl in *; try lia.
  destruct (negb c && ponto_coberto_por_intervalo pt intervalo).
  - rewrite int_add_1 by (unfold INT_MIN, INT_MAX in *; lia).
    rewrite IH by lia. lia.
  - rewrite IH by lia. lia.
Qed.

Lemma nao_cobertos_em_pos intervalo pontos mask (j : nat) pt :
  pontos !! j = Some pt → mask !! j = Some false →
  ponto_coberto_por_intervalo pt intervalo = true →
  (0 < nao_cobertos_em intervalo pontos mask)%nat.
Proof.
  revert mask j. induction pontos as [|q pontos IH]; intros [|c mask] [|j] Hp Hm Hc;
    simpl in *; try discriminate.
  - injection Hp as ->. injection Hm as ->. rewrite Hc. simpl. lia.
  - specialize (IH mask j Hp Hm Hc). lia.
Qed.

(** [primeiro_nao_coberto] finds the first unmarked entry. *)
Lemma primeiro_nao_coberto_spec mask i :
  (primeiro_nao_coberto mask i = -1 ∧ ∀ c, c ∈ mask → c = true) ∨
  (∃ j : nat, primeiro_nao_coberto mask i = i + Z.of_nat j
              ∧ mask !! j = Some false
              ∧ ∀ k : nat, (k < j)%nat → mask !! k = Some true).
Proof.
  intros. revert i. induction mask as [|c mask IH]; intros i; simpl.
  - left. split; [done|]. intros c Hc. by apply elem_of_nil in Hc.
  - destruct c; simpl.
    + destruct (IH (i + 1)) as [[Heq Hall]|(j & Heq & Hj & Hlt)].
      * left. split; [done|]. intros c Hc.
        apply elem_of_cons in Hc as [->|Hc]; auto.
      * right. exists (S j). split; [lia|]. split; [done|].
        intros [|k] Hk; simpl; [done|]. apply Hlt. lia.
    + right. exists 0%nat. split; [lia|]. split; [done|]. intros k Hk. lia.
Qed.

(** *** The choice of [encontrar_melhor_intervalo] *)

Lemma prefere_refl p k iv : prefere p k iv k iv.
Proof. right. split; [done|]. right. split; [done|lia]. Qed.

Section Escolha.

Variables (p : Problema) (ancora : Ponto).
Hypothesis pot_positivo :
  ∀ iv, ponto_coberto_por_intervalo ancora iv = true → 0 < pot p iv.

Lemma estado_passo feitos resto iv melhor max :
  intervalos p = feitos ++ iv :: resto →
  estado p ancora feitos melhor max →
  ∃ melhor' max',
    melhor_laco p ancora (iv :: resto) (Z.of_nat (length feitos)) melhor max
    = melhor_laco p ancora resto (Z.of_nat (length (feitos ++ [iv]))) melhor' max'
    ∧ estado p ancora (feitos ++ [iv]) melhor' max'.
Proof.
  intros Hivs Hest.
  assert (Z.of_nat (length feitos) + 1 = Z.of_nat (length (feitos ++ [iv]))) as Hlen
    by (rewrite length_app; simpl; lia).
  simpl. rewrite Hlen. fold (pot p iv).
  (* an interval that is passed over *)
  assert (∀ m mx, estado p ancora feitos m mx →
            (ponto_coberto_por_intervalo ancora iv = true →
             ∃ (k : nat) ivk, m = Z.of_nat k ∧ feitos !! k = Some ivk
                              ∧ prefere p k ivk (length feitos) iv) →
            estado p ancora (feitos ++ [iv]) m mx) as Hfica.
  { intros m mx [(-> & -> & Hnone)|(k & ivk & -> & Hk & Hck & -> & Hbest)] Hpref.
    - destruct (ponto_coberto_por_intervalo ancora iv) eqn:Hc.
      + destruct (Hpref eq_refl) as (k & ? & ? & _). lia.
      + left. split; [done|]. split; [done|]. intros iv' Hin.
        apply elem_of_app in Hin as [Hin|Hin]; [auto|].
        by apply list_elem_of_singleton in Hin as ->.
    - right. exists k, ivk. split; [done|].
      split; [by apply lookup_app_l_Some|]. split; [done|]. split; [done|].
      intros j ivj Hj Hcj. apply lookup_snoc_Some in Hj as [[_ Hj]|[-> <-]]; [eauto|].
      destruct (Hpref Hcj) as (k' & ivk' & Hk' & Hlk' & Hp').
      apply Nat2Z.inj in Hk' as <-. congruence. }
  (* an interval that becomes the choice *)
  assert (ponto_coberto_por_intervalo ancora iv = true →
          (∀ (j : nat) ivj, feitos !! j = Some ivj →
             ponto_coberto_por_intervalo ancora ivj = true →
             prefere p (length feitos) iv j ivj) →
          estado p ancora (feitos ++ [iv]) (Z.of_nat (length feitos)) (pot p iv))
    as Htroca.
  { intros Hc Hbest. right. exists (length feitos), iv. split; [done|].
    split; [apply lookup_snoc_Some; by right|]. split; [done|]. split; [done|].
    intros j ivj Hj Hcj. apply lookup_snoc_Some in Hj as [[_ Hj]|[-> <-]]; [eauto|].
    apply prefere_refl. }
  destruct (ponto_coberto_por_intervalo ancora iv) eqn:Hc;
    [|eexists _, _; split; [done|]; by apply Hfica].
  pose proof (pot_positivo iv Hc) as Hpos.
  destruct (Z.gtb_spec (pot p iv) max) as [Hgt|Hle].
  { eexists _, _. split; [done|]. apply Htroca; [done|].
    intros j ivj Hj Hcj. left.
    destruct Hest as [(_ & _ & Hnone)|(k & ivk & _ & _ & _ & -> & Hbest)].
    - rewrite (Hnone ivj) in Hcj by (by eapply list_elem_of_lookup_2). discriminate.
    - destruct (Hbest j ivj Hj Hcj) as [?|[? _]]; lia. }
  destruct (Z.eqb_spec (pot p iv) max) as [Heq|Hne]; simpl.
  2:{ eexists _, _. split; [done|]. apply Hfica; [done|]. intros _.
      destruct Hest as [(_ & -> & _)|(k & ivk & -> & Hk & _ & -> & _)]; [lia|].
      exists k, ivk. split; [done|]. split; [done|]. left. lia. }
  destruct (Z.gtb_spec (pot p iv) 0) as [_|?]; [|lia].
  destruct Hest as [(_ & -> & _)|(k & ivk & -> & Hk & Hck & -> & Hbest)]; [lia|].
  destruct (Z.eqb_spec (Z.of_nat k) (-1)) as [?|_]; [lia|].
  assert (intervalo_em p (Z.of_nat k) = ivk) as ->.
  { unfold intervalo_em. rewrite Nat2Z.id. apply nth_lookup_Some.
    rewrite Hivs. by apply lookup_app_l_Some. }
  pose proof (lookup_lt_Some _ _ _ Hk) as Hklt.
  destruct (Z.ltb_spec (tamanho iv) (tamanho ivk)) as [Hlt|Hge].
  - eexists _, _. split; [done|]. rewrite <- Heq. apply Htroca; [done|].
    intros j ivj Hj Hcj.
    destruct (Hbest j ivj Hj Hcj) as [?|[? [?|[? ?]]]].
    + left. lia.
    + right. split; [lia|]. left. lia.
    + right. split; [lia|]. left. lia.
  - eexists _, _. split; [done|]. apply Hfica.
    + right. exists k, ivk. by repeat split.
    + intros _. exists k, ivk. split; [done|]. split; [done|].
      right. split; [done|].
      destruct (Z.eq_dec (tamanho ivk) (tamanho iv)); [right; split; [done|lia] | left; lia].
Qed.

Lemma melhor_laco_estado resto : ∀ feitos melhor max,
  intervalos p = feitos ++ resto →
  estado p ancora feitos melhor max →
  ∃ max',
    estado p ancora (intervalos p)
      (melhor_laco p ancora resto (Z.of_nat (length feitos)) melhor max) max'.
Proof.
  induction resto as [|iv resto IH]; intros feitos melhor max Hivs Hest.
  - simpl. rewrite app_nil_r in Hivs. rewrite Hivs. eauto.
  - destruct (estado_passo feitos resto iv melhor max Hivs Hest)
      as (melhor' & max' & -> & Hest').
    apply IH; [|done]. by rewrite <- app_assoc.
Qed.

End Escolha.

(** *** One turn of the loop *)

Lemma ginv_preparar p :
  n_pontos p ≤ INT_MAX → n_intervalos p ≤ INT_MAX → ginv (preparar p).
Proof.
  intros Hp Hn.
  split; unfold cobertura; simpl; change (Z.to_nat 0) with 0%nat;
    rewrite ?take_0; try done.
  - by rewrite mascara_nil.
  - rewrite <- mascara_nil. by rewrite contar_mascara_nil.
  - by rewrite length_replicate.
  - intros iv Hin. by apply elem_of_nil in Hin.
  - constructor.
Qed.

(** The solution is no longer than the pool. *)
Lemma ginv_tamanho p : ginv p → 0 ≤ n_solucao p ≤ n_intervalos p.
Proof.
  intros [Hmask Hcnt Hbuf Hlen Hin Hnd Hutil Hle Hpts Hn].
  pose proof (submseteq_length _ _ (NoDup_submseteq _ _ Hnd Hin)).
  unfold n_intervalos. lia.
Qed.

Lemma ginv_selecionar p iv pt :
  ginv p → iv ∈ intervalos p →
  pt ∈ pontos p → coberto_por (cobertura p) pt = false →
  ponto_coberto_por_intervalo pt iv = true →
  n_solucao p < n_intervalos p
  ∧ ginv (selecionar p iv)
  ∧ intervalos (selecionar p iv) = intervalos p
  ∧ pontos (selecionar p iv) = pontos p
  ∧ cobertura (selecionar p iv) = cobertura p ++ [iv]
  ∧ n_pontos_cobertos p < n_pontos_cobertos (selecionar p iv).
Proof.
  intros [Hmask Hcnt Hbuf Hlen Hin Hnd Hutil Hle Hpts Hn] Hiv Hpt Hunc Hc.
  unfold n_intervalos, n_pontos in *.
  pose proof (contar_bounds (mascara (pontos p) (cobertura p))) as Hb.
  rewrite mascara_length in Hb.
  assert (iv ∉ cobertura p) as Hnotin.
  { intros Hin'. apply coberto_por_false with (iv := iv) in Hunc; [|done]. congruence. }
  assert (NoDup (cobertura p ++ [iv])) as Hnd'.
  { apply NoDup_app. split; [done|]. split; [|apply NoDup_singleton].
    intros x Hx Hx'. apply list_elem_of_singleton in Hx' as ->. done. }
  assert (∀ x, x ∈ cobertura p ++ [iv] → x ∈ intervalos p) as Hin'.
  { intros x Hx. apply elem_of_app in Hx as [Hx|Hx]; [auto|].
    by apply list_elem_of_singleton in Hx as ->. }
  pose proof (submseteq_length _ _ (NoDup_submseteq _ _ Hnd' Hin')) as Hsz.
  rewrite length_app in Hsz. simpl in Hsz.
  assert (n_solucao p < Z.of_nat (length (intervalos p))) as Hlt by lia.
  split; [done|].
  assert (0 ≤ n_solucao p) as H0 by lia.
  pose proof (contar_mascara_estrito _ _ _ _ Hpt Hunc Hc) as Hstrict.
  unfold selecionar, marcar_pontos_cobertos. simpl.
  rewrite Hmask, Hcnt, Hmask.
  rewrite marcar_laco_mascara by lia.
  rewrite int_add_1 by (unfold INT_MIN, INT_MAX in *; lia).
  assert (take (Z.to_nat (n_solucao p + 1)) (<[Z.to_nat (n_solucao p) := iv]> (solucao p))
          = cobertura p ++ [iv]) as Hcob.
  { unfold cobertura. apply parcial_empilhar; lia. }
  unfold cobertura in *.
  split; [|simpl; repeat split; try done; lia].
  rewrite Hmask in Hcnt.
  split; unfold cobertura; simpl; rewrite ?Hcob; try done.
  - lia.
  - by rewrite length_insert.
  - rewrite length_app. simpl. lia.
  - intros i iv' Hi. apply lookup_snoc_Some in Hi as [[Hi1 Hi2]|[-> <-]].
    + rewrite take_app_le by lia. by apply Hutil.
    + exists pt. rewrite take_app_length. done.
  - lia.
Qed.

Lemma ancora_existe p :
  ginv p → todos_pontos_cobertos p = false →
  ∃ a pt, ancora p a pt ∧ coberto_por (cobertura p) pt = false.
Proof.
  intros [Hmask Hcnt Hbuf Hlen Hin Hnd Hutil Hle Hpts Hn] Htodos.
  unfold ancora, obter_proximo_ponto_nao_coberto, todos_pontos_cobertos, n_pontos in *.
  assert (length (pontos_cobertos p) = length (pontos p)) as Hml
    by (rewrite Hmask; apply mascara_length).
  rewrite take_ge by lia.
  destruct (primeiro_nao_coberto_spec (pontos_cobertos p) 0)
    as [[_ Hall]|(a & Heq & Ha & Hantes)].
  - apply contar_completo in Hall. rewrite <- Hcnt, Hml in Hall.
    rewrite Hall, Z.eqb_refl in Htodos. discriminate.
  - pose proof Ha as Ha'. rewrite Hmask, mascara_lookup in Ha'.
    destruct (pontos p !! a) as [pt|] eqn:Hpt; [|discriminate].
    injection Ha' as Hunc. exists a, pt. repeat split; try done; lia.
Qed.

Lemma pot_spec p iv :
  n_pontos p ≤ INT_MAX →
  pot p iv = Z.of_nat (nao_cobertos_em iv (pontos p) (pontos_cobertos p)).
Proof.
  intros Hp. unfold pot, n_pontos in *. rewrite potencial_spec; lia.
Qed.

Lemma encontrar_melhor_intervalo_spec p (a : nat) pt :
  n_pontos p ≤ INT_MAX →
  pontos p !! a = Some pt → pontos_cobertos p !! a = Some false →
  (encontrar_melhor_intervalo p (Z.of_nat a) = Feito (-1)
   ∧ ∀ iv, iv ∈ intervalos p → ponto_coberto_por_intervalo pt iv = false)
  ∨ (∃ (k : nat) ivk,
       encontrar_melhor_intervalo p (Z.of_nat a) = Feito (Z.of_nat k)
       ∧ escolha p pt k ivk).
Proof.
  intros Hp Hpt Hmask. unfold encontrar_melhor_intervalo, ler.
  destruct (Z.ltb_spec (Z.of_nat a) 0); [lia|]. rewrite Nat2Z.id, Hpt. simpl.
  assert (∀ iv, ponto_coberto_por_intervalo pt iv = true → 0 < pot p iv) as Hpos.
  { intros iv Hc. rewrite pot_spec by done.
    pose proof (nao_cobertos_em_pos iv _ _ a pt Hpt Hmask Hc). lia. }
  destruct (melhor_laco_estado p pt Hpos (intervalos p) [] (-1) 0)
    as (max' & [(Heq & _ & Hnone)|(k & ivk & Heq & Hk & Hck & _ & Hbest)]).
  - done.
  - left. split; [done|]. split; [done|]. intros iv Hin. by apply elem_of_nil in Hin.
  - left. change (Z.of_nat (length (@nil Intervalo))) with 0 in Heq.
    rewrite Heq. done.
  - right. exists k, ivk. change (Z.of_nat (length (@nil Intervalo))) with 0 in Heq.
    rewrite Heq. done.
Qed.

(** One turn of the loop, in a state the solver can be in. *)
Lemma corpo_laco_spec p :
  ginv p →
  (todos_pontos_cobertos p = true ∧ corpo_laco p = Feito (Para p))
  ∨ (todos_pontos_cobertos p = false
     ∧ ∃ a pt, ancora p a pt
       ∧ ((encontrar_melhor_intervalo p (Z.of_nat a) = Feito (-1)
           ∧ (∀ iv, iv ∈ intervalos p → ponto_coberto_por_intervalo pt iv = false)
           ∧ corpo_laco p = Feito (Para p))
          ∨ (∃ (k : nat) ivk,
               encontrar_melhor_intervalo p (Z.of_nat a) = Feito (Z.of_nat k)
               ∧ escolha p pt k ivk
               ∧ coberto_por (cobertura p) pt = false
               ∧ corpo_laco p = Feito (Continua (selecionar p ivk))))).
Proof.
  intros Hinv. unfold corpo_laco.
  destruct (todos_pontos_cobertos p) eqn:Htodos; [by left|right].
  split; [done|].
  destruct (ancora_existe p Hinv Htodos) as (a & pt & Hanc & Hunc).
  exists a, pt. split; [done|].
  destruct Hanc as (-> & Hpt & Hmask & _).
  destruct (Z.eqb_spec (Z.of_nat a) (-1)); [lia|].
  destruct (encontrar_melhor_intervalo_spec p a pt (g_pts _ Hinv) Hpt Hmask)
    as [[-> Hnone]|(k & ivk & -> & Hesc)]; simpl.
  - by left.
  - right. exists k, ivk. do 3 (split; [done|]).
    destruct (Z.eqb_spec (Z.of_nat k) (-1)); [lia|].
    destruct Hesc as (Hk & Hck & _).
    destruct (ginv_selecionar p ivk pt Hinv) as (Hlt & _); try done.
    { by eapply list_elem_of_lookup_2. }
    { by eapply list_elem_of_lookup_2. }
    unfold ler, escrever. destruct (Z.ltb_spec (Z.of_nat k) 0); [lia|].
    rewrite Nat2Z.id, Hk. simpl.
    pose proof (g_len _ Hinv) as Hlen. pose proof (g_buf _ Hinv) as Hbuf.
    unfold n_intervalos in Hlt.
    destruct (Z.ltb_spec (n_solucao p) 0); [lia|].
    destruct (Z.leb_spec (Z.of_nat (length (solucao p))) (n_solucao p)); [lia|].
    done.
Qed.

Lemma ginv_continua p p' :
  ginv p → corpo_laco p = Feito (Continua p') →
  ginv p' ∧ intervalos p' = intervalos p ∧ pontos p' = pontos p
  ∧ n_pontos_cobertos p < n_pontos_cobertos p'
  ∧ ∃ iv, cobertura p' = cobertura p ++ [iv].
Proof.
  intros Hinv Hstep.
  destruct (corpo_laco_spec p Hinv)
    as [[_ Heq]|(_ & a & pt & Hanc & [(_ & _ & Heq)|(k & ivk & _ & Hesc & Hunc & Heq)])];
    rewrite Heq in Hstep; try discriminate.
  injection Hstep as <-.
  destruct Hanc as (_ & Hpt & _). destruct Hesc as (Hk & Hck & _).
  destruct (ginv_selecionar p ivk pt Hinv) as (_ & ? & ? & ? & ? & ?); try done.
  { by eapply list_elem_of_lookup_2. }
  { by eapply list_elem_of_lookup_2. }
  eauto 10.
Qed.

Lemma alcanca_ginv p0 p :
  n_pontos p0 ≤ INT_MAX → n_intervalos p0 ≤ INT_MAX →
  alcanca p0 p →
  ginv p ∧ intervalos p = intervalos p0 ∧ pontos p = pontos p0.
Proof.
  intros Hp Hn Halc. induction Halc as [|p p' _ (Hinv & Hi & Hpt) Hstep].
  - split; [by apply ginv_preparar | done].
  - destruct (ginv_continua p p' Hinv Hstep) as (? & ? & ? & _).
    split; [done|]. split; congruence.
Qed.

(** The loop ends within as many turns as there are points left to
    cover, in a state it has gone through; at its end all points are
    marked, or some point lies in no interval of the pool. *)
Lemma laco_spec p0 fuel : ∀ p,
  alcanca p0 p → ginv p →
  n_pontos p - n_pontos_cobertos p < Z.of_nat fuel →
  ∃ p', laco fuel p = Feito p' ∧ alcanca p0 p' ∧ ginv p'
        ∧ (todos_pontos_cobertos p' = true
           ∨ (todos_pontos_cobertos p' = false
              ∧ ∃ pt, pt ∈ pontos p'
                  ∧ ∀ iv, iv ∈ intervalos p' →
                      ponto_coberto_por_intervalo pt iv = false)).
Proof.
  induction fuel as [|fuel IH]; intros p Halc Hinv Hfuel.
  - pose proof (contar_bounds (pontos_cobertos p)) as Hb.
    rewrite <- (g_cnt _ Hinv), (g_mask _ Hinv), mascara_length in Hb.
    unfold n_pontos in *. lia.
  - simpl.
    destruct (corpo_laco_spec p Hinv)
      as [[Htodos Heq]|(Htodos & a & pt & Hanc
                        & [(_ & Hnone & Heq)|(k & ivk & _ & Hesc & Hunc & Heq)])].
    + rewrite Heq. simpl. exists p. eauto.
    + rewrite Heq. simpl. exists p. do 3 (split; [done|]). right.
      split; [done|]. exists pt. split; [|done].
      destruct Hanc as (_ & Hpt & _). by eapply list_elem_of_lookup_2.
    + rewrite Heq. simpl.
      destruct (ginv_continua p _ Hinv Heq) as (Hinv' & Hi & Hp & Hlt & _).
      apply IH; [by eapply alcanca_passo | done |].
      unfold n_pontos in *. rewrite Hp. lia.
Qed.

Lemma resolver_guloso_resultado p0 :
  n_pontos p0 ≤ INT_MAX → n_intervalos p0 ≤ INT_MAX →
  ∃ p', resolver_guloso p0
        = Feito (p', {| m_qualidade := qualidade (n_solucao p') (n_intervalos p');
                        m_n_solucao := n_solucao p' |})
      ∧ alcanca p0 p' ∧ ginv p'
      ∧ intervalos p' = intervalos p0 ∧ pontos p' = pontos p0
      ∧ (todos_pontos_cobertos p' = true
         ∨ (todos_pontos_cobertos p' = false
            ∧ ∃ pt, pt ∈ pontos p0
                ∧ ∀ iv, iv ∈ intervalos p0 →
                    ponto_coberto_por_intervalo pt iv = false)).
Proof.
  intros Hp Hn. unfold resolver_guloso.
  destruct (laco_spec p0 (S (length (pontos p0))) (preparar p0))
    as (p' & Heq & Halc & Hinv & Hfim).
  - constructor.
  - by apply ginv_preparar.
  - unfold n_pontos. simpl. lia.
  - destruct (alcanca_ginv p0 p' Hp Hn Halc) as (_ & Hi & Hpt).
    exists p'. rewrite Heq. simpl. do 5 (split; [done|]).
    by rewrite <- Hi, <- Hpt.
Qed.

(** With every point marked, the cover is complete. *)
Lemma todos_pontos_cobertos_spec p :
  ginv p →
  todos_pontos_cobertos p = true ↔ cobertura_completa (pontos p) (cobertura p).
Proof.
  intros Hinv. unfold todos_pontos_cobertos, n_pontos.
  rewrite <- contar_mascara_completa, <- (g_mask _ Hinv), <- (g_cnt _ Hinv).
  destruct (Z.eqb_spec (n_pontos_cobertos p) (Z.of_nat (length (pontos p))));
    split; congruence.
Qed.

(** C5. At every turn of the greedy loop that finds a point left to
    cover, the anchor is the first point of [pontos] whose mark is off.
    If no interval holds the anchor the loop stops there, with the state
    as it was and not all points marked.  Otherwise the interval that is
    appended to the solution holds the anchor and, among the intervals
    that hold it, has the most points with the mark off; among those, the
    smallest [fim - inicio]; among those, the least index.  The counts
    the loop compares are the numbers of points with the mark off that
    the intervals hold, and the sizes it compares are [fim - inicio]
    wherever that difference is a C [int]. *)
Theorem escolha_gulosa p0 p :
  n_pontos p0 ≤ INT_MAX → n_intervalos p0 ≤ INT_MAX →
  alcanca p0 p → todos_pontos_cobertos p = false →
  (∀ iv, pot p iv = Z.of_nat (nao_cobertos_em iv (pontos p) (pontos_cobertos p)))
  ∧ (∀ iv, INT_MIN ≤ fim iv - inicio iv ≤ INT_MAX → tamanho iv = fim iv - inicio iv)
  ∧ ∃ a pt, ancora p a pt
    ∧ (((∀ iv, iv ∈ intervalos p → ponto_coberto_por_intervalo pt iv = false)
        ∧ corpo_laco p = Feito (Para p)
        ∧ ∀ fuel, laco (S fuel) p = Feito p)
       ∨ (∃ (k : nat) ivk p',
            encontrar_melhor_intervalo p (Z.of_nat a) = Feito (Z.of_nat k)
            ∧ escolha p pt k ivk
            ∧ corpo_laco p = Feito (Continua p')
            ∧ cobertura p' = cobertura p ++ [ivk])).
Proof.
  intros Hp Hn Halc Htodos.
  destruct (alcanca_ginv p0 p Hp Hn Halc) as (Hinv & Hi & Hpt).
  split; [intros iv; apply pot_spec; apply (g_pts _ Hinv)|].
  split; [intros iv Hiv; by apply wrap_int_id|].
  destruct (corpo_laco_spec p Hinv)
    as [[Heq _]|(_ & a & pt & Hanc
                 & [(_ & Hnone & Heq)|(k & ivk & Henc & Hesc & Hunc & Heq)])];
    [congruence| |]; exists a, pt; (split; [done|]).
  - left. split; [done|]. split; [done|]. intros fuel. simpl. by rewrite Heq.
  - right. exists k, ivk, (selecionar p ivk). do 3 (split; [done|]).
    destruct Hanc as (_ & Hpa & _). destruct Hesc as (Hk & Hck & _).
    destruct (ginv_selecionar p ivk pt Hinv) as (_ & _ & _ & _ & ? & _); try done;
      by eapply list_elem_of_lookup_2.
Qed.

Lemma escolha_gulosa_witness :
  ∃ a pt, ancora (preparar (instancia intervalos_pequeno_guloso pontos_pequeno)) a pt.
Proof.
  destruct (escolha_gulosa
              (instancia intervalos_pequeno_guloso pontos_pequeno)
              (preparar (instancia intervalos_pequeno_guloso pontos_pequeno)))
    as (_ & _ & a & pt & Hanc & _).
  - vm_compute. discriminate.
  - vm_compute. discriminate.
  - constructor.
  - reflexivity.
  - exists a, pt. exact Hanc.
Defined.

(** C10. The intervals of the greedy solution are pairwise distinct, so
    no index of the interval array stands at two places of it; the
    solution is no longer than the pool and no longer than the list of
    points; each turn of the loop that selects an interval raises the
    count of covered points; and the loop ends within the fuel
    [resolver_guloso] gives it. *)
Theorem solucao_gulosa_sem_repeticao ivs pts :
  Z.of_nat (length pts) ≤ INT_MAX → Z.of_nat (length ivs) ≤ INT_MAX →
  ∃ p' m,
    resolver_guloso (instancia ivs pts) = Feito (p', m)
    ∧ m_n_solucao m = Z.of_nat (length (cobertura p'))
    ∧ NoDup (cobertura p')
    ∧ (∀ (a b i : nat) iv, ivs !! i = Some iv →
         cobertura p' !! a = Some iv → cobertura p' !! b = Some iv → a = b)
    ∧ (∀ iv, iv ∈ cobertura p' → iv ∈ ivs)
    ∧ m_n_solucao m ≤ Z.of_nat (length ivs)
    ∧ m_n_solucao m ≤ Z.of_nat (length pts)
    ∧ (∀ p p'', alcanca (instancia ivs pts) p →
         corpo_laco p = Feito (Continua p'') →
         n_pontos_cobertos p < n_pontos_cobertos p'').
Proof.
  intros Hp Hn.
  destruct (resolver_guloso_resultado (instancia ivs pts) Hp Hn)
    as (p' & Heq & Halc & Hinv & Hi & Hpt & _).
  simpl in Hi, Hpt.
  eexists p', _. split; [exact Heq|].
  destruct Hinv as [Hmask Hcnt Hbuf Hlen Hin Hnd Hutil Hle Hpts Hnn].
  rewrite Hi in Hin. simpl.
  split; [done|]. split; [done|].
  split; [intros a b i iv _ Ha Hb; by eapply NoDup_lookup|].
  split; [done|].
  pose proof (submseteq_length _ _ (NoDup_submseteq _ _ Hnd Hin)) as Hsz.
  pose proof (contar_bounds (pontos_cobertos p')) as Hb.
  rewrite Hmask, mascara_length, <- Hmask, <- Hcnt, Hpt in Hb.
  split; [lia|]. split; [lia|].
  intros p p'' Halc' Hstep.
  destruct (alcanca_ginv (instancia ivs pts) p Hp Hn Halc') as (Hinv' & _).
  by destruct (ginv_continua p p'' Hinv' Hstep) as (_ & _ & _ & ? & _).
Qed.

Lemma solucao_gulosa_sem_repeticao_witness :
  ∃ p' m,
    resolver_guloso (instancia intervalos_pequeno_guloso pontos_pequeno)
    = Feito (p', m) ∧ NoDup (cobertura p').
Proof.
  destruct (solucao_gulosa_sem_repeticao intervalos_pequeno_guloso pontos_pequeno)
    as (p' & m & Heq & _ & Hnd & _).
  - vm_compute. discriminate.
  - vm_compute. discriminate.
  - exists p', m. split; [exact Heq | exact Hnd].
Defined.

End GL.

(** ** The two solvers together *)

(** The small scenario as each program sets it up. *)
Example cenario_pequeno_backtracking_ordenado :
  Backtracking.configurar_cenario_pequeno_backtracking
    Backtracking.inicializar_problema_backtracking
  = Backtracking.instancia intervalos_pequeno_backtracking pontos_pequeno.
Proof. reflexivity. Qed.

Example cenario_pequeno_guloso_ordenado :
  Guloso.configurar_cenario_pequeno Guloso.inicializar_problema
  = Guloso.instancia intervalos_pequeno_guloso pontos_pequeno.
Proof. reflexivity. Qed.

(** The scenario of the specification: the exact solver finds a cover of
    three intervals, the greedy solver one of three as well. *)
Example cenario_pequeno_backtracking :
  ∃ p' m,
    Backtracking.resolver_backtracking
      (Backtracking.instancia
         intervalos_pequeno_backtracking pontos_pequeno) = Feito (p', m)
    ∧ Backtracking.m_n_solucao m = 3
    ∧ Backtracking.cobertura p' = Some (ivs [(25, 42); (20, 35); (5, 18)]).
Proof. eexists _, _. split; [vm_compute; reflexivity|]. split; reflexivity. Qed.

Example cenario_pequeno_guloso :
  ∃ p' m,
    Guloso.resolver_guloso
      (Guloso.instancia intervalos_pequeno_guloso pontos_pequeno)
    = Feito (p', m)
    ∧ Guloso.m_n_solucao m = 3
    ∧ Guloso.todos_pontos_cobertos p' = true
    ∧ Guloso.cobertura p' = ivs [(3, 15); (20, 35); (30, 45)].
Proof. eexists _, _. split; [vm_compute; reflexivity|]. repeat split. Qed.

Section Solvers.

Implicit Types (ivs sel : list Intervalo) (pts : list Ponto).

(** A cover that no smaller selection from the pool replaces has no
    member that adds nothing to the ones before it. *)
Lemma minimo_util pts ivs c :
  c `sublist_of` ivs → cobertura_completa pts c →
  (∀ T, T `sublist_of` ivs → cobertura_completa pts T → (length c ≤ length T)%nat) →
  cada_escolha_util pts c.
Proof.
  intros Hsub Hcob Hmin i iv Hi.
  destruct (existsb (λ pt, ponto_coberto_por_intervalo pt iv
                           && negb (coberto_por (take i c) pt)) pts) eqn:Hex.
  - apply existsb_exists in Hex as (pt & Hin & Hpt).
    apply andb_true_iff in Hpt as [Hc Hn]. apply negb_true_iff in Hn.
    exists pt. split; [by apply list_elem_of_In|done].
  - exfalso.
    assert (cobertura_completa pts (delete i c)) as Hcob'.
    { intros pt Hin. pose proof (Hcob pt Hin) as Hpt.
      apply coberto_por_true in Hpt as (iv' & Hiv' & Hc').
      rewrite delete_take_drop. rewrite coberto_por_app.
      rewrite <- (take_drop_middle c i iv Hi) in Hiv'.
      apply elem_of_app in Hiv' as [Hl|Hr].
      - apply orb_true_iff. left. apply coberto_por_true. eauto.
      - apply elem_of_cons in Hr as [->|Hr].
        + apply orb_true_iff. left.
          destruct (coberto_por (take i c) pt) eqn:Hprev; [done|].
          assert (existsb (λ pt, ponto_coberto_por_intervalo pt iv
                                 && negb (coberto_por (take i c) pt)) pts = true)
            as Hex'; [|congruence].
          apply existsb_exists. exists pt. split; [by apply list_elem_of_In|].
          by rewrite Hc', Hprev.
        + apply orb_true_iff. right. apply coberto_por_true. eauto. }
    assert (delete i c `sublist_of` ivs) as Hsub'
      by (etrans; [apply sublist_delete|done]).
    specialize (Hmin _ Hsub' Hcob').
    pose proof (lookup_lt_Some _ _ _ Hi).
    rewrite length_delete in Hmin by eauto. lia.
Qed.

(** C2. On an instance that some selection of the intervals covers, each
    solver being given the intervals in an order of its own, the size the
    exact solver reports is at most the size the greedy solver reports. *)
Theorem exato_nao_maior_que_guloso ivs_b ivs_g pts :
  ivs_b ≡ₚ ivs_g →
  pts ≠ [] →
  Z.of_nat (length ivs_b) < INT_MAX → Z.of_nat (length pts) ≤ INT_MAX →
  (∃ T, T `sublist_of` ivs_b ∧ cobertura_completa pts T) →
  ∃ p' m g' n,
    Backtracking.resolver_backtracking
      (Backtracking.instancia ivs_b pts) = Feito (p', m)
    ∧ Guloso.resolver_guloso (Guloso.instancia ivs_g pts) = Feito (g', n)
    ∧ Backtracking.m_n_solucao m ≤ Guloso.m_n_solucao n.
Proof.
  intros Hperm Hne Hn Hp (T0 & HT0 & Hcob0).
  destruct (BT.resolver_backtracking_resultado
              (Backtracking.instancia ivs_b pts))
    as (p' & Heq & _ & _ & _ & _ & _ & Hcompl);
    [by apply BT.bem_formado_inicial|done|].
  destruct (GL.resolver_guloso_resultado (Guloso.instancia ivs_g pts))
    as (g' & Heqg & _ & Hinv & Hi & Hpt & Hfim).
  { done. }
  { unfold Guloso.n_intervalos. simpl. rewrite <- Hperm. lia. }
  simpl in *. eexists p', _, g', _. split; [exact Heq|]. split; [exact Heqg|]. simpl.
  destruct Hfim as [Htodos|(_ & pt & Hin & Hfora)].
  - apply (GL.todos_pontos_cobertos_spec _ Hinv) in Htodos. rewrite Hpt in Htodos.
    assert (Guloso.cobertura g' ⊆+ ivs_b) as Hsub.
    { apply NoDup_submseteq; [apply (Guloso.g_nodup _ Hinv)|].
      intros iv Hiv. rewrite Hperm, <- Hi. by apply (Guloso.g_in _ Hinv). }
    apply submseteq_sublist_r in Hsub as (l2 & Hl2 & Hsub).
    assert (cobertura_completa pts l2) as Hcob2.
    { eapply cobertura_completa_mono; [|exact Htodos]. intros iv. by rewrite Hl2. }
    specialize (Hcompl l2 Hsub Hcob2).
    rewrite <- Hl2, (Guloso.g_len _ Hinv) in Hcompl. done.
  - exfalso.
    apply (ponto_fora_sem_cobertura pts ivs_g T0 pt Hin Hfora); [|done].
    intros iv Hiv. rewrite <- Hperm. by eapply sublist_elem_of_l.
Qed.

Lemma exato_nao_maior_que_guloso_witness :
  ∃ p' m g' n,
    Backtracking.resolver_backtracking
      (Backtracking.instancia
         intervalos_pequeno_backtracking pontos_pequeno) = Feito (p', m)
    ∧ Guloso.resolver_guloso
        (Guloso.instancia intervalos_pequeno_guloso pontos_pequeno)
      = Feito (g', n)
    ∧ Backtracking.m_n_solucao m ≤ Guloso.m_n_solucao n.
Proof.
  apply exato_nao_maior_que_guloso.
  - apply (bool_decide_unpack _). vm_compute. reflexivity.
  - discriminate.
  - vm_compute. reflexivity.
  - vm_compute. discriminate.
  - exists (ivs [(25, 42); (20, 35); (5, 18)]). split.
    + unfold intervalos_pequeno_backtracking, ivs. simpl.
      repeat first [apply sublist_nil | apply sublist_skip | apply sublist_cons].
    + apply cobertura_completab_iff. vm_compute. reflexivity.
Defined.

Example intervalos_tres_ordenado :
  qsort Backtracking.comparar_intervalos_backtracking intervalos_tres = intervalos_tres.
Proof. reflexivity. Qed.

(** C3, as it stands, fails: on [intervalos_tres] and [pontos_dois] the
    first solve visits 9 nodes and leaves [n_melhor_solucao] at 1; the
    second solve of the same problem starts from that bound and visits 4. *)
Lemma segunda_resolucao_visita_menos_nos : ¬ repetivel intervalos_tres pontos_dois.
Proof.
  intros Hrep.
  let v := eval vm_compute in
    (Backtracking.resolver_backtracking
       (Backtracking.instancia intervalos_tres pontos_dois)) in
  assert (Backtracking.resolver_backtracking
            (Backtracking.instancia intervalos_tres pontos_dois)
          = v) as E1 by (vm_compute; reflexivity).
  match type of E1 with
  | _ = Feito (?p1, _) =>
      let v := eval vm_compute in (Backtracking.resolver_backtracking p1) in
      assert (Backtracking.resolver_backtracking p1 = v) as E2
        by (vm_compute; reflexivity)
  end.
  destruct (Hrep _ _ _ _ E1 E2) as [_ Hnos].
  vm_compute in Hnos. discriminate.
Qed.

(** C3, amended.  Two solves in a row of one problem give the same cover
    and the same size, for the exact solver and for the greedy one; the
    greedy solver gives the same state and metrics altogether.  A solve of
    the exact solver depends on the problem it is given through the
    intervals, the points and the best solution ([melhor_solucao],
    [n_melhor_solucao]) only, so that two solves that both start from the
    state [inicializar_problema_backtracking] sets up agree on the node
    count as well. *)
Theorem resolver_duas_vezes ivs_b ivs_g pts :
  pts ≠ [] →
  Z.of_nat (length ivs_b) < INT_MAX → Z.of_nat (length ivs_g) ≤ INT_MAX →
  Z.of_nat (length pts) ≤ INT_MAX →
  (∃ p1 m1 p2 m2,
     Backtracking.resolver_backtracking
       (Backtracking.instancia ivs_b pts) = Feito (p1, m1)
     ∧ Backtracking.resolver_backtracking p1 = Feito (p2, m2)
     ∧ Backtracking.cobertura p2 = Backtracking.cobertura p1
     ∧ Backtracking.m_n_solucao m2 = Backtracking.m_n_solucao m1)
  ∧ (∀ q q',
       Backtracking.intervalos q = Backtracking.intervalos q' →
       Backtracking.pontos q = Backtracking.pontos q' →
       Backtracking.melhor_solucao q = Backtracking.melhor_solucao q' →
       Backtracking.n_melhor_solucao q = Backtracking.n_melhor_solucao q' →
       Backtracking.resolver_backtracking q = Backtracking.resolver_backtracking q')
  ∧ (∃ g1 n1,
       Guloso.resolver_guloso (Guloso.instancia ivs_g pts) = Feito (g1, n1)
       ∧ Guloso.resolver_guloso g1 = Feito (g1, n1)).
Proof.
  intros Hne Hn Hng Hp. split; [|split].
  - destruct (BT.resolver_backtracking_resultado
                (Backtracking.instancia ivs_b pts))
      as (p1 & Heq1 & Hi1 & Hp1 & _ & Hbf1 & Hbest1 & Hcompl1);
      [by apply BT.bem_formado_inicial|done|].
    simpl in Hi1, Hp1, Hcompl1.
    destruct (BT.resolver_backtracking_resultado p1)
      as (p2 & Heq2 & _ & _ & _ & _ & Hbest2 & _); [done|by rewrite Hp1|].
    eexists p1, _, p2, _. split; [exact Heq1|]. split; [exact Heq2|]. simpl.
    destruct Hbest2 as [[Hn2 Hm2]|(Hlt & Hsub & Hsz & Hcob)].
    + split; [|done]. unfold Backtracking.cobertura, Backtracking.melhor.
      by rewrite Hn2, Hm2.
    + rewrite Hi1 in Hsub. rewrite Hp1 in Hcob.
      specialize (Hcompl1 _ Hsub Hcob). lia.
  - intros [] [] Hi Hpt Hm Hnm. simpl in *. subst.
    reflexivity.
  - destruct (GL.resolver_guloso_resultado (Guloso.instancia ivs_g pts))
      as (g1 & Heq & _ & _ & Hi & Hpt & _); [done|done|].
    simpl in Hi, Hpt. eexists g1, _. split; [exact Heq|].
    rewrite <- Heq. unfold Guloso.resolver_guloso, Guloso.preparar.
    rewrite Hi, Hpt. reflexivity.
Qed.

Lemma resolver_duas_vezes_witness :
  ∃ p1 m1 p2 m2,
    Backtracking.resolver_backtracking
      (Backtracking.instancia intervalos_tres pontos_dois)
    = Feito (p1, m1)
    ∧ Backtracking.resolver_backtracking p1 = Feito (p2, m2)
    ∧ Backtracking.cobertura p2 = Backtracking.cobertura p1
    ∧ Backtracking.m_n_solucao m2 = Backtracking.m_n_solucao m1.
Proof.
  apply (resolver_duas_vezes intervalos_tres intervalos_tres pontos_dois).
  - discriminate.
  - vm_compute. reflexivity.
  - vm_compute. discriminate.
  - vm_compute. discriminate.
Defined.

(** C4. The cover the greedy solver returns with every point marked, and
    the cover the exact solver returns with a size other than the
    sentinel, hold every point of the instance; and each interval of
    either cover holds a point that the intervals before it in the cover
    do not hold. *)
Theorem cobertura_valida ivs_b ivs_g pts :
  pts ≠ [] →
  Z.of_nat (length ivs_b) < INT_MAX → Z.of_nat (length ivs_g) ≤ INT_MAX →
  Z.of_nat (length pts) ≤ INT_MAX →
  (∃ g' n,
     Guloso.resolver_guloso (Guloso.instancia ivs_g pts) = Feito (g', n)
     ∧ (Guloso.todos_pontos_cobertos g' = true →
        cobertura_completa pts (Guloso.cobertura g'))
     ∧ cada_escolha_util pts (Guloso.cobertura g'))
  ∧ (∃ p' m,
       Backtracking.resolver_backtracking
         (Backtracking.instancia ivs_b pts) = Feito (p', m)
       ∧ ∀ c, Backtracking.cobertura p' = Some c →
           cobertura_completa pts c ∧ cada_escolha_util pts c).
Proof.
  intros Hne Hn Hng Hp. split.
  - destruct (GL.resolver_guloso_resultado (Guloso.instancia ivs_g pts))
      as (g' & Heq & _ & Hinv & Hi & Hpt & _); [done|done|].
    simpl in Hi, Hpt. eexists g', _. split; [exact Heq|].
    pose proof (Guloso.g_util _ Hinv) as Hutil. rewrite Hpt in Hutil.
    split; [|done]. intros Htodos.
    apply (GL.todos_pontos_cobertos_spec _ Hinv) in Htodos. by rewrite Hpt in Htodos.
  - destruct (BT.resolver_backtracking_resultado
                (Backtracking.instancia ivs_b pts))
      as (p' & Heq & _ & _ & _ & _ & Hbest & Hcompl);
      [by apply BT.bem_formado_inicial|done|].
    simpl in *. eexists p', _. split; [exact Heq|].
    intros c Hc. unfold Backtracking.cobertura in Hc.
    destruct (Z.eqb_spec (Backtracking.n_melhor_solucao p') INT_MAX) as [|Hneq];
      [discriminate|]. injection Hc as <-.
    destruct Hbest as [[? _]|(Hlt & Hsub & Hsz & Hcob)]; [done|].
    split; [done|]. apply (minimo_util pts ivs_b); [done|done|].
    intros T HT HcT. specialize (Hcompl T HT HcT). lia.
Qed.

Lemma cobertura_valida_witness :
  ∃ g' n,
    Guloso.resolver_guloso
      (Guloso.instancia intervalos_pequeno_guloso pontos_pequeno)
    = Feito (g', n)
    ∧ (Guloso.todos_pontos_cobertos g' = true →
       cobertura_completa pontos_pequeno (Guloso.cobertura g'))
    ∧ cada_escolha_util pontos_pequeno (Guloso.cobertura g').
Proof.
  apply (cobertura_valida intervalos_pequeno_backtracking
           intervalos_pequeno_guloso pontos_pequeno).
  - discriminate.
  - vm_compute. reflexivity.
  - vm_compute. discriminate.
  - vm_compute. discriminate.
Defined.

(** C6. With a point that lies in no interval, both solvers return: the
    exact one with [n_melhor_solucao] still at [INT_MAX], which it also
    reports as the size, and no cover; the greedy one with not all points
    marked, and a solution that is not a complete cover. *)
Theorem ponto_fora_de_todos ivs_b ivs_g pts pt :
  Z.of_nat (length ivs_b) < INT_MAX → Z.of_nat (length ivs_g) ≤ INT_MAX →
  Z.of_nat (length pts) ≤ INT_MAX →
  pt ∈ pts →
  (∀ iv, iv ∈ ivs_b → ponto_coberto_por_intervalo pt iv = false) →
  (∀ iv, iv ∈ ivs_g → ponto_coberto_por_intervalo pt iv = false) →
  (∃ p' m,
     Backtracking.resolver_backtracking
       (Backtracking.instancia ivs_b pts) = Feito (p', m)
     ∧ Backtracking.n_melhor_solucao p' = INT_MAX
     ∧ Backtracking.m_n_solucao m = INT_MAX
     ∧ Backtracking.cobertura p' = None)
  ∧ (∃ g' n,
       Guloso.resolver_guloso (Guloso.instancia ivs_g pts) = Feito (g', n)
       ∧ Guloso.todos_pontos_cobertos g' = false
       ∧ ¬ cobertura_completa pts (Guloso.cobertura g')).
Proof.
  intros Hn Hng Hp Hin Hfb Hfg. split.
  - destruct (BT.resolver_backtracking_resultado
                (Backtracking.instancia ivs_b pts))
      as (p' & Heq & _ & _ & _ & _ & Hbest & _).
    { by apply BT.bem_formado_inicial. }
    { simpl. intros ->. by apply elem_of_nil in Hin. }
    simpl in *. eexists p', _. split; [exact Heq|]. simpl.
    destruct Hbest as [[Hnm _]|(_ & Hsub & _ & Hcob)].
    + do 2 (split; [done|]). unfold Backtracking.cobertura.
      by rewrite Hnm, Z.eqb_refl.
    + exfalso.
      apply (ponto_fora_sem_cobertura pts ivs_b (Backtracking.melhor p') pt Hin Hfb);
        [intros iv; by apply sublist_elem_of_l | done].
  - destruct (GL.resolver_guloso_resultado (Guloso.instancia ivs_g pts))
      as (g' & Heq & _ & Hinv & Hi & Hpt & _); [done|done|].
    simpl in Hi, Hpt. eexists g', _. split; [exact Heq|].
    assert (¬ cobertura_completa pts (Guloso.cobertura g')) as Hnc.
    { apply (ponto_fora_sem_cobertura pts ivs_g (Guloso.cobertura g') pt Hin Hfg).
      intros iv Hiv. rewrite <- Hi. by apply (Guloso.g_in _ Hinv). }
    split; [|done].
    destruct (Guloso.todos_pontos_cobertos g') eqn:Htodos; [|done].
    apply (GL.todos_pontos_cobertos_spec _ Hinv) in Htodos. by rewrite Hpt in Htodos.
Qed.

Lemma ponto_fora_de_todos_witness :
  ∃ p' m,
    Backtracking.resolver_backtracking
      (Backtracking.instancia
         intervalos_pequeno_backtracking (pts [5; 50])) = Feito (p', m)
    ∧ Backtracking.n_melhor_solucao p' = INT_MAX
    ∧ Backtracking.m_n_solucao m = INT_MAX
    ∧ Backtracking.cobertura p' = None.
Proof.
  apply (ponto_fora_de_todos intervalos_pequeno_backtracking intervalos_pequeno_guloso
           (pts [5; 50]) {| id := 2; posicao := 50 |}).
  - vm_compute. reflexivity.
  - vm_compute. discriminate.
  - vm_compute. discriminate.
  - apply (bool_decide_unpack _). vm_compute. reflexivity.
  - apply Forall_forall. apply (bool_decide_unpack _). vm_compute. reflexivity.
  - apply Forall_forall. apply (bool_decide_unpack _). vm_compute. reflexivity.
Defined.

(** *** The quality ratio *)

Lemma proxima_spec n total :
  proxima n total = true → razao_proxima (qualidade n total) n total.
Proof.
  unfold proxima, razao_proxima.
  destruct (valor (qualidade n total)) as [v|]; [|discriminate].
  intros Hle. exists v. split; [done|]. by apply Qle_bool_iff.
Qed.

(** The test succeeds on every pool of up to 256 intervals and every
    solution size up to the size of the pool. *)
Lemma tabela_proxima :
  forallb (λ n_intervalos,
             forallb (λ n_solucao, proxima n_solucao n_intervalos)
               (seqZ 0 (n_intervalos + 1)))
    (seqZ 1 256) = true.
Proof. vm_cast_no_check (@eq_refl bool true). Qed.

Lemma forallb_forallb {A B} (f : B → A → bool) (g : A → list B) (l : list A) :
  forallb (λ a, forallb (λ b, f b a) (g a)) l = true →
  ∀ a, In a l → ∀ b, In b (g a) → f b a = true.
Proof.
  intros H a Ha b Hb.
  exact (proj1 (forallb_forall (λ b, f b a) (g a))
           (proj1 (forallb_forall _ l) H a Ha) b Hb).
Qed.

Lemma elem_of_seqZ_2 (m n x : Z) : m ≤ x < m + n → In x (seqZ m n).
Proof.
  intros Hx. apply list_elem_of_In, list_elem_of_lookup.
  exists (Z.to_nat (x - m)). apply lookup_seqZ. lia.
Qed.

(** On a pool of at most 256 intervals, what [qualidade] computes for a
    solution drawn from the pool is within [2^-53] of the ratio. *)
Lemma qualidade_proxima n total :
  0 < total ≤ 256 → 0 ≤ n ≤ total →
  razao_proxima (qualidade n total) n total.
Proof.
  intros Ht Hn. apply proxima_spec.
  apply (forallb_forallb proxima (λ t, seqZ 0 (t + 1)) (seqZ 1 256)
           tabela_proxima).
  - apply elem_of_seqZ_2. lia.
  - apply elem_of_seqZ_2. lia.
Qed.

(** C7, as it stands, fails: on the small scenario the greedy solver uses
    3 of the 10 intervals, and the ratio it reports is the [double]
    6305039478318694 * 2^-53, which is not 7/10. *)
Lemma qualidade_nao_exata :
  ¬ qualidade_exata intervalos_pequeno_backtracking intervalos_pequeno_guloso
      pontos_pequeno.
Proof.
  intros [Hg _].
  let v := eval vm_compute in
    (Guloso.resolver_guloso
       (Guloso.instancia intervalos_pequeno_guloso pontos_pequeno)) in
  assert (Guloso.resolver_guloso
            (Guloso.instancia intervalos_pequeno_guloso pontos_pequeno) = v) as E
    by (vm_compute; reflexivity).
  destruct (Hg _ _ E) as (v & Hv & Hq).
  vm_compute in Hv. injection Hv as <-.
  vm_compute in Hq. discriminate.
Qed.

(** C7, amended.  With a pool that is not empty, the quality ratio a
    solver reports is [1.0 - ((double)n / total)] computed in [double]s,
    [n] being the solution size it reports and [total] the size of the
    pool.  On a pool of at most 256 intervals that number is within
    [2^-53] of the ratio [1 - n / total]; for the exact solver, where it
    has found a cover. *)
Theorem qualidade_em_double ivs_b ivs_g pts :
  pts ≠ [] →
  0 < Z.of_nat (length ivs_b) < INT_MAX → 0 < Z.of_nat (length ivs_g) ≤ INT_MAX →
  Z.of_nat (length pts) ≤ INT_MAX →
  (∃ g' n,
     Guloso.resolver_guloso (Guloso.instancia ivs_g pts) = Feito (g', n)
     ∧ Guloso.m_qualidade n
       = PrimFloat.sub PrimFloat.one
           (PrimFloat.div (double_of_int (Guloso.m_n_solucao n))
              (double_of_int (Z.of_nat (length ivs_g))))
     ∧ (Z.of_nat (length ivs_g) ≤ 256 →
        razao_proxima (Guloso.m_qualidade n) (Guloso.m_n_solucao n)
          (Z.of_nat (length ivs_g))))
  ∧ (∃ p' m,
       Backtracking.resolver_backtracking (Backtracking.instancia ivs_b pts)
       = Feito (p', m)
       ∧ Backtracking.m_qualidade m
         = PrimFloat.sub PrimFloat.one
             (PrimFloat.div (double_of_int (Backtracking.m_n_solucao m))
                (double_of_int (Z.of_nat (length ivs_b))))
       ∧ (Z.of_nat (length ivs_b) ≤ 256 →
          Backtracking.m_n_solucao m ≠ INT_MAX →
          razao_proxima (Backtracking.m_qualidade m) (Backtracking.m_n_solucao m)
            (Z.of_nat (length ivs_b)))).
Proof.
  intros Hne Hn Hng Hp. split.
  - destruct (GL.resolver_guloso_resultado (Guloso.instancia ivs_g pts))
      as (g' & Heq & _ & Hinv & Hi & Hpt & _); [done|unfold Guloso.n_intervalos; simpl; lia|].
    simpl in Hi, Hpt. eexists g', _. split; [exact Heq|].
    cbn [Guloso.m_qualidade Guloso.m_n_solucao].
    unfold Guloso.n_intervalos. rewrite Hi.
    assert (qualidade (Guloso.n_solucao g') (Z.of_nat (length ivs_g))
            = PrimFloat.sub PrimFloat.one
                (PrimFloat.div (double_of_int (Guloso.n_solucao g'))
                   (double_of_int (Z.of_nat (length ivs_g))))) as Hq.
    { unfold qualidade.
      by destruct (Z.gtb_spec (Z.of_nat (length ivs_g)) 0); [|lia]. }
    split; [exact Hq|]. intros Hmax.
    apply qualidade_proxima; [lia|].
    pose proof (GL.ginv_tamanho _ Hinv) as Hsz.
    unfold Guloso.n_intervalos in Hsz. rewrite Hi in Hsz. done.
  - destruct (BT.resolver_backtracking_resultado (Backtracking.instancia ivs_b pts))
      as (p' & Heq & Hi & _ & _ & _ & Hbest & _);
      [apply BT.bem_formado_inicial; lia|done|].
    simpl in *. eexists p', _. split; [exact Heq|].
    cbn [Backtracking.m_qualidade Backtracking.m_n_solucao].
    unfold Backtracking.n_intervalos. rewrite Hi.
    assert (qualidade (Backtracking.n_melhor_solucao p') (Z.of_nat (length ivs_b))
            = PrimFloat.sub PrimFloat.one
                (PrimFloat.div (double_of_int (Backtracking.n_melhor_solucao p'))
                   (double_of_int (Z.of_nat (length ivs_b))))) as Hq.
    { unfold qualidade.
      by destruct (Z.gtb_spec (Z.of_nat (length ivs_b)) 0); [|lia]. }
    split; [exact Hq|]. intros Hmax Hfound.
    apply qualidade_proxima; [lia|].
    destruct Hbest as [[? _]|(_ & Hsub & Hsz & _)]; [done|].
    pose proof (sublist_length _ _ Hsub). lia.
Qed.

Lemma qualidade_em_double_witness :
  (∃ g' n,
     Guloso.resolver_guloso
       (Guloso.instancia intervalos_pequeno_guloso pontos_pequeno) = Feito (g', n)
     ∧ razao_proxima (Guloso.m_qualidade n) (Guloso.m_n_solucao n) 10)
  ∧ (∃ p' m,
       Backtracking.resolver_backtracking
         (Backtracking.instancia intervalos_pequeno_backtracking pontos_pequeno)
       = Feito (p', m)
       ∧ razao_proxima (Backtracking.m_qualidade m) (Backtracking.m_n_solucao m) 10).
Proof.
  destruct (qualidade_em_double intervalos_pequeno_backtracking
              intervalos_pequeno_guloso pontos_pequeno)
    as [(g' & n & Hg & _ & Hgp) (p' & m & Hb & _ & Hbp)].
  - discriminate.
  - vm_compute. split; reflexivity.
  - vm_compute. split; [reflexivity|discriminate].
  - vm_compute. discriminate.
  - split.
    + exists g', n. split; [exact Hg|]. apply Hgp. vm_compute. discriminate.
    + exists p', m. split; [exact Hb|]. apply Hbp.
      * vm_compute. discriminate.
      * let v := eval vm_compute in
          (Backtracking.resolver_backtracking
             (Backtracking.instancia
                intervalos_pequeno_backtracking pontos_pequeno)) in
        assert (Backtracking.resolver_backtracking
                  (Backtracking.instancia
                     intervalos_pequeno_backtracking pontos_pequeno) = v) as E
          by (vm_compute; reflexivity).
        rewrite E in Hb. injection Hb as _ <-. vm_compute. discriminate.
Defined.

(** C8. Both coverage predicates hold exactly of the points whose
    position lies between [inicio] and [fim], the two ends included; the
    point at 12 lies in [0, 12]. *)
Theorem ponto_coberto_intervalo_fechado :
  (∀ pt iv, ponto_coberto_por_intervalo pt iv = true
            ↔ inicio iv ≤ posicao pt ≤ fim iv)
  ∧ (∀ pt iv, ponto_coberto_por_intervalo_backtracking pt iv = true
              ↔ inicio iv ≤ posicao pt ≤ fim iv)
  ∧ (∀ pt iv, inicio iv ≤ fim iv →
       posicao pt = inicio iv ∨ posicao pt = fim iv →
       ponto_coberto_por_intervalo pt iv = true
       ∧ ponto_coberto_por_intervalo_backtracking pt iv = true)
  ∧ (∀ i, ponto_coberto_por_intervalo {| id := i; posicao := 12 |}
            {| inicio := 0; fim := 12 |} = true).
Proof.
  split; [exact ponto_coberto_iff|]. split; [exact ponto_coberto_iff|]. split.
  - intros pt iv Hle Hpos. split; apply ponto_coberto_iff; lia.
  - intros i. reflexivity.
Qed.

End Solvers.

(** ** The arrays [qsort] leaves *)

Section Ordem.

Context {A : Type} (cmp : A → A → Z).

Lemma inserir_perm x l : inserir cmp x l ≡ₚ x :: l.
Proof.
  induction l as [|y l IH]; simpl; [done|].
  destruct (cmp x y <=? 0); [done|].
  rewrite IH. apply Permutation_swap.
Qed.

Lemma qsort_perm l : qsort cmp l ≡ₚ l.
Proof.
  induction l as [|x l IH]; simpl; [done|].
  rewrite inserir_perm. by constructor.
Qed.

(** Two arrays of the same entries, both in the order of a comparator
    under which no two distinct entries compare equal, are one array. *)
Lemma ordenado_unico l1 : ∀ l2,
  (∀ a b, a ∈ l1 → b ∈ l1 → cmp a b ≤ 0 → cmp b a ≤ 0 → a = b) →
  l1 ≡ₚ l2 → ordenado cmp l1 → ordenado cmp l2 → l1 = l2.
Proof.
  induction l1 as [|x l1 IH]; intros l2 Hanti Hperm Ho1 Ho2.
  - by apply Permutation_nil_l in Hperm.
  - destruct l2 as [|y l2]; [by apply Permutation_nil_r in Hperm|].
    destruct Ho1 as [Hx Ho1]. destruct Ho2 as [Hy Ho2].
    assert (x = y) as <-.
    { assert (y ∈ x :: l1) as Hyin by (rewrite Hperm; left).
      assert (x ∈ y :: l2) as Hxin by (rewrite <- Hperm; left).
      apply elem_of_cons in Hyin as [->|Hyin]; [done|].
      apply elem_of_cons in Hxin as [->|Hxin]; [done|].
      rewrite Forall_forall in Hx, Hy.
      apply Hanti; [left | by right | by apply Hx | by apply Hy]. }
    f_equal. apply IH; [|by apply Permutation_cons_inv in Hperm|done|done].
    intros a b Ha Hb. apply Hanti; by right.
Qed.

Hypothesis cmp_total : ∀ a b, cmp a b ≤ 0 ∨ cmp b a ≤ 0.
Hypothesis cmp_trans : ∀ a b c, cmp a b ≤ 0 → cmp b c ≤ 0 → cmp a c ≤ 0.

Lemma inserir_ordenado x l : ordenado cmp l → ordenado cmp (inserir cmp x l).
Proof.
  induction l as [|y l IH]; simpl.
  - intros _. split; [constructor | done].
  - intros [Hy Ho]. destruct (Z.leb_spec (cmp x y) 0) as [Hle|Hgt]; simpl.
    + split; [|done]. constructor; [done|].
      eapply Forall_impl; [exact Hy|]. intros z Hz. by eapply cmp_trans.
    + split; [|by apply IH].
      rewrite inserir_perm. constructor; [|done].
      destruct (cmp_total x y); [lia | done].
Qed.

Lemma qsort_ordenado l : ordenado cmp (qsort cmp l).
Proof.
  induction l as [|x l IH]; simpl; [done|]. by apply inserir_ordenado.
Qed.

End Ordem.

Lemma comparar_intervalos_le a b :
  Guloso.comparar_intervalos a b ≤ 0
  ↔ fim a < fim b ∨ (fim a = fim b ∧ inicio a ≤ inicio b).
Proof.
  unfold Guloso.comparar_intervalos.
  destruct (Z.ltb_spec (fim a) (fim b)); [lia|].
  destruct (Z.gtb_spec (fim a) (fim b)); [lia|].
  destruct (Z.ltb_spec (inicio a) (inicio b)); [lia|].
  destruct (Z.gtb_spec (inicio a) (inicio b)); lia.
Qed.

Lemma comparar_intervalos_backtracking_le a b :
  Backtracking.comparar_intervalos_backtracking a b ≤ 0
  ↔ Guloso.tamanho b < Guloso.tamanho a
    ∨ (Guloso.tamanho a = Guloso.tamanho b ∧ inicio a ≤ inicio b).
Proof.
  unfold Backtracking.comparar_intervalos_backtracking, Guloso.tamanho. cbv zeta.
  destruct (Z.gtb_spec (int_sub (fim a) (inicio a)) (int_sub (fim b) (inicio b))); [lia|].
  destruct (Z.ltb_spec (int_sub (fim a) (inicio a)) (int_sub (fim b) (inicio b))); [lia|].
  destruct (Z.ltb_spec (inicio a) (inicio b)); [lia|].
  destruct (Z.gtb_spec (inicio a) (inicio b)); lia.
Qed.

Lemma comparar_pontos_le a b :
  comparar_pontos a b ≤ 0 ↔ posicao a ≤ posicao b.
Proof.
  unfold comparar_pontos.
  destruct (Z.ltb_spec (posicao a) (posicao b)); [lia|].
  destruct (Z.gtb_spec (posicao a) (posicao b)); lia.
Qed.

(** The wrapped difference of two [int]s tells them apart. *)
Lemma int_sub_inj a b c :
  valor_int a → valor_int b → valor_int c →
  int_sub a c = int_sub b c → a = b.
Proof.
  unfold valor_int, int_sub, wrap_int, INT_MIN, INT_MAX. intros Ha Hb Hc Heq.
  assert ((a - c + 2147483648) mod 4294967296 = (b - c + 2147483648) mod 4294967296)
    as Hmod by lia.
  pose proof (Z.div_mod (a - c + 2147483648) 4294967296 ltac:(lia)) as Ea.
  pose proof (Z.div_mod (b - c + 2147483648) 4294967296 ltac:(lia)) as Eb.
  pose proof (Z.mod_pos_bound (a - c + 2147483648) 4294967296 ltac:(lia)).
  pose proof (Z.mod_pos_bound (b - c + 2147483648) 4294967296 ltac:(lia)).
  lia.
Qed.

Lemma ordenado_lookup {A} (cmp : A → A → Z) l : ∀ (i j : nat) x y,
  ordenado cmp l → (i < j)%nat → l !! i = Some x → l !! j = Some y → cmp x y ≤ 0.
Proof.
  induction l as [|z l IH]; intros i j x y Ho Hij Hi Hj; [done|].
  destruct Ho as [Hz Ho]. destruct j as [|j]; [lia|]. simpl in Hj.
  destruct i as [|i]; simpl in Hi.
  - injection Hi as ->. rewrite Forall_forall in Hz.
    apply Hz. by eapply list_elem_of_lookup_2.
  - apply (IH i j); [done | lia | done | done].
Qed.

Lemma comparar_intervalos_total a b :
  Guloso.comparar_intervalos a b ≤ 0 ∨ Guloso.comparar_intervalos b a ≤ 0.
Proof. rewrite !comparar_intervalos_le. lia. Qed.

Lemma comparar_intervalos_trans a b c :
  Guloso.comparar_intervalos a b ≤ 0 → Guloso.comparar_intervalos b c ≤ 0 →
  Guloso.comparar_intervalos a c ≤ 0.
Proof. rewrite !comparar_intervalos_le. lia. Qed.

Lemma comparar_intervalos_backtracking_total a b :
  Backtracking.comparar_intervalos_backtracking a b ≤ 0
  ∨ Backtracking.comparar_intervalos_backtracking b a ≤ 0.
Proof. rewrite !comparar_intervalos_backtracking_le. lia. Qed.

Lemma comparar_intervalos_backtracking_trans a b c :
  Backtracking.comparar_intervalos_backtracking a b ≤ 0 →
  Backtracking.comparar_intervalos_backtracking b c ≤ 0 →
  Backtracking.comparar_intervalos_backtracking a c ≤ 0.
Proof. rewrite !comparar_intervalos_backtracking_le. lia. Qed.

(** X1. [qsort] under [comparar_intervalos], as the scenarios of the
    greedy program call it, leaves the intervals it was given with [fim]
    ascending and, where [fim] is the same, [inicio] ascending.  Two
    intervals compare equal only when they are one interval, so that
    arrangement is the only one: the array does not depend on the way
    [qsort] sorts. *)
Theorem qsort_comparar_intervalos l :
  qsort Guloso.comparar_intervalos l ≡ₚ l
  ∧ (∀ (i j : nat) a b, (i < j)%nat →
       qsort Guloso.comparar_intervalos l !! i = Some a →
       qsort Guloso.comparar_intervalos l !! j = Some b →
       fim a < fim b ∨ (fim a = fim b ∧ inicio a ≤ inicio b))
  ∧ (∀ a b, Guloso.comparar_intervalos a b = 0 ↔ a = b)
  ∧ ∀ l', l' ≡ₚ l → ordenado Guloso.comparar_intervalos l' →
          l' = qsort Guloso.comparar_intervalos l.
Proof.
  assert (∀ a b, Guloso.comparar_intervalos a b ≤ 0 →
                 Guloso.comparar_intervalos b a ≤ 0 → a = b) as Hanti.
  { intros [ia fa] [ib fb]. rewrite !comparar_intervalos_le. simpl.
    intros H1 H2. f_equal; lia. }
  pose proof (qsort_ordenado _ comparar_intervalos_total comparar_intervalos_trans l)
    as Hord.
  split; [apply qsort_perm|]. split; [|split].
  - intros i j a b Hij Ha Hb. apply comparar_intervalos_le.
    apply (ordenado_lookup _ _ i j a b Hord Hij Ha Hb).
  - intros a b. split.
    + intros H0. apply Hanti; [lia|].
      revert H0. unfold Guloso.comparar_intervalos.
      destruct (Z.ltb_spec (fim a) (fim b)); [lia|].
      destruct (Z.gtb_spec (fim a) (fim b)); [lia|].
      destruct (Z.ltb_spec (inicio a) (inicio b)); [lia|].
      destruct (Z.gtb_spec (inicio a) (inicio b)); [lia|].
      intros _. apply comparar_intervalos_le. lia.
    + intros <-. unfold Guloso.comparar_intervalos.
      rewrite !Z.ltb_irrefl.
      destruct (Z.gtb_spec (fim a) (fim a)); [lia|].
      destruct (Z.gtb_spec (inicio a) (inicio a)); [lia|done].
  - intros l' Hperm Ho. apply (ordenado_unico Guloso.comparar_intervalos); try done.
    + intros a b _ _. apply Hanti.
    + by rewrite qsort_perm.
Qed.

(** X2. [qsort] under [comparar_intervalos_backtracking], as the
    scenarios of the exact program call it, leaves the intervals with
    [fim - inicio] descending and, where that is the same, [inicio]
    ascending; [fim - inicio] is the subtraction of the program.  With
    ends that are [int]s, that arrangement is the only one. *)
Theorem qsort_comparar_intervalos_backtracking l :
  Forall intervalo_int l →
  qsort Backtracking.comparar_intervalos_backtracking l ≡ₚ l
  ∧ (∀ (i j : nat) a b, (i < j)%nat →
       qsort Backtracking.comparar_intervalos_backtracking l !! i = Some a →
       qsort Backtracking.comparar_intervalos_backtracking l !! j = Some b →
       int_sub (fim b) (inicio b) < int_sub (fim a) (inicio a)
       ∨ (int_sub (fim a) (inicio a) = int_sub (fim b) (inicio b)
          ∧ inicio a ≤ inicio b))
  ∧ (∀ iv, valor_int (fim iv - inicio iv) →
           int_sub (fim iv) (inicio iv) = fim iv - inicio iv)
  ∧ ∀ l', l' ≡ₚ l → ordenado Backtracking.comparar_intervalos_backtracking l' →
          l' = qsort Backtracking.comparar_intervalos_backtracking l.
Proof.
  intros Hint.
  pose proof (qsort_ordenado _ comparar_intervalos_backtracking_total
                comparar_intervalos_backtracking_trans l) as Hord.
  split; [apply qsort_perm|]. split; [|split].
  - intros i j a b Hij Ha Hb.
    apply (comparar_intervalos_backtracking_le a b).
    apply (ordenado_lookup _ _ i j a b Hord Hij Ha Hb).
  - intros iv Hiv. by apply wrap_int_id.
  - intros l' Hperm Ho.
    apply (ordenado_unico Backtracking.comparar_intervalos_backtracking); try done.
    + intros a b Ha Hb. rewrite Hperm in Ha, Hb.
      rewrite Forall_forall in Hint.
      destruct (Hint a Ha) as [Hia Hfa]. destruct (Hint b Hb) as [Hib Hfb].
      rewrite !comparar_intervalos_backtracking_le. unfold Guloso.tamanho.
      destruct a as [ia fa], b as [ib fb]. simpl in *. intros H1 H2.
      assert (ia = ib) as -> by lia.
      f_equal. apply (int_sub_inj fa fb ib); [done | done | done | lia].
    + by rewrite qsort_perm.
Qed.

Lemma qsort_comparar_intervalos_backtracking_witness :
  qsort Backtracking.comparar_intervalos_backtracking intervalos_pequeno
  ≡ₚ intervalos_pequeno.
Proof.
  apply (qsort_comparar_intervalos_backtracking intervalos_pequeno).
  repeat constructor; vm_compute; discriminate.
Defined.

(** X3. [comparar_pontos] (and [comparar_pontos_backtracking]) orders the
    points by [posicao] alone: it answers -1, 0 or 1, the opposite when
    its arguments are exchanged, and 0 exactly for two points at the same
    position, whatever their [id]s; [qsort] is free to leave such points
    in either order. *)
Theorem comparar_pontos_ordem :
  (∀ a b, comparar_pontos a b = -1 ↔ posicao a < posicao b)
  ∧ (∀ a b, comparar_pontos a b = 0 ↔ posicao a = posicao b)
  ∧ (∀ a b, comparar_pontos a b = 1 ↔ posicao b < posicao a)
  ∧ (∀ a b, comparar_pontos_backtracking a b = - comparar_pontos b a)
  ∧ (∀ a b c, comparar_pontos a b ≤ 0 → comparar_pontos b c ≤ 0 →
              comparar_pontos a c ≤ 0)
  ∧ ∀ x i j, ordenado comparar_pontos
               [{| id := i; posicao := x |}; {| id := j; posicao := x |}].
Proof.
  assert (∀ a b, (comparar_pontos a b = -1 ↔ posicao a < posicao b)
                 ∧ (comparar_pontos a b = 0 ↔ posicao a = posicao b)
                 ∧ (comparar_pontos a b = 1 ↔ posicao b < posicao a)) as H.
  { intros a b. unfold comparar_pontos.
    destruct (Z.ltb_spec (posicao a) (posicao b)); [lia|].
    destruct (Z.gtb_spec (posicao a) (posicao b)); lia. }
  split; [intros a b; apply H|]. split; [intros a b; apply H|].
  split; [intros a b; apply H|]. split; [|split].
  - intros a b. unfold comparar_pontos_backtracking.
    destruct (H a b) as (H1 & H2 & H3). destruct (H b a) as (H4 & H5 & H6).
    destruct (Z.lt_trichotomy (posicao a) (posicao b)) as [Hlt|[Heq|Hgt]].
    + by rewrite (proj2 H1 Hlt), (proj2 H6 Hlt).
    + by rewrite (proj2 H2 Heq), (proj2 H5 (eq_sym Heq)).
    + by rewrite (proj2 H3 Hgt), (proj2 H4 Hgt).
  - intros a b c. rewrite !comparar_pontos_le. lia.
  - intros x i j. simpl. repeat split; repeat constructor.
    apply comparar_pontos_le. simpl. lia.
Qed.

(** ** The random scenarios *)

Module AL.
Import Aleatorio.

Lemma resto_positivo a b :
  0 ≤ a → 0 < b → resto a b = Feito (Z.rem a b) ∧ 0 ≤ Z.rem a b < b.
Proof.
  intros Ha Hb. unfold resto.
  destruct (Z.eqb_spec b 0); [lia|].
  destruct (Z.eqb_spec a INT_MIN); [unfold INT_MIN in *; lia|].
  split; [done|]. by apply Z.rem_bound_pos.
Qed.

Lemma sequencia_exemplo_valida : rand_valido sequencia_exemplo.
Proof.
  intros s k. unfold sequencia_exemplo, INT_MAX.
  pose proof (Z.mod_pos_bound (s * 7919 + Z.of_nat k * 104729) 32768). lia.
Qed.

Lemma qsort_comparar_pontos_valido :
  qsort_valido comparar_pontos (qsort comparar_pontos).
Proof.
  intros l. split; [apply qsort_perm|]. apply qsort_ordenado.
  - intros a b. rewrite !comparar_pontos_le. lia.
  - intros a b c. rewrite !comparar_pontos_le. lia.
Qed.

Section Sorteio.

Variable sequencia : Z → nat → Z.
Variable ordenar_pontos : list Ponto → list Ponto.
Hypothesis sequencia_valida : rand_valido sequencia.
Hypothesis ordenar_valido : qsort_valido comparar_pontos ordenar_pontos.

Lemma rand_spec g :
  ∃ r, rand sequencia g = (r, avancar g 1) ∧ 0 ≤ r ≤ INT_MAX.
Proof.
  exists (sequencia (semente g) (sorteios g)). split; [|apply sequencia_valida].
  unfold rand, avancar. do 2 f_equal. lia.
Qed.

Lemma avancar_avancar g j k : avancar (avancar g j) k = avancar g (j + k).
Proof. unfold avancar. simpl. f_equal. lia. Qed.

Lemma avancar_0 g : avancar g 0 = g.
Proof. destruct g. unfold avancar. simpl. f_equal. lia. Qed.

Lemma sortear_pontos_spec min_pos max_pos k : ∀ i g,
  valor_int min_pos → valor_int max_pos →
  min_pos ≤ max_pos → max_pos - min_pos < INT_MAX →
  0 ≤ i → i + Z.of_nat k ≤ INT_MAX →
  ∃ l, sortear_pontos sequencia k i min_pos max_pos g = Feito (l, avancar g k)
       ∧ length l = k
       ∧ Forall (λ pt, min_pos ≤ posicao pt ≤ max_pos) l
       ∧ map id l = seqZ (i + 1) (Z.of_nat k).
Proof.
  induction k as [|k IH]; intros i g Hmin Hmax Hle Hd Hi Hik.
  - exists []. simpl. by rewrite avancar_0.
  - cbn [sortear_pontos].
    destruct (rand_spec g) as (r & -> & Hr).
    assert (int_add (int_sub max_pos min_pos) 1 = max_pos - min_pos + 1) as ->.
    { unfold int_add, int_sub, valor_int, INT_MIN, INT_MAX in *.
      rewrite (wrap_int_id (max_pos - min_pos)) by (unfold INT_MIN, INT_MAX; lia).
      apply wrap_int_id. unfold INT_MIN, INT_MAX. lia. }
    destruct (resto_positivo r (max_pos - min_pos + 1)) as [-> Hrem]; [lia|lia|].
    cbn [ligar].
    destruct (IH (i + 1) (avancar g 1)) as (l & -> & Hlen & Hall & Hids);
      [done|done|done|done|lia|lia|].
    cbn [ligar]. eexists. split; [by rewrite avancar_avancar|].
    split; [simpl; by rewrite Hlen|]. split.
    + constructor; [|done]. simpl.
      unfold int_add. rewrite wrap_int_id; unfold valor_int, INT_MIN, INT_MAX in *; lia.
    + simpl. rewrite Hids.
      rewrite (seqZ_cons (i + 1) (Z.of_nat (S k))) by lia.
      rewrite int_add_1 by (unfold INT_MIN, INT_MAX in *; lia).
      f_equal. f_equal; lia.
Qed.

Lemma sortear_intervalos_spec min_tamanho max_tamanho max_pos k : ∀ g,
  0 ≤ min_tamanho → min_tamanho ≤ max_tamanho → max_tamanho ≤ max_pos →
  max_pos < INT_MAX →
  ∃ l, sortear_intervalos sequencia k min_tamanho max_tamanho max_pos g
       = Feito (l, avancar g (2 * k))
       ∧ length l = k
       ∧ Forall (λ iv, 0 ≤ inicio iv ∧ fim iv ≤ max_pos
                       ∧ min_tamanho ≤ fim iv - inicio iv ≤ max_tamanho) l.
Proof.
  induction k as [|k IH]; intros g H0 Hle Hmp Hmax.
  - exists []. simpl. by rewrite avancar_0.
  - cbn [sortear_intervalos].
    destruct (rand_spec g) as (r1 & -> & Hr1).
    assert (int_add (int_sub max_tamanho min_tamanho) 1
            = max_tamanho - min_tamanho + 1) as ->.
    { unfold int_add, int_sub.
      rewrite (wrap_int_id (max_tamanho - min_tamanho)) by (unfold INT_MIN, INT_MAX in *; lia).
      apply wrap_int_id. unfold INT_MIN, INT_MAX in *. lia. }
    destruct (resto_positivo r1 (max_tamanho - min_tamanho + 1)) as [-> Hm]; [lia|lia|].
    cbn [ligar]. set (m := Z.rem r1 (max_tamanho - min_tamanho + 1)) in *.
    assert (int_add min_tamanho m = min_tamanho + m) as ->
      by (apply wrap_int_id; unfold INT_MIN, INT_MAX in *; lia).
    destruct (rand_spec (avancar g 1)) as (r2 & -> & Hr2).
    assert (int_add (int_sub max_pos (min_tamanho + m)) 1
            = max_pos - (min_tamanho + m) + 1) as ->.
    { unfold int_add, int_sub.
      rewrite (wrap_int_id (max_pos - _)) by (unfold INT_MIN, INT_MAX in *; lia).
      apply wrap_int_id. unfold INT_MIN, INT_MAX in *. lia. }
    destruct (resto_positivo r2 (max_pos - (min_tamanho + m) + 1)) as [-> Hi];
      [lia|lia|].
    cbn [ligar]. set (ini := Z.rem r2 _) in *.
    destruct (IH (avancar (avancar g 1) 1)) as (l & -> & Hlen & Hall); try done.
    cbn [ligar]. eexists. split.
    { rewrite !avancar_avancar.
      by replace (1 + (1 + 2 * k))%nat with (2 * S k)%nat by lia. }
    split; [simpl; by rewrite Hlen|].
    constructor; [|done]. simpl.
    unfold int_add. rewrite wrap_int_id by (unfold INT_MIN, INT_MAX in *; lia). lia.
Qed.

(** X4. [carregar_pontos_aleatorios] and
    [carregar_pontos_aleatorios_backtracking], asked for [n] points
    between [min_pos] and [max_pos], return whatever [rand] yields: they
    replace the points of the problem by [n] points, each at a position
    from [min_pos] to [max_pos], with the [id]s 1 to [n] each given once,
    in ascending order of position; the intervals are left alone and [n]
    draws are made. *)
Theorem carregar_pontos_aleatorios_spec n min_pos max_pos g :
  0 ≤ n ≤ INT_MAX → valor_int min_pos → valor_int max_pos →
  min_pos ≤ max_pos → max_pos - min_pos < INT_MAX →
  ∃ pts,
    (∀ problema,
       carregar_pontos_aleatorios sequencia ordenar_pontos problema n min_pos max_pos g
       = Feito (Guloso.com_instancia problema (Guloso.intervalos problema) pts,
                avancar g (Z.to_nat n)))
    ∧ (∀ problema,
         carregar_pontos_aleatorios_backtracking sequencia ordenar_pontos
           problema n min_pos max_pos g
         = Feito (Backtracking.com_instancia problema
                    (Backtracking.intervalos problema) pts,
                  avancar g (Z.to_nat n)))
    ∧ Z.of_nat (length pts) = n
    ∧ (∀ pt, pt ∈ pts → min_pos ≤ posicao pt ≤ max_pos)
    ∧ map id pts ≡ₚ seqZ 1 n
    ∧ ∀ (i j : nat) a b, (i < j)%nat → pts !! i = Some a → pts !! j = Some b →
        posicao a ≤ posicao b.
Proof.
  intros Hn Hmin Hmax Hle Hd.
  destruct (sortear_pontos_spec min_pos max_pos (Z.to_nat n) 0 g)
    as (l & Heq & Hlen & Hall & Hids); [done|done|done|done|lia|lia|].
  destruct (ordenar_valido l) as [Hperm Hord].
  exists (ordenar_pontos l).
  unfold carregar_pontos_aleatorios, carregar_pontos_aleatorios_backtracking.
  destruct (Z.ltb_spec n 0); [lia|]. rewrite Heq. cbn [ligar].
  split; [done|]. split; [done|]. split; [rewrite Hperm; lia|].
  split; [|split].
  - intros pt Hpt. rewrite Hperm in Hpt. rewrite Forall_forall in Hall. by apply Hall.
  - rewrite Hperm, Hids. by rewrite Z2Nat.id by lia.
  - intros i j a b Hij Ha Hb. apply comparar_pontos_le.
    apply (ordenado_lookup _ _ i j a b Hord Hij Ha Hb).
Qed.

(** X5. [carregar_intervalos_aleatorios] and
    [carregar_intervalos_aleatorios_backtracking], asked for [n]
    intervals of a size from [min_tamanho] to [max_tamanho] with
    [0 <= min_tamanho <= max_tamanho <= max_pos], return whatever [rand]
    yields: they replace the intervals of the problem by [n] intervals
    with [0 <= inicio <= fim <= max_pos] and [fim - inicio] within the
    two sizes, sorted by the comparator of the program; each program
    sorts the same draws.  The points are left alone and [2 * n] draws
    are made. *)
Theorem carregar_intervalos_aleatorios_spec n min_tamanho max_tamanho max_pos g :
  0 ≤ n ≤ INT_MAX →
  0 ≤ min_tamanho → min_tamanho ≤ max_tamanho → max_tamanho ≤ max_pos →
  max_pos < INT_MAX →
  ∃ l,
    (∀ problema,
       carregar_intervalos_aleatorios sequencia problema
         n min_tamanho max_tamanho max_pos g
       = Feito (Guloso.com_instancia problema
                  (qsort Guloso.comparar_intervalos l) (Guloso.pontos problema),
                avancar g (2 * Z.to_nat n)))
    ∧ (∀ problema,
         carregar_intervalos_aleatorios_backtracking sequencia problema
           n min_tamanho max_tamanho max_pos g
         = Feito (Backtracking.com_instancia problema
                    (qsort Backtracking.comparar_intervalos_backtracking l)
                    (Backtracking.pontos problema),
                  avancar g (2 * Z.to_nat n)))
    ∧ Z.of_nat (length l) = n
    ∧ (∀ iv, iv ∈ l →
         0 ≤ inicio iv ∧ inicio iv ≤ fim iv ∧ fim iv ≤ max_pos
         ∧ min_tamanho ≤ fim iv - inicio iv ≤ max_tamanho)
    ∧ ordenado Guloso.comparar_intervalos (qsort Guloso.comparar_intervalos l)
    ∧ ordenado Backtracking.comparar_intervalos_backtracking
        (qsort Backtracking.comparar_intervalos_backtracking l).
Proof.
  intros Hn H0 Hle Hmp Hmax.
  destruct (sortear_intervalos_spec min_tamanho max_tamanho max_pos (Z.to_nat n) g)
    as (l & Heq & Hlen & Hall); [done|done|done|done|].
  exists l.
  unfold carregar_intervalos_aleatorios, carregar_intervalos_aleatorios_backtracking.
  destruct (Z.ltb_spec n 0); [lia|]. rewrite Heq. cbn [ligar].
  split; [done|]. split; [done|]. split; [lia|]. split; [|split].
  - intros iv Hiv. rewrite Forall_forall in Hall. specialize (Hall iv Hiv). lia.
  - apply qsort_ordenado;
      [apply comparar_intervalos_total | apply comparar_intervalos_trans].
  - apply qsort_ordenado;
      [apply comparar_intervalos_backtracking_total
      |apply comparar_intervalos_backtracking_trans].
Qed.

(** X6. A size limit above [max_pos] lets [carregar_intervalos_aleatorios]
    divide by zero: when the first size drawn is [max_pos + 1], the
    [inicio] that follows is [rand() % 0]. *)
Theorem carregar_intervalos_aleatorios_divide_por_zero
    n min_tamanho max_tamanho max_pos g :
  0 < n →
  0 ≤ min_tamanho → min_tamanho ≤ max_tamanho → max_tamanho < INT_MAX →
  min_tamanho
  + Z.rem (sequencia (semente g) (sorteios g)) (max_tamanho - min_tamanho + 1)
  = max_pos + 1 →
  (∀ problema,
     carregar_intervalos_aleatorios sequencia problema
       n min_tamanho max_tamanho max_pos g = Falha)
  ∧ (∀ problema,
       carregar_intervalos_aleatorios_backtracking sequencia problema
         n min_tamanho max_tamanho max_pos g = Falha).
Proof.
  intros Hn H0 Hle Hmax Htam.
  unfold carregar_intervalos_aleatorios, carregar_intervalos_aleatorios_backtracking.
  destruct (Z.ltb_spec n 0); [lia|].
  assert (sortear_intervalos sequencia (Z.to_nat n)
            min_tamanho max_tamanho max_pos g = Falha) as ->; [|done].
  destruct (Z.to_nat n) as [|k] eqn:Hk; [lia|].
  cbn [sortear_intervalos]. unfold rand at 1.
  pose proof (sequencia_valida (semente g) (sorteios g)) as Hr.
  set (r := sequencia (semente g) (sorteios g)) in *.
  assert (int_add (int_sub max_tamanho min_tamanho) 1
          = max_tamanho - min_tamanho + 1) as ->.
  { unfold int_add, int_sub.
    rewrite (wrap_int_id (max_tamanho - min_tamanho)) by (unfold INT_MIN, INT_MAX in *; lia).
    apply wrap_int_id. unfold INT_MIN, INT_MAX in *. lia. }
  destruct (resto_positivo r (max_tamanho - min_tamanho + 1)) as [-> Hm]; [lia|lia|].
  cbn [ligar].
  assert (int_add min_tamanho (Z.rem r (max_tamanho - min_tamanho + 1)) = max_pos + 1)
    as ->.
  { unfold int_add. rewrite wrap_int_id; [done|]. unfold INT_MIN, INT_MAX in *. lia. }
  unfold rand.
  assert (int_add (int_sub max_pos (max_pos + 1)) 1 = 0) as ->.
  { unfold int_add, int_sub. replace (max_pos - (max_pos + 1)) with (-1) by lia.
    reflexivity. }
  reflexivity.
Qed.

Lemma cenario_comum_geral s np min_pos max_pos ni min_tamanho max_tamanho max_pos' :
  0 ≤ np ≤ INT_MAX → valor_int min_pos → valor_int max_pos →
  min_pos ≤ max_pos → max_pos - min_pos < INT_MAX →
  0 ≤ ni < INT_MAX →
  0 ≤ min_tamanho → min_tamanho ≤ max_tamanho → max_tamanho ≤ max_pos' →
  max_pos' < INT_MAX →
  cenario_comum
    (λ problema,
       seja par <- carregar_pontos_aleatorios sequencia ordenar_pontos
                     problema np min_pos max_pos (srand s) em
       let '(problema, g) := par in
       carregar_intervalos_aleatorios sequencia problema
         ni min_tamanho max_tamanho max_pos' g)
    (λ problema,
       seja par <- carregar_pontos_aleatorios_backtracking sequencia ordenar_pontos
                     problema np min_pos max_pos (srand s) em
       let '(problema, g) := par in
       carregar_intervalos_aleatorios_backtracking sequencia problema
         ni min_tamanho max_tamanho max_pos' g)
    np ni.
Proof.
  intros Hnp Hmin Hmax Hle Hd Hni H0 Hlet Hmp Hmax'.
  destruct (sortear_pontos_spec min_pos max_pos (Z.to_nat np) 0 (srand s))
    as (lp & Heqp & Hlen & _); [done|done|done|done|lia|lia|].
  destruct (ordenar_valido lp) as [Hperm _].
  destruct (sortear_intervalos_spec min_tamanho max_tamanho max_pos' (Z.to_nat ni)
              (avancar (srand s) (Z.to_nat np)))
    as (l & Heqi & Hlen' & Hall); [done|done|done|done|].
  rewrite Forall_forall in Hall.
  unfold carregar_pontos_aleatorios, carregar_pontos_aleatorios_backtracking,
    carregar_intervalos_aleatorios, carregar_intervalos_aleatorios_backtracking.
  destruct (Z.ltb_spec np 0); [lia|]. destruct (Z.ltb_spec ni 0); [lia|].
  eexists _, _, _. rewrite Heqp. cbn [ligar]. rewrite Heqi. cbn [ligar].
  split; [done|]. split; [done|].
  pose proof (Permutation_length Hperm) as Hlp.
  pose proof (Permutation_length (qsort_perm Guloso.comparar_intervalos l)) as Hlg.
  pose proof (Permutation_length
                (qsort_perm Backtracking.comparar_intervalos_backtracking l)) as Hlb.
  unfold Guloso.n_pontos, Guloso.n_intervalos. simpl.
  split; [lia|]. split; [lia|]. split; [done|].
  split; [by rewrite !qsort_perm|].
  split; [intros iv Hiv; rewrite qsort_perm in Hiv; specialize (Hall iv Hiv); lia|].
  split.
  - match goal with
    | |- ∃ _ _, Guloso.resolver_guloso ?p = _ =>
        destruct (GL.resolver_guloso_resultado p) as (pg' & Heq & _)
    end; [| |eauto].
    + unfold Guloso.n_pontos. simpl. lia.
    + unfold Guloso.n_intervalos. simpl. lia.
  - match goal with
    | |- ∃ _ _, Backtracking.resolver_backtracking ?p = _ =>
        destruct (BT.resolver_backtracking_pos p) as (pb' & Heq & _)
    end; [|eauto].
    split; [|unfold Backtracking.n_pontos; simpl; lia|done].
    unfold Backtracking.n_intervalos. simpl. lia.
Qed.

(** X7. Whatever [rand] yields and however [qsort] leaves points at one
    position, each of the three random scenarios is built without a
    fault, the same for the two programs: the scenario function of the
    greedy program and the one of the exact program make the same draws
    and end with the same points and, up to their order, the same
    intervals, all with [0 <= inicio <= fim]; and the solver of each
    program returns on the instance. *)
Theorem cenarios_aleatorios :
  cenario_comum
    (configurar_cenario_pequeno sequencia ordenar_pontos)
    (configurar_cenario_pequeno_backtracking sequencia ordenar_pontos) 8 6
  ∧ cenario_comum
      (configurar_cenario_medio sequencia ordenar_pontos)
      (configurar_cenario_medio_backtracking sequencia ordenar_pontos) 12 10
  ∧ cenario_comum
      (configurar_cenario_grande sequencia ordenar_pontos)
      (configurar_cenario_grande_backtracking sequencia ordenar_pontos) 15 12.
Proof.
  split; [|split].
  - apply (cenario_comum_geral 42 8 0 50 6 5 20 50);
      unfold valor_int, INT_MIN, INT_MAX; lia.
  - apply (cenario_comum_geral 43 12 0 100 10 10 30 100);
      unfold valor_int, INT_MIN, INT_MAX; lia.
  - apply (cenario_comum_geral 44 15 0 150 12 15 40 150);
      unfold valor_int, INT_MIN, INT_MAX; lia.
Qed.

End Sorteio.

Lemma cenarios_aleatorios_witness :
  cenario_comum
    (configurar_cenario_pequeno sequencia_exemplo (qsort comparar_pontos))
    (configurar_cenario_pequeno_backtracking sequencia_exemplo (qsort comparar_pontos))
    8 6.
Proof.
  apply (cenarios_aleatorios sequencia_exemplo (qsort comparar_pontos)
           sequencia_exemplo_valida qsort_comparar_pontos_valido).
Defined.

Lemma carregar_pontos_aleatorios_spec_witness :
  ∃ pts,
    carregar_pontos_aleatorios sequencia_exemplo (qsort comparar_pontos)
      Guloso.inicializar_problema 8 0 50 (srand 42)
    = Feito (Guloso.com_instancia Guloso.inicializar_problema [] pts,
             avancar (srand 42) 8)
    ∧ Z.of_nat (length pts) = 8.
Proof.
  destruct (carregar_pontos_aleatorios_spec sequencia_exemplo (qsort comparar_pontos)
              sequencia_exemplo_valida qsort_comparar_pontos_valido
              8 0 50 (srand 42))
    as (pts & Hg & _ & Hlen & _).
  - vm_compute. split; discriminate.
  - vm_compute. split; discriminate.
  - vm_compute. split; discriminate.
  - lia.
  - vm_compute. reflexivity.
  - exists pts. split; [exact (Hg Guloso.inicializar_problema) | exact Hlen].
Defined.

Lemma carregar_intervalos_aleatorios_spec_witness :
  ∃ l,
    carregar_intervalos_aleatorios sequencia_exemplo
      Guloso.inicializar_problema 6 5 20 50 (srand 42)
    = Feito (Guloso.com_instancia Guloso.inicializar_problema
               (qsort Guloso.comparar_intervalos l) [],
             avancar (srand 42) 12)
    ∧ Z.of_nat (length l) = 6.
Proof.
  destruct (carregar_intervalos_aleatorios_spec sequencia_exemplo
              sequencia_exemplo_valida 6 5 20 50 (srand 42))
    as (l & Hg & _ & Hlen & _).
  - vm_compute. split; discriminate.
  - lia.
  - lia.
  - lia.
  - vm_compute. reflexivity.
  - exists l. split; [exact (Hg Guloso.inicializar_problema) | exact Hlen].
Defined.

Lemma carregar_intervalos_aleatorios_divide_por_zero_witness :
  carregar_intervalos_aleatorios (λ _ _, 46)
    Guloso.inicializar_problema 6 5 60 50 (srand 42) = Falha.
Proof.
  apply (carregar_intervalos_aleatorios_divide_por_zero (λ _ _, 46)).
  - intros s k. vm_compute. split; discriminate.
  - lia.
  - lia.
  - lia.
  - vm_compute. reflexivity.
  - vm_compute. reflexivity.
Defined.

End AL.

(** ** More on the exact search *)

Module BTX.
Import Backtracking.

Implicit Types (p : ProblemaBacktracking) (sel : list Intervalo).

Lemma nos_arvore_folha k : k ≤ 0 → nos_arvore k = 1.
Proof. intros Hk. unfold nos_arvore. by rewrite Z.max_l by lia. Qed.

Lemma nos_arvore_no k : 0 < k → nos_arvore k = 1 + 2 * nos_arvore (k - 1).
Proof.
  intros Hk. unfold nos_arvore. rewrite !Z.max_r by lia.
  replace (k + 1) with (Z.succ (k - 1 + 1)) by lia.
  rewrite Z.pow_succ_r by lia. lia.
Qed.

Lemma nos_arvore_pos k : 1 ≤ nos_arvore k.
Proof.
  unfold nos_arvore.
  pose proof (Z.pow_le_mono_r 2 1 (Z.max 0 k + 1) ltac:(lia) ltac:(lia)) as H.
  change (2 ^ 1) with 2 in H. lia.
Qed.

(** A call counts itself and the calls below it: no more than the full
    tree over the intervals that are left. *)
Lemma backtracking_recursivo_nos fuel : ∀ p idx p',
  n_intervalos p ≤ INT_MAX → 0 ≤ idx →
  0 ≤ nos_visitados p →
  nos_visitados p + nos_arvore (n_intervalos p - idx) ≤ INT_MAX →
  backtracking_recursivo fuel p idx = Feito p' →
  intervalos p' = intervalos p
  ∧ nos_visitados p < nos_visitados p'
    ≤ nos_visitados p + nos_arvore (n_intervalos p - idx).
Proof.
  induction fuel as [|fuel IH]; intros p idx p' Hn Hidx H0 Hmax Heq; [discriminate|].
  cbn [backtracking_recursivo] in Heq.
  pose proof (nos_arvore_pos (n_intervalos p - idx)) as Hpos.
  assert (int_add (nos_visitados p) 1 = nos_visitados p + 1) as Hnos
    by (apply int_add_1; unfold INT_MIN, INT_MAX in *; lia).
  rewrite Hnos in Heq.
  set (p0 := com_nos_visitados p (nos_visitados p + 1)) in Heq.
  change (n_intervalos p0) with (n_intervalos p) in Heq.
  destruct (Z.geb_spec idx (n_intervalos p)) as [Hge|Hlt].
  { injection Heq as <-. simpl. split; [done|lia]. }
  destruct (n_solucao_atual p0 >=? n_melhor_solucao p0).
  { injection Heq as <-. simpl. split; [done|lia]. }
  rewrite (nos_arvore_no (n_intervalos p - idx)) in * by lia.
  replace (n_intervalos p - idx - 1) with (n_intervalos p - (idx + 1)) in * by lia.
  pose proof (nos_arvore_pos (n_intervalos p - (idx + 1))) as Hpos'.
  rewrite (int_add_1 idx) in Heq by (unfold INT_MIN, INT_MAX in *; lia).
  apply ligar_feito_inv in Heq as (p1 & Hinc & Hexc).
  assert (intervalos p1 = intervalos p
          ∧ nos_visitados p + 1 ≤ nos_visitados p1
            ≤ nos_visitados p + 1 + nos_arvore (n_intervalos p - (idx + 1)))
    as (Hi1 & Hn1).
  { destruct (int_add (n_solucao_atual p0) 1 >=? n_melhor_solucao p0).
    { injection Hinc as <-. simpl. split; [done|lia]. }
    apply ligar_feito_inv in Hinc as (iv & _ & Hinc).
    apply ligar_feito_inv in Hinc as (sol & _ & Hinc).
    apply ligar_feito_inv in Hinc as (p3 & Hp3 & Hinc).
    injection Hinc as <-. simpl.
    set (p2 := com_solucao_atual p0 sol _) in Hp3.
    destruct (verificar_cobertura_parcial p2).
    - destruct (n_solucao_atual p2 <? n_melhor_solucao p2);
        injection Hp3 as <-; simpl; split; try done; lia.
    - apply IH in Hp3 as (Hi3 & Hn3);
        change (n_intervalos p2) with (n_intervalos p) in *;
        simpl in *; try done; try lia.
      split; [done|lia]. }
  apply IH in Hexc as (Hi' & Hn'); unfold n_intervalos in *; rewrite ?Hi1; try lia.
  rewrite Hi1 in Hn'. split; [congruence|lia].
Qed.

(** With a point that no interval holds, no call is cut short: a call
    counts the full tree over the intervals that are left. *)
Lemma backtracking_recursivo_arvore fuel : ∀ p idx pt,
  inv p idx → Z.max 0 (n_intervalos p - idx) < Z.of_nat fuel →
  pt ∈ pontos p →
  (∀ iv, iv ∈ intervalos p → ponto_coberto_por_intervalo pt iv = false) →
  (∀ iv, iv ∈ parcial p → iv ∈ intervalos p) →
  n_melhor_solucao p = INT_MAX →
  0 ≤ nos_visitados p →
  nos_visitados p + nos_arvore (n_intervalos p - idx) ≤ INT_MAX →
  ∃ p', backtracking_recursivo fuel p idx = Feito p'
        ∧ nos_visitados p' = nos_visitados p + nos_arvore (n_intervalos p - idx)
        ∧ n_melhor_solucao p' = INT_MAX.
Proof.
  induction fuel as [|fuel IH]; intros p idx pt Hinv Hfuel Hpt Hfora Hpar Hnm H0 Hmax;
    [lia|].
  cbn [backtracking_recursivo].
  pose proof (nos_arvore_pos (n_intervalos p - idx)) as Hpos.
  assert (int_add (nos_visitados p) 1 = nos_visitados p + 1) as ->
    by (apply int_add_1; unfold INT_MIN, INT_MAX in *; lia).
  set (p0 := com_nos_visitados p (nos_visitados p + 1)).
  assert (inv p0 idx) as Hinv0 by (destruct Hinv; by split).
  assert (nos_visitados p0 = nos_visitados p + 1) as Hnos0 by done.
  change (n_intervalos p) with (n_intervalos p0) in *.
  change (pontos p) with (pontos p0) in *.
  change (intervalos p) with (intervalos p0) in *.
  change (parcial p) with (parcial p0) in *.
  change (n_melhor_solucao p) with (n_melhor_solucao p0) in *.
  clearbody p0. clear Hinv.
  pose proof Hinv0 as [Hbuf Hcur Hn Hpts Hmel]. unfold n_intervalos in *.
  destruct (Z.geb_spec idx (Z.of_nat (length (intervalos p0)))) as [Hge|Hlt].
  { exists p0. rewrite nos_arvore_folha by lia. split; [done|]. split; [lia|done]. }
  destruct (Z.geb_spec (n_solucao_atual p0) (n_melhor_solucao p0)) as [Hge'|Hlt'];
    [lia|].
  rewrite !(int_add_1 (n_solucao_atual p0)) by (unfold INT_MIN, INT_MAX in *; lia).
  rewrite !(int_add_1 idx) by (unfold INT_MIN, INT_MAX in *; lia).
  destruct (Z.geb_spec (n_solucao_atual p0 + 1) (n_melhor_solucao p0)); [lia|].
  destruct (lookup_lt_is_Some_2 (intervalos p0) (Z.to_nat idx)) as [iv Hiv]; [lia|].
  unfold ler, escrever.
  destruct (Z.ltb_spec idx 0); [lia|]. rewrite Hiv.
  destruct (Z.ltb_spec (n_solucao_atual p0) 0); [lia|].
  destruct (Z.leb_spec (Z.of_nat (length (solucao_atual p0))) (n_solucao_atual p0));
    [lia|].
  cbn [ligar orb].
  set (p2 := com_solucao_atual p0 _ _).
  assert (inv p2 (idx + 1)) as Hinv2.
  { split; simpl; try done; [by rewrite length_insert | lia]. }
  assert (parcial p2 = parcial p0 ++ [iv]) as Hp2.
  { unfold parcial, p2. simpl. apply parcial_empilhar; lia. }
  assert (∀ iv', iv' ∈ parcial p2 → iv' ∈ intervalos p0) as Hpar2.
  { intros iv' Hin. rewrite Hp2 in Hin. apply elem_of_app in Hin as [Hin|Hin]; [auto|].
    apply list_elem_of_singleton in Hin as ->. by eapply list_elem_of_lookup_2. }
  assert (¬ cobertura_completa (pontos p0) (parcial p2)) as Hnc
    by (by apply (ponto_fora_sem_cobertura _ (intervalos p0) _ pt)).
  destruct (verificar_cobertura_parcial p2) eqn:Hver.
  { apply (BT.verificar_cobertura_parcial_spec p2) in Hver; done. }
  rewrite (nos_arvore_no (Z.of_nat (length (intervalos p0)) - idx)) in * by lia.
  replace (Z.of_nat (length (intervalos p0)) - idx - 1)
    with (Z.of_nat (length (intervalos p0)) - (idx + 1)) in * by lia.
  pose proof (nos_arvore_pos (Z.of_nat (length (intervalos p0)) - (idx + 1))) as Hpos'.
  destruct (IH p2 (idx + 1) pt) as (p3 & Heq3 & Hn3 & Hm3); try done;
    try (unfold n_intervalos; simpl; lia).
  destruct (BT.backtracking_recursivo_pos fuel p2 (idx + 1) Hinv2)
    as (p3' & Heq3' & Hpos3); [unfold n_intervalos; simpl; lia|].
  rewrite Heq3 in Heq3'. injection Heq3' as <-.
  rewrite Heq3. cbn [ligar].
  rewrite (pos_cur _ _ _ Hpos3).
  change (n_solucao_atual p2) with (n_solucao_atual p0 + 1).
  replace (int_sub (n_solucao_atual p0 + 1) 1) with (n_solucao_atual p0)
    by (unfold int_sub; rewrite wrap_int_id; unfold INT_MIN, INT_MAX in *; lia).
  set (p1 := com_solucao_atual p3 _ _).
  assert (pos (λ T, ∃ T', T = iv :: T' ∧ caudas p2 (idx + 1) T') p0 p1) as Hpos1
    by (apply BT.pos_incluir; [lia | lia | done | by left]).
  assert (inv p1 (idx + 1)) as Hinv1
    by (eapply BT.inv_pos; [exact Hinv0|exact Hpos1|lia]).
  pose proof (pos_ivs _ _ _ Hpos1) as Hi1. pose proof (pos_pts _ _ _ Hpos1) as Hpt1.
  pose proof (pos_parcial _ _ _ Hpos1) as Hpa1.
  simpl in Hn3.
  destruct (IH p1 (idx + 1) pt) as (p' & Heq' & Hn' & Hm'); try done;
    unfold n_intervalos; rewrite ?Hi1, ?Hpt1, ?Hpa1; try done; simpl; try lia.
  exists p'. split; [done|]. split; [|done].
  rewrite Hn'. unfold n_intervalos. rewrite Hi1. simpl. lia.
Qed.

Lemma nos_arvore_int k : k ≤ 30 → nos_arvore k ≤ INT_MAX.
Proof.
  intros Hk. unfold nos_arvore, INT_MAX.
  pose proof (Z.pow_le_mono_r 2 (Z.max 0 k + 1) 31 ltac:(lia) ltac:(lia)) as H.
  change (2 ^ 31) with 2147483648 in H. lia.
Qed.

(** X8. The search visits at least one node and no more than the
    [2^(n+1) - 1] of the full tree over the [n] intervals; up to 30
    intervals that bound is an [int] and [nos_visitados] counts without
    wrapping. *)
Theorem nos_visitados_limite ivs pts :
  Z.of_nat (length ivs) ≤ 30 → Z.of_nat (length pts) ≤ INT_MAX →
  ∃ p' m,
    resolver_backtracking (instancia ivs pts) = Feito (p', m)
    ∧ m_nos_visitados m = nos_visitados p'
    ∧ 1 ≤ m_nos_visitados m ≤ 2 ^ (Z.of_nat (length ivs) + 1) - 1.
Proof.
  intros Hn Hp.
  destruct (BT.resolver_backtracking_pos (instancia ivs pts)) as (p' & Heq & _).
  { apply BT.bem_formado_inicial; [unfold INT_MAX; lia | done]. }
  eexists p', _. split; [exact Heq|]. split; [done|]. simpl.
  unfold resolver_backtracking in Heq.
  apply ligar_feito_inv in Heq as (p'' & Hrec & [= <-]).
  apply backtracking_recursivo_nos in Hrec as (_ & Hnos); simpl in *.
  - unfold n_intervalos, nos_arvore in Hnos. simpl in Hnos.
    rewrite Z.sub_0_r, Z.max_r in Hnos by lia. lia.
  - unfold n_intervalos. simpl. unfold INT_MAX. lia.
  - done.
  - done.
  - unfold n_intervalos. simpl. rewrite Z.sub_0_r.
    pose proof (nos_arvore_int (Z.of_nat (length ivs)) Hn). lia.
Qed.

Lemma nos_visitados_limite_witness :
  ∃ p' m,
    resolver_backtracking (instancia intervalos_pequeno_backtracking pontos_pequeno)
    = Feito (p', m)
    ∧ 1 ≤ m_nos_visitados m ≤ 2047.
Proof.
  destruct (nos_visitados_limite intervalos_pequeno_backtracking pontos_pequeno)
    as (p' & m & Heq & _ & Hnos).
  - vm_compute. discriminate.
  - vm_compute. discriminate.
  - exists p', m. split; [exact Heq | exact Hnos].
Defined.

(** X9. With a point that no interval holds there is no bound to prune
    with: the search goes through the full tree, [2^(n+1) - 1] calls
    for [n] intervals (up to 30, where the count is an [int]), and ends
    with the sentinel. *)
Theorem nos_visitados_sem_cobertura ivs pts pt :
  Z.of_nat (length ivs) ≤ 30 → Z.of_nat (length pts) ≤ INT_MAX →
  pt ∈ pts →
  (∀ iv, iv ∈ ivs → ponto_coberto_por_intervalo pt iv = false) →
  ∃ p' m,
    resolver_backtracking (instancia ivs pts) = Feito (p', m)
    ∧ m_nos_visitados m = 2 ^ (Z.of_nat (length ivs) + 1) - 1
    ∧ m_n_solucao m = INT_MAX.
Proof.
  intros Hn Hp Hpt Hfora.
  assert (bem_formado (instancia ivs pts)) as Hbf
    by (apply BT.bem_formado_inicial; [unfold INT_MAX; lia | done]).
  destruct (backtracking_recursivo_arvore (S (length ivs))
              (preparar (instancia ivs pts)) 0 pt) as (p' & Heq & Hnos & Hnm);
    try done.
  - by apply BT.inv_preparar.
  - unfold n_intervalos. simpl. lia.
  - intros iv Hin. by apply elem_of_nil in Hin.
  - unfold n_intervalos. simpl. rewrite Z.sub_0_r.
    pose proof (nos_arvore_int (Z.of_nat (length ivs)) Hn). lia.
  - unfold resolver_backtracking. simpl in Heq |- *. rewrite Heq. cbn [ligar].
    eexists _, _. split; [done|]. simpl. split; [|done].
    rewrite Hnos. unfold n_intervalos, nos_arvore. simpl.
    rewrite Z.sub_0_r, Z.max_r by lia. lia.
Qed.

Lemma nos_visitados_sem_cobertura_witness :
  ∃ p' m,
    resolver_backtracking (instancia intervalos_pequeno_backtracking (pts [5; 50]))
    = Feito (p', m)
    ∧ m_nos_visitados m = 2047.
Proof.
  destruct (nos_visitados_sem_cobertura intervalos_pequeno_backtracking
              (pts [5; 50]) {| id := 2; posicao := 50 |})
    as (p' & m & Heq & Hnos & _).
  - vm_compute. discriminate.
  - vm_compute. discriminate.
  - apply (bool_decide_unpack _). vm_compute. reflexivity.
  - apply Forall_forall. apply (bool_decide_unpack _). vm_compute. reflexivity.
  - exists p', m. split; [exact Heq | exact Hnos].
Defined.

(** X10. The size the exact solver reports does not depend on the order
    of the intervals, nor on the order of the points: two instances with
    the same intervals and the same points, in any two orders, get the
    same [n_melhor_solucao], the sentinel included. *)
Theorem tamanho_nao_depende_da_ordem ivs ivs' pts pts' :
  pts ≠ [] → ivs ≡ₚ ivs' → pts ≡ₚ pts' →
  Z.of_nat (length ivs) < INT_MAX → Z.of_nat (length pts) ≤ INT_MAX →
  ∃ p1 m1 p2 m2,
    resolver_backtracking (instancia ivs pts) = Feito (p1, m1)
    ∧ resolver_backtracking (instancia ivs' pts') = Feito (p2, m2)
    ∧ m_n_solucao m1 = m_n_solucao m2.
Proof.
  intros Hne Hi Hp Hn Hnp.
  assert (pts' ≠ []) as Hne'.
  { intros ->. by apply Permutation_nil_r in Hp. }
  destruct (BT.resolver_backtracking_resultado (instancia ivs pts))
    as (p1 & Heq1 & _ & _ & _ & _ & Hb1 & Hc1);
    [by apply BT.bem_formado_inicial | done |].
  destruct (BT.resolver_backtracking_resultado (instancia ivs' pts'))
    as (p2 & Heq2 & _ & _ & _ & _ & Hb2 & Hc2);
    [apply BT.bem_formado_inicial; by rewrite <- ?Hi, <- ?Hp | done |].
  simpl in *. eexists p1, _, p2, _. split; [exact Heq1|]. split; [exact Heq2|].
  simpl.
  (* a cover drawn from one arrangement can be drawn from the other *)
  assert (∀ (a b : list Intervalo) (q q' : list Ponto) c,
            a ≡ₚ b → q ≡ₚ q' → c `sublist_of` a → cobertura_completa q c →
            ∃ c', c' `sublist_of` b ∧ cobertura_completa q' c'
                  ∧ length c' = length c) as Hmove.
  { intros a b q q' c Hab Hqq Hsub Hcob.
    assert (c ⊆+ b) as Hin by (rewrite <- Hab; by apply sublist_submseteq).
    apply submseteq_sublist_r in Hin as (c' & Hperm & Hsub').
    exists c'. split; [done|]. split; [|by rewrite Hperm].
    intros pt Hpt. rewrite <- Hqq in Hpt.
    eapply coberto_por_mono; [|by apply Hcob].
    intros iv Hiv. by rewrite <- Hperm. }
  destruct Hb1 as [[Hn1 _]|(Hlt1 & Hs1 & Hz1 & Hcob1)];
    destruct Hb2 as [[Hn2 _]|(Hlt2 & Hs2 & Hz2 & Hcob2)].
  - congruence.
  - destruct (Hmove ivs' ivs pts' pts _ (symmetry Hi) (symmetry Hp) Hs2 Hcob2)
      as (c & Hc & Hcc & Hl).
    specialize (Hc1 c Hc Hcc). lia.
  - destruct (Hmove ivs ivs' pts pts' _ Hi Hp Hs1 Hcob1) as (c & Hc & Hcc & Hl).
    specialize (Hc2 c Hc Hcc). lia.
  - destruct (Hmove ivs ivs' pts pts' _ Hi Hp Hs1 Hcob1) as (c & Hc & Hcc & Hl).
    destruct (Hmove ivs' ivs pts' pts _ (symmetry Hi) (symmetry Hp) Hs2 Hcob2)
      as (c' & Hc' & Hcc' & Hl').
    specialize (Hc2 c Hc Hcc). specialize (Hc1 c' Hc' Hcc'). lia.
Qed.

Lemma tamanho_nao_depende_da_ordem_witness :
  ∃ p1 m1 p2 m2,
    resolver_backtracking (instancia intervalos_pequeno_backtracking pontos_pequeno)
    = Feito (p1, m1)
    ∧ resolver_backtracking (instancia intervalos_pequeno_guloso pontos_pequeno)
      = Feito (p2, m2)
    ∧ m_n_solucao m1 = m_n_solucao m2.
Proof.
  apply (tamanho_nao_depende_da_ordem intervalos_pequeno_backtracking
           intervalos_pequeno_guloso pontos_pequeno pontos_pequeno).
  - discriminate.
  - apply (bool_decide_unpack _). vm_compute. reflexivity.
  - reflexivity.
  - vm_compute. reflexivity.
  - vm_compute. discriminate.
Defined.

(** Once a cover of one interval is the best, the search only walks down
    the exclude branches: one call for each interval that is left, and
    one for the end of the array. *)
Lemma backtracking_recursivo_podado fuel : ∀ p idx,
  0 ≤ idx → n_intervalos p ≤ INT_MAX →
  Z.max 0 (n_intervalos p - idx) < Z.of_nat fuel →
  n_solucao_atual p = 0 → n_melhor_solucao p = 1 →
  0 ≤ nos_visitados p →
  nos_visitados p + Z.max 0 (n_intervalos p - idx) + 1 ≤ INT_MAX →
  backtracking_recursivo fuel p idx
  = Feito (com_nos_visitados p
             (nos_visitados p + Z.max 0 (n_intervalos p - idx) + 1)).
Proof.
  induction fuel as [|fuel IH]; intros p idx Hidx Hn Hfuel Hcur Hbest H0 Hmax; [lia|].
  cbn [backtracking_recursivo].
  assert (int_add (nos_visitados p) 1 = nos_visitados p + 1) as ->
    by (apply int_add_1; unfold INT_MIN, INT_MAX in *; lia).
  set (p0 := com_nos_visitados p (nos_visitados p + 1)).
  change (n_intervalos p0) with (n_intervalos p).
  change (n_solucao_atual p0) with (n_solucao_atual p).
  change (n_melhor_solucao p0) with (n_melhor_solucao p).
  rewrite Hcur, Hbest.
  destruct (Z.geb_spec idx (n_intervalos p)) as [Hge|Hlt].
  { rewrite Z.max_l by lia. by rewrite Z.add_0_r. }
  change (0 >=? 1) with false. change (int_add 0 1 >=? 1) with true. cbn [ligar].
  rewrite (int_add_1 idx) by (unfold INT_MIN, INT_MAX in *; lia).
  rewrite IH; try done; try (simpl; lia).
  - simpl. unfold com_nos_visitados. simpl. do 2 f_equal.
    change (n_intervalos p0) with (n_intervalos p). lia.
  - change (n_intervalos p0) with (n_intervalos p). lia.
  - change (n_intervalos p0) with (n_intervalos p). simpl. lia.
Qed.

(** X11. With no point to cover, the exact solver does not answer with
    the empty cover: it takes the first interval, which covers all of no
    points, reports a cover of size 1 and visits one node for each
    interval and one more.  The greedy solver selects nothing and reports
    size 0: on such an instance the exact answer is the larger one. *)
Theorem sem_pontos iv ivs :
  Z.of_nat (length (iv :: ivs)) < INT_MAX →
  (∃ p' m,
     resolver_backtracking (instancia (iv :: ivs) []) = Feito (p', m)
     ∧ m_n_solucao m = 1 ∧ cobertura p' = Some [iv]
     ∧ m_nos_visitados m = Z.of_nat (length (iv :: ivs)) + 1)
  ∧ (∃ g' n,
       Guloso.resolver_guloso (Guloso.instancia (iv :: ivs) []) = Feito (g', n)
       ∧ Guloso.m_n_solucao n = 0 ∧ Guloso.cobertura g' = []
       ∧ Guloso.todos_pontos_cobertos g' = true).
Proof.
  intros Hn. split; [|by eexists _, _].
  unfold resolver_backtracking.
  change (length (intervalos (instancia (iv :: ivs) []))) with (S (length ivs)).
  set (fuel := S (length ivs)).
  cbn [backtracking_recursivo].
  set (p0 := com_nos_visitados _ _).
  assert (n_intervalos p0 = Z.of_nat (S (length ivs))) as Hni by done.
  rewrite Hni.
  destruct (Z.geb_spec 0 (Z.of_nat (S (length ivs)))); [lia|].
  change (n_solucao_atual p0 >=? n_melhor_solucao p0) with false.
  change (int_add (n_solucao_atual p0) 1 >=? n_melhor_solucao p0) with false.
  change (ler (intervalos p0) 0) with (Feito iv). cbn [ligar].
  change (escrever (solucao_atual p0) (n_solucao_atual p0) iv)
    with (Feito (iv :: replicate (length ivs) intervalo_nulo)).
  cbn [ligar].
  set (p2 := com_solucao_atual p0 _ _).
  change (verificar_cobertura_parcial p2) with true.
  change (n_solucao_atual p2 <? n_melhor_solucao p2) with true.
  cbn [ligar].
  set (p1 := com_solucao_atual (copiar_solucao p2) _ _).
  change (int_add 0 1) with 1.
  assert (n_intervalos p1 = Z.of_nat (length ivs) + 1) as Hn1
    by (unfold n_intervalos; simpl length; lia).
  assert (nos_visitados p1 = 1) as Hnos1 by done.
  simpl length in Hn.
  rewrite backtracking_recursivo_podado; rewrite ?Hn1, ?Hnos1; try done;
    try (unfold fuel; unfold INT_MAX in *; lia).
  eexists _, _. cbn [ligar]. split; [done|]. cbn [m_n_solucao m_nos_visitados].
  split; [done|]. split; [done|].
  cbn [nos_visitados com_nos_visitados]. simpl length. lia.
Qed.

Lemma sem_pontos_witness :
  ∃ p' m,
    resolver_backtracking (instancia intervalos_pequeno_backtracking []) = Feito (p', m)
    ∧ m_n_solucao m = 1 ∧ m_nos_visitados m = 11.
Proof.
  destruct (sem_pontos {| inicio := 25; fim := 42 |}
              (ivs [(20, 35); (30, 45); (8, 22); (12, 26); (18, 32);
                    (5, 18); (15, 28); (0, 12); (3, 15)]))
    as [(p' & m & Heq & Hsz & _ & Hnos) _].
  - vm_compute. reflexivity.
  - exists p', m. split; [exact Heq|]. split; [exact Hsz | exact Hnos].
Defined.

(** X12. With no interval both solvers return at once, whatever the
    points: the exact one after a single node, with the sentinel as the
    size and no cover; the greedy one with an empty solution, and with
    every point counted as covered only when there is no point.  Both
    report the quality [0.0], the branch of [n_intervalos == 0]. *)
Theorem sem_intervalos pts :
  (∃ p',
     resolver_backtracking (instancia [] pts)
     = Feito (p', {| m_qualidade := PrimFloat.zero; m_n_solucao := INT_MAX;
                     m_nos_visitados := 1 |})
     ∧ cobertura p' = None)
  ∧ (∃ g',
       Guloso.resolver_guloso (Guloso.instancia [] pts)
       = Feito (g', {| Guloso.m_qualidade := PrimFloat.zero;
                       Guloso.m_n_solucao := 0 |})
       ∧ Guloso.cobertura g' = []
       ∧ Guloso.todos_pontos_cobertos g' = match pts with [] => true | _ => false end).
Proof.
  split; [by eexists|].
  destruct pts as [|pt pts]; [by eexists|].
  unfold Guloso.resolver_guloso.
  change (length (Guloso.pontos (Guloso.instancia [] (pt :: pts)))) with (S (length pts)).
  cbn [Guloso.laco]. unfold Guloso.corpo_laco.
  set (p0 := Guloso.preparar _).
  assert (Guloso.todos_pontos_cobertos p0 = false) as Htodos.
  { unfold Guloso.todos_pontos_cobertos, Guloso.n_pontos. simpl.
    by destruct (Z.eqb_spec 0 (Z.pos (Pos.of_succ_nat (length pts)))). }
  rewrite Htodos.
  change (Guloso.obter_proximo_ponto_nao_coberto p0) with 0.
  change (0 =? -1) with false.
  change (Guloso.encontrar_melhor_intervalo p0 0) with (@Feito Z (-1)).
  cbn [ligar]. change (-1 =? -1) with true. cbn [ligar].
  eexists. split; [done|]. split; [done|]. exact Htodos.
Qed.

(** X13. [verificar_cobertura_parcial] answers 1 exactly when every
    point lies in one of the first [n_solucao_atual] intervals of
    [solucao_atual], however many times a point is held; the counter it
    compares with [n_pontos] counts each point once. *)
Theorem verificar_cobertura_parcial_decide p :
  n_pontos p ≤ INT_MAX →
  (verificar_cobertura_parcial p = true
   ↔ ∀ pt, pt ∈ pontos p →
       ∃ iv, iv ∈ parcial p ∧ inicio iv ≤ posicao pt ≤ fim iv)
  ∧ verificar_laco (pontos p) (parcial p) (replicate (length (pontos p)) false) 0
    = (mascara (pontos p) (parcial p), contar (mascara (pontos p) (parcial p))).
Proof.
  intros Hp. split.
  - rewrite BT.verificar_cobertura_parcial_spec by done.
    unfold cobertura_completa. split; intros H pt Hpt.
    + apply H, coberto_por_true in Hpt as (iv & Hiv & Hc).
      exists iv. split; [done|]. by apply ponto_coberto_iff.
    + apply coberto_por_true. destruct (H pt Hpt) as (iv & Hiv & Hc).
      exists iv. split; [done|]. by apply ponto_coberto_iff.
  - pose proof (BT.verificar_laco_mascara (pontos p) (parcial p) [] Hp) as Hl.
    by rewrite contar_mascara_nil, mascara_nil in Hl.
Qed.

Lemma verificar_cobertura_parcial_decide_witness :
  verificar_cobertura_parcial estado_de_busca = true
  ↔ ∀ pt, pt ∈ pontos estado_de_busca →
      ∃ iv, iv ∈ parcial estado_de_busca ∧ inicio iv ≤ posicao pt ≤ fim iv.
Proof.
  apply (verificar_cobertura_parcial_decide estado_de_busca).
  vm_compute. discriminate.
Defined.

End BTX.

(** ** More on the greedy loop *)

Module GLX.
Import Guloso.

Implicit Types (p : Problema) (sel : list Intervalo) (mask : list bool).

(** The marking loop turns on the marks of the points the interval
    holds, leaves the others as they are, and raises the counter by the
    number of marks it turns on. *)
Lemma marcar_laco_spec intervalo : ∀ pontos mask n,
  length mask = length pontos →
  0 ≤ n → n + Z.of_nat (length pontos) ≤ INT_MAX →
  marcar_laco intervalo pontos mask n
  = (zip_with (λ pt c, c || ponto_coberto_por_intervalo pt intervalo) pontos mask,
     n + Z.of_nat (nao_cobertos_em intervalo pontos mask)).
Proof.
  intros pts. induction pts as [|pt pts IH]; intros [|c mask] n Hlen Hn Hmax;
    simpl in *; try discriminate.
  - f_equal. lia.
  - pose proof (GL.nao_cobertos_em_le intervalo pts mask).
    destruct c; simpl.
    + rewrite IH by lia. done.
    + destruct (ponto_coberto_por_intervalo pt intervalo); simpl.
      * rewrite int_add_1 by (unfold INT_MIN, INT_MAX in *; lia).
        rewrite IH by lia. f_equal. lia.
      * rewrite IH by lia. done.
Qed.

(** With no mark on, an interval holds as many unmarked points as there
    are points exactly when it holds them all. *)
Lemma nao_cobertos_em_todos intervalo pontos :
  nao_cobertos_em intervalo pontos (replicate (length pontos) false) = length pontos
  ↔ ∀ pt, pt ∈ pontos → ponto_coberto_por_intervalo pt intervalo = true.
Proof.
  induction pontos as [|pt pontos IH]; simpl.
  - split; [intros _ pt Hpt; by apply elem_of_nil in Hpt | done].
  - pose proof (GL.nao_cobertos_em_le intervalo pontos (replicate (length pontos) false)).
    destruct (ponto_coberto_por_intervalo pt intervalo) eqn:Hc; simpl.
    + split.
      * intros Heq pt' Hin. apply elem_of_cons in Hin as [->|Hin]; [done|].
        apply IH; [lia | done].
      * intros Hall. f_equal. apply IH. intros pt' Hin. apply Hall. by right.
    + split; [lia|]. intros Hall.
      rewrite Hall in Hc by left. discriminate.
Qed.

(** X14. [marcar_pontos_cobertos] turns on the mark of each point the
    interval holds and turns none off; it raises [n_pontos_cobertos] by
    the number of marks it turns on, which is the count
    [encontrar_melhor_intervalo] makes for that interval in the same
    state; and it touches nothing else. *)
Theorem marcar_pontos_cobertos_ganho p intervalo :
  length (pontos_cobertos p) = length (pontos p) →
  0 ≤ n_pontos_cobertos p → n_pontos_cobertos p + n_pontos p ≤ INT_MAX →
  n_pontos_cobertos (marcar_pontos_cobertos p intervalo)
  = n_pontos_cobertos p + pot p intervalo
  ∧ (∀ (j : nat) pt c,
       pontos p !! j = Some pt → pontos_cobertos p !! j = Some c →
       pontos_cobertos (marcar_pontos_cobertos p intervalo) !! j
       = Some (c || ponto_coberto_por_intervalo pt intervalo))
  ∧ length (pontos_cobertos (marcar_pontos_cobertos p intervalo)) = length (pontos p)
  ∧ intervalos (marcar_pontos_cobertos p intervalo) = intervalos p
  ∧ pontos (marcar_pontos_cobertos p intervalo) = pontos p
  ∧ solucao (marcar_pontos_cobertos p intervalo) = solucao p
  ∧ n_solucao (marcar_pontos_cobertos p intervalo) = n_solucao p.
Proof.
  intros Hlen H0 Hmax. unfold marcar_pontos_cobertos, n_pontos in *.
  rewrite marcar_laco_spec by done. simpl.
  split; [|split; [|split; [|done]]].
  - unfold pot. rewrite GL.potencial_spec by lia. lia.
  - intros j pt c Hpt Hc. by rewrite lookup_zip_with, Hpt, Hc.
  - rewrite length_zip_with. lia.
Qed.

Lemma marcar_pontos_cobertos_ganho_witness :
  n_pontos_cobertos
    (marcar_pontos_cobertos
       (preparar (instancia intervalos_pequeno_guloso pontos_pequeno))
       {| inicio := 3; fim := 15 |})
  = 0 + pot (preparar (instancia intervalos_pequeno_guloso pontos_pequeno))
          {| inicio := 3; fim := 15 |}.
Proof.
  apply (marcar_pontos_cobertos_ganho
           (preparar (instancia intervalos_pequeno_guloso pontos_pequeno))
           {| inicio := 3; fim := 15 |}).
  - reflexivity.
  - reflexivity.
  - vm_compute. discriminate.
Defined.

(** The first turn of the loop when one interval of the pool holds every
    point: the interval selected holds every point too. *)
Lemma primeira_escolha_universal ivs pts u :
  pts ≠ [] →
  Z.of_nat (length pts) ≤ INT_MAX → Z.of_nat (length ivs) ≤ INT_MAX →
  u ∈ ivs → (∀ pt, pt ∈ pts → ponto_coberto_por_intervalo pt u = true) →
  ∃ iv, corpo_laco (preparar (instancia ivs pts))
        = Feito (Continua (selecionar (preparar (instancia ivs pts)) iv))
        ∧ iv ∈ ivs
        ∧ ∀ pt, pt ∈ pts → ponto_coberto_por_intervalo pt iv = true.
Proof.
  intros Hne Hp Hn Hu Hall.
  set (p0 := preparar (instancia ivs pts)).
  assert (ginv p0) as Hinv by (by apply GL.ginv_preparar).
  destruct (GL.corpo_laco_spec p0 Hinv)
    as [[Htodos _]|(_ & a & pt & Hanc
                    & [(_ & Hnone & _)|(k & ivk & _ & Hesc & _ & Heq)])].
  - unfold todos_pontos_cobertos, n_pontos in Htodos. simpl in Htodos.
    destruct pts as [|pt0 pts0]; [done|]. simpl in Htodos. discriminate.
  - destruct Hanc as (_ & Hpt & _).
    specialize (Hnone u Hu). rewrite (Hall pt) in Hnone; [done|].
    by eapply list_elem_of_lookup_2.
  - exists ivk. split; [done|]. destruct Hesc as (Hk & Hck & Hpref).
    split; [by eapply list_elem_of_lookup_2|].
    apply list_elem_of_lookup in Hu as (j & Hj).
    destruct Hanc as (_ & Hpt & _).
    assert (pot p0 u ≤ pot p0 ivk) as Hle.
    { destruct (Hpref j u Hj) as [?|[? _]]; [|lia..].
      apply Hall. by eapply list_elem_of_lookup_2. }
    rewrite !GL.pot_spec in Hle by done. simpl in Hle.
    pose proof (GL.nao_cobertos_em_le ivk pts (replicate (length pts) false)).
    apply nao_cobertos_em_todos.
    apply nao_cobertos_em_todos in Hall. lia.
Qed.

(** X15. When one interval of the pool holds every point, the greedy
    solver selects a single interval, one that holds every point, and
    stops: its answer is the minimum, the size 1 that the exact solver
    reports on the same instance. *)
Theorem intervalo_universal ivs_b ivs_g pts u :
  pts ≠ [] →
  Z.of_nat (length pts) ≤ INT_MAX →
  Z.of_nat (length ivs_b) < INT_MAX → Z.of_nat (length ivs_g) ≤ INT_MAX →
  u ∈ ivs_b → u ∈ ivs_g →
  (∀ pt, pt ∈ pts → ponto_coberto_por_intervalo pt u = true) →
  (∃ g' n iv,
     resolver_guloso (instancia ivs_g pts) = Feito (g', n)
     ∧ m_n_solucao n = 1 ∧ cobertura g' = [iv] ∧ iv ∈ ivs_g
     ∧ todos_pontos_cobertos g' = true
     ∧ ∀ pt, pt ∈ pts → ponto_coberto_por_intervalo pt iv = true)
  ∧ (∃ (b' : Backtracking.ProblemaBacktracking) m,
       Backtracking.resolver_backtracking (Backtracking.instancia ivs_b pts)
       = Feito (b', m)
       ∧ Backtracking.m_n_solucao m = 1).
Proof.
  intros Hne Hp Hnb Hng Hub Hug Hall. split.
  - destruct (primeira_escolha_universal ivs_g pts u) as (iv & Heq & Hiv & Hcov);
      try done.
    set (p0 := preparar (instancia ivs_g pts)) in *.
    assert (ginv p0) as Hinv by (by apply GL.ginv_preparar).
    destruct (GL.ginv_continua p0 _ Hinv Heq) as (Hinv1 & Hi1 & Hp1 & _ & iv' & Hcob).
    destruct (GL.ginv_selecionar p0 iv) with (pt := hd {| id := 0; posicao := 0 |} pts)
      as (_ & _ & _ & _ & Hcob' & _); try done.
    { destruct pts; [done|]. left. }
    { destruct pts; [done|]. apply Hcov. left. }
    set (p1 := selecionar p0 iv) in *.
    change (cobertura p0) with (@nil Intervalo) in Hcob'. simpl in Hcob'.
    assert (todos_pontos_cobertos p1 = true) as Htodos.
    { apply (GL.todos_pontos_cobertos_spec p1 Hinv1). rewrite Hp1, Hcob'.
      intros pt Hpt. apply coberto_por_true. exists iv.
      split; [apply list_elem_of_singleton; done|]. by apply Hcov. }
    pose proof (g_len _ Hinv1) as Hlen. rewrite Hcob' in Hlen. simpl in Hlen.
    subst p1 p0. unfold resolver_guloso.
    change (length (pontos (instancia ivs_g pts))) with (length pts).
    destruct (length pts) as [|k] eqn:Hk; [by destruct pts|].
    cbn [laco]. rewrite Heq. cbn [ligar].
    unfold corpo_laco at 1. rewrite Htodos. cbn [ligar].
    eexists _, _, iv. split; [done|]. cbn [m_n_solucao].
    split; [lia|done].
  - destruct (BT.resolver_backtracking_resultado (Backtracking.instancia ivs_b pts))
      as (b' & Heq & _ & _ & _ & _ & Hbest & Hmin);
      [by apply BT.bem_formado_inicial | done |].
    simpl in *. eexists b', _. split; [exact Heq|]. simpl.
    assert (Backtracking.n_melhor_solucao b' ≤ 1) as Hle.
    { apply (Hmin [u]); [by apply singleton_sublist_l|].
      intros pt Hpt. apply coberto_por_true. exists u.
      split; [apply list_elem_of_singleton; done|]. by apply Hall. }
    destruct Hbest as [[Hnm _]|(_ & _ & Hsz & Hcob)]; [unfold INT_MAX in *; lia|].
    destruct (Backtracking.melhor b') eqn:Hm; [|simpl in Hsz; lia].
    by apply sem_pontos_sem_cobertura in Hcob.
Qed.

Lemma intervalo_universal_witness :
  ∃ g' n iv,
    resolver_guloso (instancia (ivs [(0, 12); (0, 50); (30, 45)]) pontos_pequeno)
    = Feito (g', n)
    ∧ m_n_solucao n = 1 ∧ cobertura g' = [iv].
Proof.
  destruct (intervalo_universal (ivs [(0, 50); (0, 12); (30, 45)])
              (ivs [(0, 12); (0, 50); (30, 45)]) pontos_pequeno
              {| inicio := 0; fim := 50 |})
    as [(g' & n & iv & Heq & Hsz & Hcob & _) _].
  - discriminate.
  - vm_compute. discriminate.
  - vm_compute. reflexivity.
  - vm_compute. discriminate.
  - apply (bool_decide_unpack _). vm_compute. reflexivity.
  - apply (bool_decide_unpack _). vm_compute. reflexivity.
  - apply Forall_forall. apply (bool_decide_unpack _). vm_compute. reflexivity.
  - exists g', n, iv. split; [exact Heq|]. split; [exact Hsz | exact Hcob].
Defined.

(** X16. The two solvers agree on whether the points can be covered: the
    greedy solver ends with every point counted as covered exactly when
    each point lies in some interval of the pool, and that is exactly
    when the exact solver ends with a size other than the sentinel. *)
Theorem solucionadores_concordam ivs_b ivs_g pts :
  pts ≠ [] → ivs_b ≡ₚ ivs_g →
  Z.of_nat (length pts) ≤ INT_MAX → Z.of_nat (length ivs_b) < INT_MAX →
  ∃ g' n (b' : Backtracking.ProblemaBacktracking) m,
    resolver_guloso (instancia ivs_g pts) = Feito (g', n)
    ∧ Backtracking.resolver_backtracking (Backtracking.instancia ivs_b pts)
      = Feito (b', m)
    ∧ (todos_pontos_cobertos g' = true
       ↔ ∀ pt, pt ∈ pts → ∃ iv, iv ∈ ivs_g ∧ inicio iv ≤ posicao pt ≤ fim iv)
    ∧ (todos_pontos_cobertos g' = true ↔ Backtracking.m_n_solucao m ≠ INT_MAX).
Proof.
  intros Hne Hperm Hp Hn.
  assert (Z.of_nat (length ivs_g) ≤ INT_MAX) as Hng by (rewrite <- Hperm; lia).
  destruct (GL.resolver_guloso_resultado (instancia ivs_g pts))
    as (g' & Heqg & _ & Hinv & Hi & Hpt & Hfim); [done|done|].
  destruct (BT.resolver_backtracking_resultado (Backtracking.instancia ivs_b pts))
    as (b' & Heqb & _ & _ & _ & _ & Hbest & Hmin);
    [by apply BT.bem_formado_inicial | done |].
  simpl in *. eexists g', _, b', _. split; [exact Heqg|]. split; [exact Heqb|].
  simpl.
  assert (todos_pontos_cobertos g' = true
          ↔ ∀ pt, pt ∈ pts → ∃ iv, iv ∈ ivs_g ∧ inicio iv ≤ posicao pt ≤ fim iv)
    as Hfeas.
  { split.
    - intros Htodos pt Hin.
      apply (GL.todos_pontos_cobertos_spec _ Hinv) in Htodos.
      rewrite Hpt in Htodos. apply Htodos, coberto_por_true in Hin as (iv & Hiv & Hc).
      exists iv. split; [rewrite <- Hi; by apply (g_in _ Hinv)|].
      by apply ponto_coberto_iff.
    - intros Hall. destruct Hfim as [?|(_ & pt & Hin & Hnone)]; [done|].
      destruct (Hall pt Hin) as (iv & Hiv & Hc).
      apply ponto_coberto_iff in Hc. rewrite (Hnone iv Hiv) in Hc. discriminate. }
  split; [exact Hfeas|]. rewrite Hfeas. split.
  - intros Hall.
    assert (Backtracking.n_melhor_solucao b' ≤ Z.of_nat (length ivs_b)); [|lia].
    apply Hmin; [done|]. intros pt Hin. apply coberto_por_true.
    destruct (Hall pt Hin) as (iv & Hiv & Hc). exists iv.
    split; [by rewrite Hperm | by apply ponto_coberto_iff].
  - intros Hnm pt Hin.
    destruct Hbest as [[? _]|(_ & Hsub & _ & Hcob)]; [done|].
    apply Hcob, coberto_por_true in Hin as (iv & Hiv & Hc).
    exists iv. split; [|by apply ponto_coberto_iff].
    rewrite <- Hperm. by eapply elem_of_sublist.
Qed.

Lemma solucionadores_concordam_witness :
  ∃ g' n (b' : Backtracking.ProblemaBacktracking) m,
    resolver_guloso (instancia intervalos_pequeno_guloso pontos_pequeno) = Feito (g', n)
    ∧ Backtracking.resolver_backtracking
        (Backtracking.instancia intervalos_pequeno_backtracking pontos_pequeno)
      = Feito (b', m)
    ∧ (todos_pontos_cobertos g' = true ↔ Backtracking.m_n_solucao m ≠ INT_MAX).
Proof.
  destruct (solucionadores_concordam intervalos_pequeno_backtracking
              intervalos_pequeno_guloso pontos_pequeno)
    as (g' & n & b' & m & Hg & Hb & _ & Hiff).
  - discriminate.
  - apply (bool_decide_unpack _). vm_compute. reflexivity.
  - vm_compute. discriminate.
  - vm_compute. reflexivity.
  - exists g', n, b', m. split; [exact Hg|]. split; [exact Hb | exact Hiff].
Defined.

End GLX.

(** ** What is printed after a solve *)

Module EX.
Import Exibir.

Lemma ler_ate_take {A} (b : list A) n :
  0 ≤ n ≤ Z.of_nat (length b) → ler_ate (Some b) n = Feito (take (Z.to_nat n) b).
Proof.
  intros Hn. unfold ler_ate.
  destruct (Z.leb_spec n 0).
  - by replace n with 0 by lia.
  - destruct (Z.leb_spec n (Z.of_nat (length b))); [done|lia].
Qed.

(** The points printed from the mask of a selection are the points the
    selection holds, and the count of the mask is their number. *)
Lemma linhas_pontos_mascara pontos sel :
  linhas_pontos pontos (mascara pontos sel)
  = map linha_ponto (List.filter (coberto_por sel) pontos)
  ∧ contar (mascara pontos sel)
    = Z.of_nat (length (List.filter (coberto_por sel) pontos)).
Proof.
  unfold mascara. induction pontos as [|pt pontos [IH1 IH2]]; simpl; [done|].
  destruct (coberto_por sel pt); simpl; rewrite IH1, IH2; split; try done; lia.
Qed.

Lemma filter_completa pontos sel :
  cobertura_completa pontos sel → List.filter (coberto_por sel) pontos = pontos.
Proof.
  intros Hcob. induction pontos as [|pt pontos IH]; simpl; [done|].
  rewrite (Hcob pt) by left. f_equal. apply IH.
  intros pt' Hin. apply Hcob. by right.
Qed.

(** X17. After a solve of the exact program, [exibir_solucao_backtracking]
    reads nothing out of bounds.  When no cover was found it prints the
    sentinel itself as the number of intervals, 2147483647, and the line
    that says that no complete solution was found; otherwise it prints
    the size, the intervals of the cover numbered from 1, a count of
    covered points equal to the number of points, and every point. *)
Theorem exibir_solucao_backtracking_apos_resolver ivs pts :
  pts ≠ [] →
  Z.of_nat (length ivs) < INT_MAX → Z.of_nat (length pts) ≤ INT_MAX →
  ∃ p' m,
    Backtracking.resolver_backtracking (Backtracking.instancia ivs pts) = Feito (p', m)
    ∧ match Backtracking.cobertura p' with
      | None =>
          exibir_solucao_backtracking p'
          = Feito ["Melhor solucao encontrada (2147483647 intervalos):" +:+ nl;
                   "  Nenhuma solucao completa encontrada!" +:+ nl]
      | Some c =>
          exibir_solucao_backtracking p'
          = Feito ([linha_melhor (Z.of_nat (length c))]
                   ++ imap linha_intervalo c
                   ++ [linha_cobertos (Z.of_nat (length pts)) (Z.of_nat (length pts))]
                   ++ map linha_ponto pts)
      end.
Proof.
  intros Hne Hn Hp.
  destruct (BT.resolver_backtracking_resultado (Backtracking.instancia ivs pts))
    as (p' & Heq & _ & Hpts & _ & Hbf & Hbest & _);
    [by apply BT.bem_formado_inicial | done |].
  simpl in *. eexists p', _. split; [exact Heq|].
  unfold Backtracking.cobertura, exibir_solucao_backtracking. cbv zeta.
  destruct Hbest as [[Hnm _]|(Hlt & _ & Hsz & Hcob)].
  - rewrite Hnm, Z.eqb_refl. reflexivity.
  - destruct (Z.eqb_spec (Backtracking.n_melhor_solucao p') INT_MAX); [lia|].
    assert (Backtracking.melhor p' ≠ []) as Hnil.
    { intros Hnil. rewrite Hnil in Hcob. by apply sem_pontos_sem_cobertura in Hcob. }
    unfold Backtracking.melhor in *.
    destruct (Backtracking.melhor_solucao p') as [b|] eqn:Hb; [|done].
    rewrite length_take in Hsz.
    rewrite ler_ate_take by lia. cbn [ligar].
    rewrite Hpts.
    pose proof (BT.verificar_laco_mascara pts
                  (take (Z.to_nat (Backtracking.n_melhor_solucao p')) b) [] Hp) as Hl.
    rewrite contar_mascara_nil, mascara_nil in Hl. simpl in Hl. rewrite Hl.
    destruct (linhas_pontos_mascara pts
                (take (Z.to_nat (Backtracking.n_melhor_solucao p')) b)) as [-> ->].
    rewrite (filter_completa _ _ Hcob).
    unfold Backtracking.n_pontos. rewrite Hpts, length_take.
    by rewrite <- Hsz.
Qed.

Lemma exibir_solucao_backtracking_apos_resolver_witness :
  ∃ p' m,
    Backtracking.resolver_backtracking
      (Backtracking.instancia intervalos_pequeno_backtracking (pts [5; 50]))
    = Feito (p', m)
    ∧ exibir_solucao_backtracking p'
      = Feito ["Melhor solucao encontrada (2147483647 intervalos):" +:+ nl;
               "  Nenhuma solucao completa encontrada!" +:+ nl].
Proof.
  destruct (exibir_solucao_backtracking_apos_resolver
              intervalos_pequeno_backtracking (pts [5; 50]))
    as (p' & m & Heq & Hex).
  - discriminate.
  - vm_compute. reflexivity.
  - vm_compute. discriminate.
  - exists p', m. split; [exact Heq|].
    let v := eval vm_compute in
      (Backtracking.resolver_backtracking
         (Backtracking.instancia intervalos_pequeno_backtracking (pts [5; 50]))) in
    assert (Backtracking.resolver_backtracking
              (Backtracking.instancia intervalos_pequeno_backtracking (pts [5; 50]))
            = v) as E by (vm_compute; reflexivity).
    rewrite E in Heq. injection Heq as <- _. exact Hex.
Defined.

(** X18. After a solve of the greedy program, [exibir_solucao] reads
    nothing out of bounds: it prints the size, the intervals selected in
    the order of their selection, numbered from 1, and, as covered, the
    points that lie in one of them, each once, in the order of [pontos],
    with their number. *)
Theorem exibir_solucao_apos_resolver ivs pts :
  Z.of_nat (length pts) ≤ INT_MAX → Z.of_nat (length ivs) ≤ INT_MAX →
  ∃ g' n,
    Guloso.resolver_guloso (Guloso.instancia ivs pts) = Feito (g', n)
    ∧ exibir_solucao g'
      = Feito (["Solucao encontrada ("
                +:+ decimal (Z.of_nat (length (Guloso.cobertura g')))
                +:+ " intervalos):" +:+ nl]
               ++ imap linha_intervalo (Guloso.cobertura g')
               ++ [linha_cobertos
                     (Z.of_nat (length (List.filter
                                          (coberto_por (Guloso.cobertura g')) pts)))
                     (Z.of_nat (length pts))]
               ++ map linha_ponto
                    (List.filter (coberto_por (Guloso.cobertura g')) pts)).
Proof.
  intros Hp Hn.
  destruct (GL.resolver_guloso_resultado (Guloso.instancia ivs pts))
    as (g' & Heq & _ & Hinv & Hi & Hpt & _); [done|done|].
  simpl in Hi, Hpt. eexists g', _. split; [exact Heq|].
  destruct Hinv as [Hmask Hcnt Hbuf Hlen _ _ _ _ _ _].
  unfold exibir_solucao.
  assert (0 ≤ Guloso.n_solucao g' ≤ Z.of_nat (length (Guloso.solucao g'))) as Hsol.
  { unfold Guloso.cobertura in Hlen. rewrite length_take in Hlen. lia. }
  rewrite ler_ate_take by done. cbn [ligar].
  assert (length (Guloso.pontos_cobertos g') = length (Guloso.pontos g')) as Hml
    by (rewrite Hmask; apply mascara_length).
  unfold Guloso.n_pontos.
  rewrite ler_ate_take by lia. cbn [ligar].
  rewrite Nat2Z.id, <- Hml, firstn_all, Hcnt, Hmask, Hpt.
  destruct (linhas_pontos_mascara pts (Guloso.cobertura g')) as [-> ->].
  fold (Guloso.cobertura g'). by rewrite mascara_length, Hlen.
Qed.

Lemma exibir_solucao_apos_resolver_witness :
  ∃ g' n,
    Guloso.resolver_guloso (Guloso.instancia intervalos_pequeno_guloso pontos_pequeno)
    = Feito (g', n)
    ∧ ∃ saida, exibir_solucao g' = Feito saida.
Proof.
  destruct (exibir_solucao_apos_resolver intervalos_pequeno_guloso pontos_pequeno)
    as (g' & n & Heq & Hex).
  - vm_compute. discriminate.
  - vm_compute. discriminate.
  - exists g', n. split; [exact Heq|]. eexists. exact Hex.
Defined.

End EX.

(** ** Allocation failures in the greedy program *)

Module MEM.
Import Memoria.

Lemma linhas_pontos_bloco pts marcas i :
  (i + length marcas ≤ length pts)%nat →
  linhas_pontos (Bloco pts) i marcas
  = Feito (Exibir.linhas_pontos (drop i pts) marcas).
Proof.
  revert i. induction marcas as [|c marcas IH]; intros i Hlen; simpl in *.
  - by destruct (drop i pts).
  - destruct (lookup_lt_is_Some_2 pts i) as [pt Hpt]; [lia|].
    rewrite (drop_S _ _ _ Hpt). rewrite Hpt. simpl.
    rewrite IH by lia. by destruct c.
Qed.

(** X19. When one of the two allocations of [resolver_guloso] fails, it
    returns the zeroed metrics and leaves the instance alone; but the
    struct is not what the callers take it for.  After a failed [calloc]
    [pontos_cobertos] is [NULL], after a failed [malloc] it is the
    address of the block just freed: [exibir_solucao], which
    [executar_teste] calls next, reads through it as soon as there is a
    point, and after a failed [malloc] [liberar_problema] frees the
    block a second time. *)
Theorem resolver_guloso_sem_memoria ivs pts malloc_ok :
  pts ≠ [] →
  (resolver_guloso false malloc_ok (instancia ivs pts)
   = Feito (instancia ivs pts, metricas_zeradas)
   ∧ exibir_solucao (instancia ivs pts) = Falha
   ∧ ∃ p'', liberar_problema (instancia ivs pts) = Feito p''
            ∧ intervalos p'' = Nulo ∧ pontos p'' = Nulo
            ∧ pontos_cobertos p'' = Nulo ∧ solucao p'' = Nulo)
  ∧ (∃ p', resolver_guloso true false (instancia ivs pts) = Feito (p', metricas_zeradas)
           ∧ pontos_cobertos p' = Solto ∧ solucao p' = Nulo
           ∧ intervalos p' = Bloco ivs ∧ pontos p' = Bloco pts
           ∧ exibir_solucao p' = Falha
           ∧ liberar_problema p' = Falha).
Proof.
  intros Hne. destruct pts as [|pt pts]; [done|].
  split.
  - split; [reflexivity|]. split; [reflexivity|].
    eexists. split; [reflexivity|]. repeat split.
  - eexists. split; [reflexivity|]. repeat split.
Qed.

Lemma resolver_guloso_sem_memoria_witness :
  ∃ p', resolver_guloso true false (instancia intervalos_pequeno_guloso pontos_pequeno)
        = Feito (p', metricas_zeradas)
        ∧ liberar_problema p' = Falha.
Proof.
  destruct (resolver_guloso_sem_memoria intervalos_pequeno_guloso pontos_pequeno true)
    as [_ (p' & Heq & _ & _ & _ & _ & _ & Hlib)].
  - discriminate.
  - exists p'. split; [exact Heq | exact Hlib].
Defined.

(** X20. When both allocations succeed, the answer is that of the solver
    over lists, [exibir_solucao] reads within the buffers and prints
    what it prints over lists, and [liberar_problema] frees each of the
    four blocks once and leaves four [NULL]s; called again, it frees
    nothing. *)
Theorem resolver_guloso_com_memoria ivs pts :
  Z.of_nat (length pts) ≤ INT_MAX → Z.of_nat (length ivs) ≤ INT_MAX →
  ∃ p' g' m p'',
    resolver_guloso true true (instancia ivs pts) = Feito (p', m)
    ∧ Guloso.resolver_guloso (Guloso.instancia ivs pts) = Feito (g', m)
    ∧ (intervalos p' = Bloco ivs ∧ pontos p' = Bloco pts
       ∧ pontos_cobertos p' = Bloco (Guloso.pontos_cobertos g')
       ∧ n_pontos_cobertos p' = Guloso.n_pontos_cobertos g'
       ∧ solucao p' = Bloco (Guloso.solucao g')
       ∧ n_solucao p' = Guloso.n_solucao g')
    ∧ exibir_solucao p' = Exibir.exibir_solucao g'
    ∧ liberar_problema p' = Feito p''
    ∧ intervalos p'' = Nulo ∧ pontos p'' = Nulo
    ∧ pontos_cobertos p'' = Nulo ∧ solucao p'' = Nulo
    ∧ liberar_problema p'' = Feito p''.
Proof.
  intros Hp Hn.
  destruct (GL.resolver_guloso_resultado (Guloso.instancia ivs pts))
    as (g' & Heq & _ & Hinv & Hi & Hpt & _); [done|done|].
  simpl in Hi, Hpt.
  unfold resolver_guloso, ler_ate. cbn [negb intervalos pontos n_intervalos n_pontos instancia vivo].
  rewrite !EX.ler_ate_take by lia. cbn [ligar].
  rewrite !Nat2Z.id, !firstn_all, Heq. cbn [ligar].
  set (p' := {| intervalos := Bloco ivs |}).
  eexists p', g', _, _. split; [reflexivity|]. split; [reflexivity|].
  split; [done|].
  destruct Hinv as [Hmask Hcnt Hbuf Hlen _ _ _ _ _ _].
  assert (0 ≤ Guloso.n_solucao g' ≤ Z.of_nat (length (Guloso.solucao g'))) as Hsol.
  { unfold Guloso.cobertura in Hlen. rewrite length_take in Hlen. lia. }
  assert (length (Guloso.pontos_cobertos g') = length pts) as Hml
    by (rewrite Hmask, Hpt; apply mascara_length).
  split.
  { unfold exibir_solucao, Exibir.exibir_solucao, ler_ate, Guloso.n_pontos.
    cbn [solucao pontos_cobertos n_solucao n_pontos pontos n_pontos_cobertos vivo p'].
    rewrite Hpt. rewrite !EX.ler_ate_take by lia. cbn [ligar].
    rewrite linhas_pontos_bloco by (rewrite length_take; simpl; lia).
    done. }
  repeat split.
Qed.

Lemma resolver_guloso_com_memoria_witness :
  ∃ p' m,
    resolver_guloso true true (instancia intervalos_pequeno_guloso pontos_pequeno)
    = Feito (p', m)
    ∧ ∃ p'', liberar_problema p' = Feito p'' ∧ liberar_problema p'' = Feito p''.
Proof.
  destruct (resolver_guloso_com_memoria intervalos_pequeno_guloso pontos_pequeno)
    as (p' & g' & m & p'' & Heq & _ & _ & _ & Hlib & _ & _ & _ & _ & Hlib2).
  - vm_compute. discriminate.
  - vm_compute. discriminate.
  - exists p', m. split; [exact Heq|]. exists p''. split; [exact Hlib | exact Hlib2].
Defined.

End MEM.
